(** * tailchat-meeting: the Room Client (app/src/RoomClient.ts)

    A shallow embedding of the parts of [RoomClient.ts] that carry the
    behavioural contract of the conferencing client: resolution scalings,
    preferred-layer adaptation, the signaling request loop, the ICE restart
    controller, the disconnect/close path, spotlight-driven consumer pausing
    and the microphone operations.

    Conventions used throughout.
    - JavaScript numbers are modelled by exact rationals [Q] (finite values
      only); the few places where the source can produce an infinity or a NaN
      (a division by a zero scaling) are modelled by the type [jsnum].
    - An [async] method is modelled as the function from the state before the
      call to the state once its promise has settled; what the remote side
      answers is taken from an explicit environment.
    - Objects of the external libraries (mediasoup-client producers,
      consumers, transports, the socket.io socket) are records holding the
      fields the Room Client reads, and every call into them is recorded in an
      effect log. *)

From Stdlib Require Import ZArith QArith Qminmax Lia Bool Ascii String.
From stdpp Require Import base list strings gmap.

#[local] Set Warnings "-clear-no-such-hyp".

Open Scope string_scope.
Open Scope list_scope.

(** ** getResolutionScalings (RoomClient.ts, lines 129-172) *)

Module Scalings.

(** The fields of an RTCRtpEncodingParameters entry that the function reads. *)
Record Encoding := mkEncoding {
  scalabilityMode : option string;
  scaleResolutionDownBy : option Q
}.

(** The result of mediasoup-client's [parseScalabilityMode]. *)
Record ScalabilityMode := mkScalabilityMode {
  spatialLayers : nat;
  temporalLayers : nat
}.

(** [2 ** k]; the exponents that occur are never negative. *)
Definition pow2 (k : Z) : Q := inject_Z (2 ^ k).

(** [Math.max(1.0, x)]. *)
Definition max1 (x : Q) : Q := if Qle_bool x 1 then 1%Q else x.

(** [resolutionScalings.push(x)]. *)
Definition push {A} (l : list A) (x : A) : list A := l ++ [x].

Section WithParser.

(** [mediasoupClient.parseScalabilityMode], a function of the external
    mediasoup-client library; its argument may be [undefined]. *)
Variable parseScalabilityMode : option string -> ScalabilityMode.

(** The loop [for (let i = 0; i < spatialLayers; i++)] of the SVC branch. *)
Definition svc_loop (layers : nat) : list Q :=
  foldl (fun acc i => push acc (pow2 (Z.of_nat layers - Z.of_nat i - 1)))
        [] (seq 0 layers).

(** The first [encodings.forEach]: the flag [scaleResolutionDownByDefined]
    and the array built so far. *)
Definition simulcast_pass1 (encodings : list Encoding) : bool * list Q :=
  foldl (fun '(defined, acc) encoding =>
           match scaleResolutionDownBy encoding with
           | Some s => (true, push acc (max1 s))
           | None => (defined, push acc 1%Q)
           end)
        (false, []) encodings.

(** The second [encodings.forEach((encoding, index) => ...)], which
    overwrites [resolutionScalings[index]]. *)
Definition simulcast_pass2 (n : nat) (scalings : list Q) : list Q :=
  foldl (fun acc index =>
           <[index := pow2 (Z.of_nat n - Z.of_nat index - 1)]> acc)
        scalings (seq 0 n).

Definition getResolutionScalings (encodings : list Encoding) : list Q :=
  match encodings with
  | [encoding0] =>
      svc_loop (spatialLayers (parseScalabilityMode (scalabilityMode encoding0)))
  | _ =>
      let '(scaleResolutionDownByDefined, resolutionScalings) :=
        simulcast_pass1 encodings in
      if negb scaleResolutionDownByDefined
      then simulcast_pass2 (length encodings) resolutionScalings
      else resolutionScalings
  end.

(** *** The specification's wording, as a second definition *)

(** [[2^(n-1), 2^(n-2), ..., 2^0]]. *)
Definition halving_ladder (n : nat) : list Q :=
  map (fun i => pow2 (Z.of_nat n - 1 - Z.of_nat i)) (seq 0 n).

Definition defines_scale (e : Encoding) : bool :=
  match scaleResolutionDownBy e with Some _ => true | None => false end.

Definition spec_scalings (encodings : list Encoding) : list Q :=
  if Nat.eqb (length encodings) 1 then
    match encodings with
    | e :: _ => halving_ladder (spatialLayers (parseScalabilityMode (scalabilityMode e)))
    | [] => []
    end
  else if existsb defines_scale encodings then
    map (fun e => match scaleResolutionDownBy e with
                  | Some s => Qmax 1 s
                  | None => 1%Q
                  end) encodings
  else halving_ladder (length encodings).

End WithParser.

(** A model of mediasoup-client's parser, used to instantiate the parameter:
    the library matches [^[LS]([1-9]\d{0,1})T([1-9]\d{0,1})] and answers
    one spatial and one temporal layer when the mode does not match. *)
Definition digit_of (c : ascii) : option nat :=
  let n := nat_of_ascii c in
  if (48 <=? n)%nat && (n <=? 57)%nat then Some (n - 48)%nat else None.

Definition nonzero_digit_of (c : ascii) : option nat :=
  match digit_of c with
  | Some 0%nat => None
  | r => r
  end.

(** [([1-9]\d{0,1})] at the head of [s]: the number and the rest. *)
Definition layer_count (s : string) : option (nat * string) :=
  match s with
  | String c rest =>
      match nonzero_digit_of c with
      | Some d =>
          match rest with
          | String c' rest' =>
              match digit_of c' with
              | Some d' => Some (10 * d + d', rest')%nat
              | None => Some (d, rest)
              end
          | EmptyString => Some (d, rest)
          end
      | None => None
      end
  | EmptyString => None
  end.

Definition default_mode : ScalabilityMode := mkScalabilityMode 1 1.

Definition mediasoup_parse (mode : option string) : ScalabilityMode :=
  match mode with
  | Some (String c rest) =>
      if Ascii.eqb c "L" || Ascii.eqb c "S" then
        match layer_count rest with
        | Some (spatial, String t rest') =>
            if Ascii.eqb t "T" then
              match layer_count rest' with
              | Some (temporal, _) => mkScalabilityMode spatial temporal
              | None => default_mode
              end
            else default_mode
        | _ => default_mode
        end
      else default_mode
  | _ => default_mode
  end.

(** *** Predicates and sample states of the proofs *)

(** What [Math.max(1.0, s)] leaves for a defined scale and what the [else]
    branch pushes for an undefined one. *)
Definition clamped (e : Encoding) : Q :=
  match scaleResolutionDownBy e with
  | Some s => max1 s
  | None => 1%Q
  end.

End Scalings.


(** ** adaptConsumerPreferredLayers (RoomClient.ts, lines 2249-2327) *)

Module Layers.

(** A JavaScript number that results from one division of finite values. *)
Inductive jsnum := Fin (q : Q) | PosInf | NegInf | NaN.

(** [a / b] on finite numbers: a zero divisor gives an infinity, or NaN
    for [0 / 0]. *)
Definition js_div (a b : Q) : jsnum :=
  if Qeq_bool b 0 then
    if Qeq_bool a 0 then NaN
    else if Qle_bool 0 a then PosInf else NegInf
  else Fin (a / b).

(** [x * c] for a positive finite constant [c]. *)
Definition js_scale (x : jsnum) (c : Q) : jsnum :=
  match x with
  | Fin q => Fin (q * c)
  | other => other
  end.

(** [v >= x]. *)
Definition js_ge (v : Q) (x : jsnum) : bool :=
  match x with
  | Fin q => Qle_bool q v
  | NegInf => true
  | PosInf | NaN => false
  end.

(** [v < x]. *)
Definition js_lt (v : Q) (x : jsnum) : bool :=
  match x with
  | Fin q => negb (Qle_bool q v)
  | PosInf => true
  | NegInf | NaN => false
  end.

(** [Math.max] and [Math.min] on finite numbers. *)
Definition js_max (a b : Q) : Q := if Qle_bool a b then b else a.
Definition js_min (a b : Q) : Q := if Qle_bool a b then a else b.

(** The fields of a consumer store object that the method reads. *)
Record Consumer := mkConsumer {
  id : string;
  type : string;
  preferredSpatialLayer : Z;
  preferredTemporalLayer : Z;
  temporalLayers : Z;
  width : Q;
  height : Q;
  resolutionScalings : list Q
}.

(** The [setConsumerPreferedLayers] request that
    [setConsumerPreferredLayers(id, spatialLayer, temporalLayer)] sends. *)
Record LayersRequest := mkLayersRequest {
  consumerId : string;
  spatialLayer : Z;
  temporalLayer : Z
}.

(** [Math.min(Math.max(config.adaptiveScalingFactor || 0.75, 0.5), 1.0)];
    the configured value may be absent. *)
Definition adaptiveScalingFactor (configured : option Q) : Q :=
  let value :=
    match configured with
    | Some f => if Qeq_bool f 0 then (3 # 4)%Q else f
    | None => (3 # 4)%Q
    end in
  js_min (js_max value (1 # 2)) 1.

(** The test of the spatial loop at scaling [s]:
    [viewportWidth >= levelWidth || viewportHeight >= levelHeight]. *)
Definition level_fits (F w h viewportWidth viewportHeight s : Q) : bool :=
  let levelWidth := js_div (F * w) s in
  let levelHeight := js_div (F * h) s in
  js_ge viewportWidth levelWidth || js_ge viewportHeight levelHeight.

(** The loop [for (let i = 0; i < resolutionScalings.length; i++)] with its
    [break]; [i] is the index of the head of [scalings]. *)
Fixpoint spatial_loop (F w h viewportWidth viewportHeight : Q)
    (scalings : list Q) (i newPreferredSpatialLayer : nat) : nat :=
  match scalings with
  | [] => newPreferredSpatialLayer
  | s :: rest =>
      if level_fits F w h viewportWidth viewportHeight s
      then spatial_loop F w h viewportWidth viewportHeight rest (S i) i
      else newPreferredSpatialLayer
  end.

Definition newPreferredSpatialLayer (configured : option Q) (consumer : Consumer)
    (viewportWidth viewportHeight : Q) : nat :=
  spatial_loop (adaptiveScalingFactor configured)
    (width consumer) (height consumer) viewportWidth viewportHeight
    (resolutionScalings consumer) 0 0.

(** [x / resolutionScalings[0]]; an empty array gives [undefined], hence NaN. *)
Definition lowest_level (x : Q) (scalings : list Q) : jsnum :=
  match scalings with
  | s :: _ => js_div x s
  | [] => NaN
  end.

Definition newPreferredTemporalLayer (consumer : Consumer)
    (viewportWidth viewportHeight : Q) (spatial : nat) : Z :=
  let t0 := (temporalLayers consumer - 1)%Z in
  if Nat.eqb spatial 0 && (0 <? t0)%Z then
    let lowestLevelWidth :=
      lowest_level (width consumer) (resolutionScalings consumer) in
    let lowestLevelHeight :=
      lowest_level (height consumer) (resolutionScalings consumer) in
    let t1 :=
      if js_lt viewportWidth (js_scale lowestLevelWidth (1 # 2))
         && js_lt viewportHeight (js_scale lowestLevelHeight (1 # 2))
      then (t0 - 1)%Z else t0 in
    if (0 <? t1)%Z
       && js_lt viewportWidth (js_scale lowestLevelWidth (1 # 4))
       && js_lt viewportHeight (js_scale lowestLevelHeight (1 # 4))
    then (t1 - 1)%Z else t1
  else t0.

(** The method answers with the request it hands to
    [setConsumerPreferredLayers], or with nothing when it returns early. *)
Definition adaptConsumerPreferredLayers (configured : option Q)
    (consumer : Consumer) (viewportWidth viewportHeight : Q)
    : option LayersRequest :=
  if String.eqb (type consumer) "simple" then None
  else if Qeq_bool viewportWidth 0 || Qeq_bool viewportHeight 0 then None
  else
    let spatial :=
      newPreferredSpatialLayer configured consumer viewportWidth viewportHeight in
    let temporal :=
      newPreferredTemporalLayer consumer viewportWidth viewportHeight spatial in
    if negb (preferredSpatialLayer consumer =? Z.of_nat spatial)%Z
       || negb (preferredTemporalLayer consumer =? temporal)%Z
    then Some (mkLayersRequest (id consumer) (Z.of_nat spatial) temporal)
    else None.

(** *** The specification's wording *)



(** The consumer of the specification's example: scalings [[4, 2, 1]] of a
    1280x720 source, three temporal layers. *)
Definition example_consumer (spatial temporal : Z) : Consumer :=
  mkConsumer "c1" "simulcast" spatial temporal 3 1280 720 [4%Q; 2%Q; 1%Q].


(** *** Predicates and sample states of the proofs *)


End Layers.

(** ** timeoutCallback, _sendRequest, sendRequest (RoomClient.ts, lines 824-913) *)

Module Signaling.

(** The two options of [config] that the request path reads. *)
Record Config := mkConfig {
  requestTimeout : Z;
  requestRetries : Z
}.

(** What a promise of the request path is rejected with: an instance of
    [SocketTimeoutError], or any other value (the error of an ack, the string
    ['No socket connection']). *)
Inductive Error :=
| SocketTimeoutError (message : string)
| OtherError (value : string).

Definition instanceof_SocketTimeoutError (e : Error) : bool :=
  match e with
  | SocketTimeoutError _ => true
  | OtherError _ => false
  end.

Inductive Settled (A : Type) :=
| Resolved (value : A)
| Rejected (error : Error).
Arguments Resolved {A} value.
Arguments Rejected {A} error.

(** A response is a JavaScript value; [None] stands for [undefined]. *)
Definition Response := option string.

Record Request := mkRequest {
  method : string;
  data : string
}.

(** What the signaling socket does with one emitted request: it calls the
    ack [delay] ms later with [(err, response)], [err = None] being a falsy
    first argument, or it never calls it. *)
Inductive Ack :=
| AckAfter (delay : Z) (err : option string) (response : Response)
| NoAck.

(** [setTimeout] treats a negative delay as zero. *)
Definition timer_delay (ms : Z) : Z := Z.max 0 ms.

(** [timeoutCallback(callback)] wrapped around one emit: whichever of the
    timer and the ack comes first calls [callback] and sets [called]; the
    other is then ignored.  The answer is the time at which [callback] runs
    and the arguments it runs with, already passed through the
    [(err, response) => ...] callback of [_sendRequest]. *)
Definition timeoutCallback (config : Config) (ack : Ack) : Z * Settled Response :=
  let due := timer_delay (requestTimeout config) in
  match ack with
  | AckAfter delay err response =>
      if (delay <? due)%Z then
        (delay, match err with
                | Some e => Rejected (OtherError e)
                | None => Resolved response
                end)
      else (due, Rejected (SocketTimeoutError "Request timed out"))
  | NoAck => (due, Rejected (SocketTimeoutError "Request timed out"))
  end.

(** [_sendRequest(method, data)]; [socket] tells whether
    [this._signalingSocket] is set. *)
Definition _sendRequest (config : Config) (socket : bool) (ack : Ack)
    : Z * Settled Response :=
  if negb socket then (0%Z, Rejected (OtherError "No socket connection"))
  else timeoutCallback config ack.

(** How the promise of [sendRequest] settled, after how many emits and how
    many milliseconds. *)
Record Outcome := mkOutcome {
  result : Settled Response;
  attempts : nat;
  elapsed : Z
}.

(** The [for (let tries = 0; tries < config.requestRetries; tries++)] loop.
    [net request k] is the fate of the [k]-th emit of this call.  Falling
    out of the loop ends the [async] function without a [return], which
    resolves its promise with [undefined].  [fuel] bounds the number of
    iterations; [None] means it ran out. *)
Fixpoint sendRequest_loop (config : Config) (socket : bool)
    (net : Request -> nat -> Ack) (request : Request)
    (fuel : nat) (tries : Z) (sent : nat) (time : Z) : option Outcome :=
  if negb (tries <? requestRetries config)%Z then
    Some (mkOutcome (Resolved None) sent time)
  else
    match fuel with
    | O => None
    | S fuel' =>
        let '(dt, settled) := _sendRequest config socket (net request sent) in
        match settled with
        | Resolved response =>
            Some (mkOutcome (Resolved response) (S sent) (time + dt))
        | Rejected error =>
            if instanceof_SocketTimeoutError error
               && (tries <? requestRetries config)%Z
            then sendRequest_loop config socket net request
                   fuel' (tries + 1) (S sent) (time + dt)
            else Some (mkOutcome (Rejected error) (S sent) (time + dt))
        end
    end.

Definition sendRequest (config : Config) (socket : bool)
    (net : Request -> nat -> Ack) (request : Request) : option Outcome :=
  sendRequest_loop config socket net request
    (Z.to_nat (requestRetries config)) 0 0 0.

(** The result of the [k]-th attempt of a call. *)
Definition attempt (config : Config) (socket : bool)
    (net : Request -> nat -> Ack) (request : Request) (k : nat)
    : Settled Response :=
  snd (_sendRequest config socket (net request k)).

(** A socket that never acknowledges anything. *)
Definition silent : Request -> nat -> Ack := fun _ _ => NoAck.

(** *** Predicates and sample states of the proofs *)

Definition timed_out (s : Settled Response) : bool :=
  match s with
  | Rejected e => instanceof_SocketTimeoutError e
  | Resolved _ => false
  end.

(** What the loop guarantees from any iteration on, given enough fuel. *)
Record loop_facts (config : Config) (socket : bool)
    (net : Request -> nat -> Ack) (request : Request)
    (tries : Z) (sent : nat) (time : Z) (o : Outcome) : Prop := {
  lf_more : (sent <= attempts o)%nat;
  lf_bound :
    (Z.of_nat (attempts o) - Z.of_nat sent
     <= Z.max 0 (requestRetries config - tries))%Z;
  lf_retry : forall k, (sent <= k)%nat -> (S k < attempts o)%nat ->
             timed_out (attempt config socket net request k) = true;
  lf_last :
    ((sent < attempts o)%nat
     /\ result o = attempt config socket net request (attempts o - 1)
     /\ timed_out (result o) = false)
    \/ (result o = Resolved None
        /\ (Z.of_nat (attempts o) - Z.of_nat sent
            = Z.max 0 (requestRetries config - tries))%Z
        /\ forall k, (sent <= k)%nat -> (k < attempts o)%nat ->
                     timed_out (attempt config socket net request k) = true);
  lf_time :
    (elapsed o
     <= time + timer_delay (requestTimeout config)
               * (Z.of_nat (attempts o) - Z.of_nat sent))%Z
}.

End Signaling.

(** ** restartIce (RoomClient.ts, lines 2174-2225) and the
    'connectionstatechange' handlers (lines 3536-3547, 3615-3626) *)

Module Ice.

(** The two functions that [restartIce] hands to [setTimeout]:
    the [async () => { try { ... } catch ... }] attempt of a call with
    [delay], and the [() => this.restartIce(transport, ice, delay * 2)] of
    its [catch]. *)
Inductive Callback :=
| Attempt (delay : Z)
| Reschedule (delay : Z).

(** An armed timer of the event loop. *)
Record Timer := mkTimer {
  handle : nat;
  due : Z;
  callback : Callback
}.

(** Where a run of the attempt is suspended. *)
Inductive Phase :=
| AwaitingSfu          (* await this.sendRequest('restartIce', ...) *)
| AwaitingTransport.   (* await transport.restartIce({ iceParameters }) *)

Record Pending := mkPending {
  p_delay : Z;
  p_phase : Phase
}.

Inductive Event :=
| RequestIssued        (* sendRequest('restartIce', { transportId }) *)
| TransportRestart     (* transport.restartIce({ iceParameters }) *)
| IceRestarted.        (* logger.debug('ICE restarted') *)

(** One [RestartICEParams] object ([restarting], [timer]) together with the
    part of the event loop that serves it. *)
Record State := mkState {
  now : Z;
  restarting : bool;
  timer : option nat;
  timers : list Timer;
  next_handle : nat;
  pending : list Pending;
  log : list (Z * Event)
}.

(** The constructor's [{ timer: null, restarting: false }]. *)
Definition init : State := mkState 0 false None [] 0 [] [].

Definition set_now (t : Z) (s : State) : State :=
  mkState (Z.max (now s) t) (restarting s) (timer s) (timers s)
          (next_handle s) (pending s) (log s).

Definition set_restarting (b : bool) (s : State) : State :=
  mkState (now s) b (timer s) (timers s) (next_handle s) (pending s) (log s).

Definition set_pending (ps : list Pending) (s : State) : State :=
  mkState (now s) (restarting s) (timer s) (timers s) (next_handle s) ps (log s).

Definition emit (e : Event) (s : State) : State :=
  mkState (now s) (restarting s) (timer s) (timers s) (next_handle s)
          (pending s) ((now s, e) :: log s).

(** [clearTimeout(ice.timer)]: disarms the timer of that handle, if any. *)
Definition clearTimeout (s : State) : State :=
  match timer s with
  | Some h =>
      mkState (now s) (restarting s) (timer s)
              (filter (fun t => handle t <> h) (timers s))
              (next_handle s) (pending s) (log s)
  | None => s
  end.

(** [ice.timer = setTimeout(cb, delay)]; a negative delay counts as zero. *)
Definition setTimeout (cb : Callback) (delay : Z) (s : State) : State :=
  mkState (now s) (restarting s) (Some (next_handle s))
          (timers s ++ [mkTimer (next_handle s) (now s + Z.max 0 delay) cb])
          (S (next_handle s)) (pending s) (log s).

(** [restartIce(transport, ice, delay)]; the [ice] object is the state
    itself, [transport] may be [null]. *)
Definition restartIce (transport : option string) (delay : Z) (s : State) : State :=
  match transport with
  | None => s
  | Some _ => setTimeout (Attempt delay) delay (clearTimeout s)
  end.

(** The [catch] block of the attempt. *)
Definition on_failure (delay : Z) (s : State) : State :=
  setTimeout (Reschedule delay) delay (set_restarting false s).

(** A timer fires: it leaves the list of armed timers, the clock reaches
    its due time and its callback runs up to its first suspension. *)
Definition fire (transport : option string) (t : Timer) (s : State) : State :=
  let s :=
    set_now (due t)
      (mkState (now s) (restarting s) (timer s)
               (filter (fun t' => handle t' <> handle t) (timers s))
               (next_handle s) (pending s) (log s)) in
  match callback t with
  | Attempt delay =>
      if restarting s then s
      else
        let s := set_restarting true s in
        let s := emit RequestIssued s in
        set_pending (pending s ++ [mkPending delay AwaitingSfu]) s
  | Reschedule delay => restartIce transport (delay * 2) s
  end.

(** The [i]-th suspended attempt is resumed at time [at]: its awaited
    promise was fulfilled ([ok]) or rejected. *)
Definition resume (i : nat) (ok : bool) (at_ : Z) (s : State) : State :=
  match pending s !! i with
  | None => s
  | Some p =>
      let s := set_pending (delete i (pending s)) (set_now at_ s) in
      if ok then
        match p_phase p with
        | AwaitingSfu =>
            let s := emit TransportRestart s in
            set_pending (pending s ++ [mkPending (p_delay p) AwaitingTransport]) s
        | AwaitingTransport =>
            emit IceRestarted (set_restarting false s)
        end
      else on_failure (p_delay p) s
  end.

(** The transport's ['connectionstatechange'] handler. *)
Definition on_connectionstatechange (transport : option string)
    (connectState : string) (s : State) : State :=
  if String.eqb connectState "disconnected" || String.eqb connectState "failed"
  then restartIce transport 2000 s
  else clearTimeout s.

(** *** Running the event loop *)

(** The armed timer that is due first (the older one on a tie). *)
Fixpoint earliest (ts : list Timer) : option Timer :=
  match ts with
  | [] => None
  | t :: rest =>
      match earliest rest with
      | Some t' => if (due t' <? due t)%Z then Some t' else Some t
      | None => Some t
      end
  end.

Definition run_next (transport : option string) (s : State) : option State :=
  match earliest (timers s) with
  | Some t => Some (fire transport t s)
  | None => None
  end.

(** The times at which [restartIce] requests were issued, oldest first. *)
Definition request_times (s : State) : list Z :=
  rev (omap (fun '(t, e) => match e with RequestIssued => Some t | _ => None end)
            (log s)).

(** With no other event coming in, the time of the next [restartIce]
    request, looking at most [fuel] timers ahead. *)
Fixpoint next_request_time (transport : option string) (fuel : nat) (s : State)
    : option Z :=
  match fuel with
  | O => None
  | S fuel' =>
      match run_next transport s with
      | None => None
      | Some s' =>
          if (length (request_times s) <? length (request_times s'))%nat
          then last (request_times s')
          else next_request_time transport fuel' s'
      end
  end.

(** *** Everything that can happen to the controller *)

Inductive step (transport : option string) : State -> State -> Prop :=
| step_statechange connectState s :
    step transport s (on_connectionstatechange transport connectState s)
| step_fire t s :
    t ∈ timers s ->
    step transport s (fire transport t s)
| step_resume i ok at_ s :
    (i < length (pending s))%nat ->
    step transport s (resume i ok at_ s).

Inductive reachable (transport : option string) : State -> Prop :=
| reach_init : reachable transport init
| reach_step s s' :
    reachable transport s -> step transport s s' -> reachable transport s'.

(** *** Predicates and sample states of the proofs *)

(** The flag [restarting] is up exactly while one attempt is suspended. *)
Definition flag_tracks_attempt (s : State) : Prop :=
  length (pending s) = if restarting s then 1%nat else 0%nat.

(** A transport that failed at time 0 and whose first attempt is under way. *)
Definition busy_state : State :=
  fire (Some "send-1") (mkTimer 0 2000 (Attempt 2000))
       (on_connectionstatechange (Some "send-1") "failed" init).

(** The send transport fails at time 0; the attempt made at 2000 ms is
    refused by the SFU at 2500 ms. *)
Definition refused_state : State := resume 0 false 2500 busy_state.

End Ice.

(** ** close (RoomClient.ts, lines 468-492) and the signaling socket's
    'disconnect' and 'reconnect_failed' handlers (lines 2416-2511) *)

Module Room.

(** [room.state] of the store. *)
Inductive RoomState := new | connecting | connected | closed.

(** The actions that these methods dispatch to the store. *)
Inductive Action :=
| setRoomState (st : RoomState)      (* roomActions.setRoomState *)
| removeProducer (producerId : string)  (* producersActions.removeProducer *)
| clearPeers                         (* peersActions.clearPeers *)
| clearConsumers                     (* consumersActions.clearConsumers *)
| clearSpotlights                    (* roomActions.clearSpotlights *)
| notify (messageId : string).       (* notifyAction({ text: ... }) *)

(** Calls into the objects around the Room Client, and dispatches. *)
Inductive Effect :=
| Dispatch (a : Action)
| SocketClose                          (* this._signalingSocket.close() *)
| TransportClose (id : string)         (* transport.close() *)
| ProducerClose (id : string)          (* producer.close() *)
| ProducerTransportClosed (id : string) (* 'transportclose' on a producer *)
| ConsumerTransportClosed (id : string) (* 'transportclose' on a consumer *)
| SpotlightsClear                      (* this._spotlights.clearSpotlights() *)
| Navigate.                            (* window.location.reload() / .href = *)

(** The slices of the store that these methods touch. *)
Record Store := mkStore {
  room_state : RoomState;
  store_producers : gset string;
  store_peers : gset string;
  store_consumers : gset string;
  store_spotlights : list string
}.

(** Modelled from the spec: the reducers of the store slices ([store/slices]
    is not part of the sources at hand).  [setRoomState] writes [room.state];
    [removeProducer] drops the producer of that id; the [clear*] actions
    empty their collection; a notification leaves these slices alone. *)
Definition reduce (a : Action) (st : Store) : Store :=
  match a with
  | setRoomState s =>
      mkStore s (store_producers st) (store_peers st) (store_consumers st)
              (store_spotlights st)
  | removeProducer id =>
      mkStore (room_state st) (store_producers st ∖ {[id]}) (store_peers st)
              (store_consumers st) (store_spotlights st)
  | clearPeers =>
      mkStore (room_state st) (store_producers st) ∅ (store_consumers st)
              (store_spotlights st)
  | clearConsumers =>
      mkStore (room_state st) (store_producers st) (store_peers st) ∅
              (store_spotlights st)
  | clearSpotlights =>
      mkStore (room_state st) (store_producers st) (store_peers st)
              (store_consumers st) []
  | notify _ => st
  end.

(** A mediasoup-client transport: [close()] does nothing once [closed]. *)
Record Transport := mkTransport {
  transport_id : string;
  transport_closed : bool
}.

(** The media objects the client holds: producers by id, the map of extra
    video producers (keyed by producer id, in insertion order), the
    consumers map and the two transports. *)
Record Media := mkMedia {
  _micProducer : option string;
  _webcamProducer : option string;
  _screenSharingProducer : option string;
  _screenSharingAudioProducer : option string;
  _extraVideoProducers : list string;
  _consumers : list string;
  _sendTransport : option Transport;
  _recvTransport : option Transport
}.

Record Client := mkClient {
  _closed : bool;
  _signalingSocket : option string;
  media : Media;
  store : Store;
  effects : list Effect
}.

(** A synchronous method returns, or throws (a TypeError on a [null]
    receiver), in the state it has reached. *)
Inductive Result :=
| Done (c : Client)
| Threw (c : Client).

Definition state_of (r : Result) : Client :=
  match r with Done c | Threw c => c end.

Definition perform (e : Effect) (c : Client) : Client :=
  mkClient (_closed c) (_signalingSocket c) (media c) (store c)
           (effects c ++ [e]).

(** [store.dispatch(a)]. *)
Definition dispatch (a : Action) (c : Client) : Client :=
  mkClient (_closed c) (_signalingSocket c) (media c) (reduce a (store c))
           (effects c ++ [Dispatch a]).

Definition set_media (m : Media) (c : Client) : Client :=
  mkClient (_closed c) (_signalingSocket c) m (store c) (effects c).

Definition set_closed (c : Client) : Client :=
  mkClient true (_signalingSocket c) (media c) (store c) (effects c).

(** The producers that are still open on the send transport, listed field
    by field (the library visits them in the order of their creation, which
    only permutes the effects recorded for them). *)
Definition open_producers (m : Media) : list string :=
  option_list (_screenSharingProducer m) ++ option_list (_webcamProducer m)
  ++ _extraVideoProducers m ++ option_list (_micProducer m)
  ++ option_list (_screenSharingAudioProducer m).

(** [this._sendTransport.close()]: mediasoup-client closes the producers
    of the transport and emits ['transportclose'] on each; the handlers
    registered by the Room Client reset the field that holds the producer
    (and delete it from [_extraVideoProducers]).  The transport object stays
    in its field, closed. *)
Definition close_sendTransport (c : Client) : Client :=
  match _sendTransport (media c) with
  | None => c
  | Some t =>
      if transport_closed t then c
      else
        let m := media c in
        let c := perform (TransportClose (transport_id t)) c in
        let c := foldl (fun c id => perform (ProducerTransportClosed id) c)
                       c (open_producers m) in
        set_media (mkMedia None None None None [] (_consumers m)
                     (Some (mkTransport (transport_id t) true))
                     (_recvTransport m)) c
  end.

(** [this._recvTransport.close()]: likewise for the consumers, whose
    ['transportclose'] handler deletes them from [_consumers]. *)
Definition close_recvTransport (c : Client) : Client :=
  match _recvTransport (media c) with
  | None => c
  | Some t =>
      if transport_closed t then c
      else
        let m := media c in
        let c := perform (TransportClose (transport_id t)) c in
        let c := foldl (fun c id => perform (ConsumerTransportClosed id) c)
                       c (_consumers m) in
        set_media (mkMedia (_micProducer m) (_webcamProducer m)
                     (_screenSharingProducer m) (_screenSharingAudioProducer m)
                     (_extraVideoProducers m) []
                     (_sendTransport m)
                     (Some (mkTransport (transport_id t) true))) c
  end.

(** [close()].  The flag is set before anything else, so that a
    ['disconnect'] event emitted by the socket while it is being closed runs
    into the [_closed] guard of its handler.  Changing [window.location] at
    the end does not interrupt the caller: the page is replaced after the
    running handler has returned. *)
Definition close (c : Client) : Result :=
  if _closed c then Done c
  else
    let c := set_closed c in
    match _signalingSocket c with
    | None => Threw c
    | Some _ =>
        let c := perform SocketClose c in
        let c := close_sendTransport c in
        let c := close_recvTransport c in
        let c := dispatch (setRoomState closed) c in
        Done (perform Navigate c)
    end.

(** [producer.close(); store.dispatch(removeProducer(producer.id))]. *)
Definition close_and_remove (id : string) (c : Client) : Client :=
  dispatch (removeProducer id) (perform (ProducerClose id) c).

(** The six blocks of the handler that release the media objects, in the
    order of the source. *)
Definition drop_screenSharingProducer (c : Client) : Client :=
  match _screenSharingProducer (media c) with
  | Some id =>
      let c := close_and_remove id c in
      let m := media c in
      set_media (mkMedia (_micProducer m) (_webcamProducer m) None
                   (_screenSharingAudioProducer m) (_extraVideoProducers m)
                   (_consumers m) (_sendTransport m) (_recvTransport m)) c
  | None => c
  end.

Definition drop_webcamProducer (c : Client) : Client :=
  match _webcamProducer (media c) with
  | Some id =>
      let c := close_and_remove id c in
      let m := media c in
      set_media (mkMedia (_micProducer m) None (_screenSharingProducer m)
                   (_screenSharingAudioProducer m) (_extraVideoProducers m)
                   (_consumers m) (_sendTransport m) (_recvTransport m)) c
  | None => c
  end.

(** The [for (const producer of this._extraVideoProducers.values())] loop
    and [this._extraVideoProducers.clear()]. *)
Definition drop_extraVideoProducers (c : Client) : Client :=
  let c :=
    foldl (fun c id => close_and_remove id c) c
          (_extraVideoProducers (media c)) in
  let m := media c in
  set_media (mkMedia (_micProducer m) (_webcamProducer m)
               (_screenSharingProducer m) (_screenSharingAudioProducer m)
               [] (_consumers m) (_sendTransport m) (_recvTransport m)) c.

Definition drop_micProducer (c : Client) : Client :=
  match _micProducer (media c) with
  | Some id =>
      let c := close_and_remove id c in
      let m := media c in
      set_media (mkMedia None (_webcamProducer m) (_screenSharingProducer m)
                   (_screenSharingAudioProducer m) (_extraVideoProducers m)
                   (_consumers m) (_sendTransport m) (_recvTransport m)) c
  | None => c
  end.

Definition drop_sendTransport (c : Client) : Client :=
  match _sendTransport (media c) with
  | Some _ =>
      let c := close_sendTransport c in
      let m := media c in
      set_media (mkMedia (_micProducer m) (_webcamProducer m)
                   (_screenSharingProducer m) (_screenSharingAudioProducer m)
                   (_extraVideoProducers m) (_consumers m)
                   None (_recvTransport m)) c
  | None => c
  end.

Definition drop_recvTransport (c : Client) : Client :=
  match _recvTransport (media c) with
  | Some _ =>
      let c := close_recvTransport c in
      let m := media c in
      set_media (mkMedia (_micProducer m) (_webcamProducer m)
                   (_screenSharingProducer m) (_screenSharingAudioProducer m)
                   (_extraVideoProducers m) (_consumers m)
                   (_sendTransport m) None) c
  | None => c
  end.

(** The body of the handler after the [io server disconnect] test. *)
Definition teardown (c : Client) : Client :=
  let c := dispatch (notify "socket.reconnecting") c in
  let c := drop_screenSharingProducer c in
  let c := drop_webcamProducer c in
  let c := drop_extraVideoProducers c in
  let c := drop_micProducer c in
  let c := drop_sendTransport c in
  let c := drop_recvTransport c in
  let c := perform SpotlightsClear c in
  let c := dispatch clearPeers c in
  let c := dispatch clearConsumers c in
  let c := dispatch clearSpotlights c in
  dispatch (setRoomState connecting) c.

(** [this._signalingSocket.on('disconnect', (reason) => ...)]. *)
Definition on_disconnect (reason : string) (c : Client) : Result :=
  if _closed c then Done c
  else if String.eqb reason "io server disconnect" then
    let c := dispatch (notify "socket.disconnected") c in
    match close c with
    | Threw c => Threw c
    | Done c => Done (teardown c)
    end
  else Done (teardown c).

(** [this._signalingSocket.on('reconnect_failed', () => ...)]. *)
Definition on_reconnect_failed (c : Client) : Result :=
  close (dispatch (notify "socket.disconnected") c).

(** A client in a room: connected, a mic and a webcam producer, one
    consumer, both transports. *)
Definition joined_client : Client :=
  mkClient false (Some "wss://meeting/?peerId=me&roomId=r1")
    (mkMedia (Some "mic-1") (Some "cam-1") None None [] ["cons-1"]
       (Some (mkTransport "send-1" false)) (Some (mkTransport "recv-1" false)))
    (mkStore connected {["mic-1"; "cam-1"]} {["p1"]} {["cons-1"]} ["p1"])
    [].

(** A client as the constructor leaves it, before [join()]: no signaling
    socket, no transport, no producer; the room state is [new]. *)
Definition constructed_client : Client :=
  mkClient false None (mkMedia None None None None [] [] None None)
    (mkStore new ∅ ∅ ∅ []) [].

(** *** Predicates and sample states of the proofs *)

(** [c'] was reached from [c] by adding effects. *)
Definition extends (c c' : Client) : Prop := effects c `prefix_of` effects c'.

(** The first [close()] of a client that has a socket. *)
Definition first_close (c : Client) : Client :=
  perform Navigate
    (dispatch (setRoomState closed)
       (close_recvTransport
          (close_sendTransport (perform SocketClose (set_closed c))))).

(** [c'] was reached from [c] by closing the producers [ids] and removing
    them from the store, leaving the media objects [m']; nothing else of the
    store has changed. *)
Record torn (ids : list string) (m' : Media) (c c' : Client) : Prop := {
  torn_closed : _closed c' = _closed c;
  torn_media : media c' = m';
  torn_room : room_state (store c') = room_state (store c);
  torn_peers : store_peers (store c') = store_peers (store c);
  torn_consumers : store_consumers (store c') = store_consumers (store c);
  torn_spotlights : store_spotlights (store c') = store_spotlights (store c);
  torn_producers :
    store_producers (store c') = store_producers (store c) ∖ list_to_set ids;
  torn_extends : extends c c';
  torn_calls : forall id, id ∈ ids -> ProducerClose id ∈ effects c'
}.

(** What the two transport blocks leave of the media objects. *)
Definition after_sendTransport (m : Media) : Media :=
  match _sendTransport m with
  | Some t =>
      if transport_closed t then
        mkMedia (_micProducer m) (_webcamProducer m) (_screenSharingProducer m)
          (_screenSharingAudioProducer m) (_extraVideoProducers m)
          (_consumers m) None (_recvTransport m)
      else mkMedia None None None None [] (_consumers m) None (_recvTransport m)
  | None => m
  end.

Definition after_recvTransport (m : Media) : Media :=
  match _recvTransport m with
  | Some t =>
      mkMedia (_micProducer m) (_webcamProducer m) (_screenSharingProducer m)
        (_screenSharingAudioProducer m) (_extraVideoProducers m)
        (if transport_closed t then _consumers m else [])
        (_sendTransport m) None
  | None => m
  end.

(** The producers that the handler closes itself. *)
Definition handled_producers (m : Media) : list string :=
  option_list (_screenSharingProducer m) ++ option_list (_webcamProducer m)
  ++ _extraVideoProducers m ++ option_list (_micProducer m).

(** The media objects after the handler: every field is reset, except that
    the screen-sharing audio producer and the consumers map are only reset
    through the ['transportclose'] of a transport that was still open. *)
Definition media_after_teardown (m : Media) : Media :=
  mkMedia None None None
    (match _sendTransport m with
     | Some t => if transport_closed t then _screenSharingAudioProducer m else None
     | None => _screenSharingAudioProducer m
     end)
    []
    (match _recvTransport m with
     | Some t => if transport_closed t then _consumers m else []
     | None => _consumers m
     end)
    None None.

End Room.

(** ** updateSpotlights (RoomClient.ts, lines 1152-1173), modifyPeerConsumer
    (lines 1955-1997), _pauseConsumer, _resumeConsumer (lines 2029-2081) and
    _closeConsumer (lines 4711-4727) *)

Module Consumers.

(** A mediasoup-client consumer as the Room Client reads it; [peerId] and
    [source] are those of [consumer.appData]. *)
Record Consumer := mkConsumer {
  id : string;
  kind : string;
  peerId : string;
  source : string;
  paused : bool;
  closed : bool
}.

(** The entry of a consumer in the [consumers] slice of the store. *)
Record Entry := mkEntry {
  entry_peerId : string;
  entry_kind : string;
  locallyPaused : bool;
  remotelyPaused : bool
}.

Record Request := mkRequest {
  method : string;
  consumerId : string
}.

(** How [sendRequest] settles: fulfilled, or rejected with an error that
    may carry [notFoundInMediasoupError]. *)
Inductive Reply :=
| Ok
| Failed (notFoundInMediasoupError : bool).

(** The calls that these methods make into [this._spotlights]. *)
Inductive SpotlightsCall :=
| removeVideoConsumer (consumerId : string)
| closePeer (peer : string).

(** [this._consumers] is a JavaScript [Map]: the entries and the keys in
    insertion order, which is the order of [values()].  The requests sent
    to the SFU and the calls made into [this._spotlights] are logged. *)
Record State := mkState {
  _consumers : gmap string Consumer;
  consumer_keys : list string;
  store_consumers : gmap string Entry;
  room_spotlights : list string;
  room_selectedPeers : list string;
  requests : list Request;
  spotlights_calls : list SpotlightsCall
}.

Inductive Originator := local | remote.

Definition set_consumers (m : gmap string Consumer) (st : State) : State :=
  mkState m (consumer_keys st) (store_consumers st) (room_spotlights st)
          (room_selectedPeers st) (requests st) (spotlights_calls st).

Definition set_store (m : gmap string Entry) (st : State) : State :=
  mkState (_consumers st) (consumer_keys st) m (room_spotlights st)
          (room_selectedPeers st) (requests st) (spotlights_calls st).

(** Modelled from the spec: the reducers of the [consumers] and [room]
    slices ([store/slices] is not part of the sources at hand).  A pause or
    resume with originator ['local'] writes [locallyPaused], with ['remote']
    [remotelyPaused], of the entry of that consumer if there is one. *)
Definition setConsumerPaused (consumerId : string) (o : Originator)
    (st : State) : State :=
  set_store
    (alter (fun e =>
              match o with
              | local => mkEntry (entry_peerId e) (entry_kind e) true (remotelyPaused e)
              | remote => mkEntry (entry_peerId e) (entry_kind e) (locallyPaused e) true
              end) consumerId (store_consumers st)) st.

(** Modelled from the spec: [consumersActions.setConsumerResumed] of the
    missing [store/slices], the converse of [setConsumerPaused]. *)
Definition setConsumerResumed (consumerId : string) (o : Originator)
    (st : State) : State :=
  set_store
    (alter (fun e =>
              match o with
              | local => mkEntry (entry_peerId e) (entry_kind e) false (remotelyPaused e)
              | remote => mkEntry (entry_peerId e) (entry_kind e) (locallyPaused e) false
              end) consumerId (store_consumers st)) st.

(** Modelled from the spec: [consumersActions.removeConsumer] of the
    missing [store/slices] drops the entry of that consumer. *)
Definition removeConsumer (consumerId : string) (st : State) : State :=
  set_store (delete consumerId (store_consumers st)) st.

(** Modelled from the spec: [roomActions.set('spotlights', spotlights)] of
    the missing [store/slices] writes the spotlights of the room state. *)
Definition set_spotlights (spotlights : list string) (st : State) : State :=
  mkState (_consumers st) (consumer_keys st) (store_consumers st) spotlights
          (room_selectedPeers st) (requests st) (spotlights_calls st).

(** Modelled from the spec: [roomActions.removeSelectedPeer(peerId)] of
    the missing [store/slices] takes the peer out of the selected peers. *)
Definition removeSelectedPeer (peer : string) (st : State) : State :=
  mkState (_consumers st) (consumer_keys st) (store_consumers st)
          (room_spotlights st)
          (filter (fun p => p <> peer) (room_selectedPeers st)) (requests st)
          (spotlights_calls st).

Section WithSfu.

(** What the SFU answers to the [n]-th request of the run. *)
Variable sfu : nat -> Request -> Reply.

(** The Spotlights object ([features/Spotlights], which is not part of the
    sources at hand) holds the Room Client; according to the specification
    it recomputes the spotlights after a mutation and has [updateSpotlights]
    called.  What it does to the client before a call into it returns is
    left open: [_spotlights n call st] is the state in which the [n]-th call
    into the object returns, when it was made in [st]. *)
Variable _spotlights : nat -> SpotlightsCall -> State -> State.

Definition sendRequest (r : Request) (st : State) : Reply * State :=
  (sfu (length (requests st)) r,
   mkState (_consumers st) (consumer_keys st) (store_consumers st)
           (room_spotlights st) (room_selectedPeers st) (requests st ++ [r])
           (spotlights_calls st)).

(** [this._spotlights.method(argument)]. *)
Definition call_spotlights (call : SpotlightsCall) (st : State) : State :=
  _spotlights (length (spotlights_calls st)) call
    (mkState (_consumers st) (consumer_keys st) (store_consumers st)
             (room_spotlights st) (room_selectedPeers st) (requests st)
             (spotlights_calls st ++ [call])).

(** [_closeConsumer(consumerId)]: the consumer is looked up first, the
    Spotlights object is told in any case, and a consumer that was found is
    then closed, deleted from the map and removed from the store. *)
Definition _closeConsumer (consumerId : string) (st : State) : State :=
  let consumer := _consumers st !! consumerId in
  let st := call_spotlights (removeVideoConsumer consumerId) st in
  match consumer with
  | None => st
  | Some _ =>
      let st :=
        mkState (delete consumerId (_consumers st))
                (filter (fun k => k <> consumerId) (consumer_keys st))
                (store_consumers st) (room_spotlights st)
                (room_selectedPeers st) (requests st) (spotlights_calls st) in
      removeConsumer consumerId st
  end.

(** [consumer.pause()] and [consumer.resume()] on the object in the map. *)
Definition mark_paused (b : bool) (c : Consumer) (st : State) : State :=
  set_consumers
    (alter (fun c => mkConsumer (id c) (kind c) (peerId c) (source c) b (closed c))
           (id c) (_consumers st)) st.

Definition _pauseConsumer (consumer : Consumer) (st : State) : State :=
  if paused consumer || closed consumer then st
  else
    let '(reply, st) := sendRequest (mkRequest "pauseConsumer" (id consumer)) st in
    match reply with
    | Ok => setConsumerPaused (id consumer) local (mark_paused true consumer st)
    | Failed notFound =>
        if notFound then _closeConsumer (id consumer) st else st
    end.

Definition _resumeConsumer (consumer : Consumer) (initial : bool) (st : State)
    : State :=
  if (negb initial && negb (paused consumer)) || closed consumer then st
  else
    let st := mark_paused false consumer st in
    let '(reply, st) := sendRequest (mkRequest "resumeConsumer" (id consumer)) st in
    match reply with
    | Ok => setConsumerResumed (id consumer) local st
    | Failed notFound =>
        if notFound then _closeConsumer (id consumer) st else st
    end.

Definition _startConsumer (consumer : Consumer) (st : State) : State :=
  _resumeConsumer consumer true st.

(** [for (const consumer of this._consumers.values())]: the keys are
    visited in order and each consumer is read from the map when its turn
    comes; one that is no longer there is skipped.  (Consumers are added by
    the ['newConsumer'] notification only, which does not run inside these
    loops.) *)
Definition for_each_consumer (body : Consumer -> State -> State) (st : State)
    : State :=
  foldl (fun st key =>
           match _consumers st !! key with
           | Some consumer => body consumer st
           | None => st
           end) st (consumer_keys st).

(** The body of the loop of [updateSpotlights]. *)
Definition spotlight_visit (spotlights : list string) (consumer : Consumer)
    (st : State) : State :=
  if String.eqb (kind consumer) "video" then
    if bool_decide (peerId consumer ∈ spotlights)
    then _resumeConsumer consumer false st
    else removeSelectedPeer (peerId consumer) (_pauseConsumer consumer st)
  else st.

Definition updateSpotlights (spotlights : list string) (st : State) : State :=
  for_each_consumer (spotlight_visit spotlights) (set_spotlights spotlights st).

(** The body of the loop of [modifyPeerConsumer]. *)
Definition modify_visit (peer type : string) (mute : bool) (consumer : Consumer)
    (st : State) : State :=
  if String.eqb (peerId consumer) peer && String.eqb (source consumer) type
  then if mute then _pauseConsumer consumer st
       else _resumeConsumer consumer false st
  else st.

(** The dispatches of the [set...InProgress] flags concern the [peers]
    slice only and are left out. *)
Definition modifyPeerConsumer (peer type : string) (mute : bool) (st : State)
    : State :=
  for_each_consumer (modify_visit peer type mute) st.

End WithSfu.

(** *** The specification's wording *)

(** Every video consumer of the store is locally paused exactly when its
    peer is not in the spotlights of the room state. *)
Definition spotlight_invariant (st : State) : Prop :=
  forall key e,
    store_consumers st !! key = Some e ->
    entry_kind e = "video" ->
    (locallyPaused e = true <-> entry_peerId e ∉ room_spotlights st).

(** An SFU that accepts every request. *)
Definition obliging : nat -> Request -> Reply := fun _ _ => Ok.

(** A Spotlights object that leaves the client alone while it is called. *)
Definition silent : nat -> SpotlightsCall -> State -> State := fun _ _ st => st.

(** One remote peer with a webcam consumer that is running. *)
Definition one_webcam : State :=
  mkState {["c1" := mkConsumer "c1" "video" "p1" "webcam" false false]}
          ["c1"]
          {["c1" := mkEntry "p1" "video" false false]}
          [] [] [] [].

(** Two remote peers: [p1] with a webcam and a microphone, [p2] with a
    webcam; [p2] is in the spotlights and [p1]'s webcam is paused. *)
Definition two_peers : State :=
  mkState
    (<["c1" := mkConsumer "c1" "video" "p1" "webcam" true false]>
       (<["c2" := mkConsumer "c2" "audio" "p1" "mic" false false]>
          {["c3" := mkConsumer "c3" "video" "p2" "webcam" false false]}))
    ["c1"; "c2"; "c3"]
    (<["c1" := mkEntry "p1" "video" true false]>
       (<["c2" := mkEntry "p1" "audio" false false]>
          {["c3" := mkEntry "p2" "video" false false]}))
    ["p2"] [] [] [].

(** *** Predicates and sample states of the proofs *)

Definition with_paused (b : bool) (c : Consumer) : Consumer :=
  mkConsumer (id c) (kind c) (peerId c) (source c) b (closed c).

Definition with_locallyPaused (b : bool) (e : Entry) : Entry :=
  mkEntry (entry_peerId e) (entry_kind e) b (remotelyPaused e).

(** The state after a pause ([b = true]) or a resume ([b = false]) that the
    SFU accepted. *)
Definition switched (b : bool) (c : Consumer) (st : State) : State :=
  mkState (alter (with_paused b) (id c) (_consumers st)) (consumer_keys st)
          (alter (with_locallyPaused b) (id c) (store_consumers st))
          (room_spotlights st) (room_selectedPeers st)
          (requests st
           ++ [mkRequest (if b then "pauseConsumer" else "resumeConsumer") (id c)])
          (spotlights_calls st).

(** [spotlights.includes(consumer.appData.peerId)]. *)
Definition in_spotlights (spotlights : list string) (c : Consumer) : bool :=
  bool_decide (peerId c ∈ spotlights).

(** The loop invariant of [updateSpotlights]: the store mirrors the open
    video consumers, and those whose key has been visited are paused exactly
    when their peer is outside the spotlights. *)
Definition settled_upto (spotlights visited : list string) (st : State)
    : Prop :=
  (forall key c, _consumers st !! key = Some c -> id c = key)
  /\ (forall key e,
        store_consumers st !! key = Some e -> entry_kind e = "video" ->
        exists c, _consumers st !! key = Some c
                  /\ kind c = "video"
                  /\ peerId c = entry_peerId e
                  /\ closed c = false
                  /\ paused c = locallyPaused e
                  /\ (key ∈ visited ->
                      paused c = negb (in_spotlights spotlights c))).

(** The store mirrors the client's consumers: every video entry belongs to
    an open consumer of the map, listed among its keys, with the same peer
    and the same pause flag. *)
Definition mirrors (st : State) : Prop :=
  (forall key c, _consumers st !! key = Some c ->
                 id c = key /\ key ∈ consumer_keys st)
  /\ (forall key e,
        store_consumers st !! key = Some e -> entry_kind e = "video" ->
        exists c, _consumers st !! key = Some c
                  /\ kind c = "video"
                  /\ peerId c = entry_peerId e
                  /\ closed c = false
                  /\ paused c = locallyPaused e).

(** The peer [p1] is in the spotlights and its webcam is then muted by
    hand. *)
Definition muted_in_spotlight : State :=
  modifyPeerConsumer obliging silent "p1" "webcam" true
    (updateSpotlights obliging silent ["p1"] one_webcam).

End Consumers.

(** ** muteMic, unmuteMic (RoomClient.ts, lines 1083-1143), updateMic
    (lines 1294-1474) and disableMic (lines 4147-4169) *)

Module Mic.

(** The mediasoup-client producer held in [this._micProducer]. *)
Record Producer := mkProducer {
  id : string;
  paused : bool;
  track : string
}.

(** The entry of a producer in the [producers] slice of the store. *)
Record Entry := mkEntry {
  entry_source : string;
  entry_paused : bool;
  entry_track : string
}.

(** Calls that leave the Room Client, in the order they are made. *)
Inductive Effect :=
| LogError (message : string)              (* logger.error(..., error) *)
| Notify (messageId : string)              (* store.dispatch(notifyAction(...)) *)
| EnumerateDevices                         (* navigator.mediaDevices.enumerateDevices() *)
| GetUserMedia (deviceId : option string)  (* navigator.mediaDevices.getUserMedia(...) *)
| Produce (track : string)                 (* this._sendTransport.produce({ track, ... }) *)
| ProducerClose (id : string)              (* this._micProducer.close() *)
| TrackStop (track : string)               (* track.stop() *)
| ApplyConstraints (track : string)        (* track.applyConstraints(...) *)
| Request (method : string) (producerId : string)  (* this.sendRequest(method, { producerId }) *)
| HarkDisconnect                           (* this.disconnectLocalHark() *)
| HarkConnect (track : string).            (* this.connectLocalHark(track) *)

Record State := mkState {
  canProduceAudio : option bool;   (* this._mediasoupDevice.canProduce('audio'); None: no device *)
  _sendTransport : bool;           (* whether this._sendTransport is set *)
  _micProducer : option Producer;
  _audioDevices : list string;     (* the device ids that are keys of this._audioDevices *)
  store_producers : gmap string Entry;
  audioMuted : bool;               (* settings.audioMuted *)
  selectedAudioDevice : option string;  (* settings.selectedAudioDevice *)
  audioInProgress : bool;          (* me.audioInProgress *)
  effects : list Effect;
  _harkStream : option string      (* the track of this._harkStream, if set *)
}.

(** What the browser, the send transport and the SFU answer; each answer
    may depend on the number of calls made so far. *)
Record Env := mkEnv {
  enumerateDevices : nat -> option (list string);
  getUserMedia : nat -> option string -> option (string * string);
  produce : nat -> string -> option Producer;
  applyConstraints : nat -> string -> bool;
  sfu : nat -> string -> string -> bool
}.

(** The argument object of [updateMic], before its defaults. *)
Record Args := mkArgs {
  start : option bool;
  restart : option bool;
  newDeviceId : option string
}.

(** A method returns, or throws, in the state it has reached. *)
Inductive Result :=
| Returned (st : State)
| Threw (message : string) (st : State).

Definition perform (e : Effect) (st : State) : State :=
  mkState (canProduceAudio st) (_sendTransport st) (_micProducer st)
          (_audioDevices st) (store_producers st) (audioMuted st)
          (selectedAudioDevice st) (audioInProgress st) (effects st ++ [e])
          (_harkStream st).

Definition set_micProducer (p : option Producer) (st : State) : State :=
  mkState (canProduceAudio st) (_sendTransport st) p
          (_audioDevices st) (store_producers st) (audioMuted st)
          (selectedAudioDevice st) (audioInProgress st) (effects st)
          (_harkStream st).

Definition set_audioDevices (l : list string) (st : State) : State :=
  mkState (canProduceAudio st) (_sendTransport st) (_micProducer st)
          l (store_producers st) (audioMuted st)
          (selectedAudioDevice st) (audioInProgress st) (effects st)
          (_harkStream st).

Definition set_store_producers (m : gmap string Entry) (st : State) : State :=
  mkState (canProduceAudio st) (_sendTransport st) (_micProducer st)
          (_audioDevices st) m (audioMuted st)
          (selectedAudioDevice st) (audioInProgress st) (effects st)
          (_harkStream st).

Definition set_harkStream (h : option string) (st : State) : State :=
  mkState (canProduceAudio st) (_sendTransport st) (_micProducer st)
          (_audioDevices st) (store_producers st) (audioMuted st)
          (selectedAudioDevice st) (audioInProgress st) (effects st) h.

(** Modelled from the spec: [settingsActions.set('audioMuted', b)] of the
    missing [store/slices] writes that setting. *)
Definition set_audioMuted (b : bool) (st : State) : State :=
  mkState (canProduceAudio st) (_sendTransport st) (_micProducer st)
          (_audioDevices st) (store_producers st) b
          (selectedAudioDevice st) (audioInProgress st) (effects st)
          (_harkStream st).

(** Modelled from the spec: [settingsActions.set('selectedAudioDevice', d)]
    of the missing [store/slices] writes that setting. *)
Definition set_selectedAudioDevice (d : option string) (st : State) : State :=
  mkState (canProduceAudio st) (_sendTransport st) (_micProducer st)
          (_audioDevices st) (store_producers st) (audioMuted st)
          d (audioInProgress st) (effects st)
          (_harkStream st).

(** Modelled from the spec: [meActions.setAudioInProgress(b)] of the
    missing [store/slices] writes the in-progress flag of the microphone. *)
Definition setAudioInProgress (b : bool) (st : State) : State :=
  mkState (canProduceAudio st) (_sendTransport st) (_micProducer st)
          (_audioDevices st) (store_producers st) (audioMuted st)
          (selectedAudioDevice st) b (effects st)
          (_harkStream st).

(** Modelled from the spec: [producersActions.addProducer] of the missing
    [store/slices] enters the producer under its id. *)
Definition addProducer (p : Producer) (st : State) : State :=
  set_store_producers
    (<[id p := mkEntry "mic" (paused p) (track p)]> (store_producers st)) st.

(** Modelled from the spec: [producersActions.removeProducer] of the
    missing [store/slices] drops the entry of that id. *)
Definition removeProducer (producerId : string) (st : State) : State :=
  set_store_producers (delete producerId (store_producers st)) st.

(** Modelled from the spec: [producersActions.setProducerPaused] of the
    missing [store/slices] flags the entry of that id as paused. *)
Definition setProducerPaused (producerId : string) (st : State) : State :=
  set_store_producers
    (alter (fun e => mkEntry (entry_source e) true (entry_track e))
           producerId (store_producers st)) st.

(** Modelled from the spec: [producersActions.setProducerResumed] of the
    missing [store/slices] flags the entry of that id as not paused. *)
Definition setProducerResumed (producerId : string) (st : State) : State :=
  set_store_producers
    (alter (fun e => mkEntry (entry_source e) false (entry_track e))
           producerId (store_producers st)) st.

(** A JavaScript string used as a condition: [null] and [''] are falsy. *)
Definition truthy (s : option string) : bool :=
  match s with
  | Some s => negb (String.eqb s EmptyString)
  | None => false
  end.

Section WithEnv.
Variable env : Env.

(** [await this.sendRequest(method, { producerId })]: whether it was
    fulfilled. *)
Definition sendRequest (method producerId : string) (st : State) : bool * State :=
  (sfu env (length (effects st)) method producerId,
   perform (Request method producerId) st).

(** [producer.pause()] and [producer.resume()] on [this._micProducer]. *)
Definition mark_paused (b : bool) (p : Producer) : Producer :=
  mkProducer (id p) b (track p).

(** [muteMic()] once [this._micProducer] is known to hold [p]. *)
Definition muteMic_producing (p : Producer) (st : State) : State :=
  let st := set_micProducer (Some (mark_paused true p)) st in
  let '(fulfilled, st) := sendRequest "pauseProducer" (id p) st in
  if fulfilled then set_audioMuted true (setProducerPaused (id p) st)
  else perform (Notify "devices.microphoneMuteError")
         (perform (LogError "muteMic()") st).

(** [muteMic()]: without a producer, [this._micProducer.pause()] throws. *)
Definition muteMic (st : State) : Result :=
  match _micProducer st with
  | None => Threw "TypeError" st
  | Some p => Returned (muteMic_producing p st)
  end.

(** The [else] branch of [unmuteMic()]. *)
Definition unmuteMic_producing (p : Producer) (st : State) : State :=
  let st := set_micProducer (Some (mark_paused false p)) st in
  let '(fulfilled, st) := sendRequest "resumeProducer" (id p) st in
  if fulfilled then set_audioMuted false (setProducerResumed (id p) st)
  else perform (Notify "devices.microphoneUnMuteError")
         (perform (LogError "unmuteMic()") st).

(** The track that [track.clone()] gives. *)
Definition clone (track : string) : string := String.append track "'".

(** [disconnectLocalHark()] (lines 1175-1188): the track of the hark
    stream and hark itself are stopped, which is recorded as one effect, and
    the stream is forgotten. *)
Definition disconnectLocalHark (st : State) : State :=
  set_harkStream None (perform HarkDisconnect st).

(** [connectLocalHark(track)] (lines 1190-1266): a new stream around a
    clone of the track, with hark listening to it, which is recorded as one
    effect. *)
Definition connectLocalHark (track : string) (st : State) : State :=
  set_harkStream (Some (clone track)) (perform (HarkConnect track) st).

Definition disableMic (st : State) : State :=
  match _micProducer st with
  | None => st
  | Some p =>
      let st := setAudioInProgress true st in
      let st := perform (ProducerClose (id p)) st in
      let st := removeProducer (id p) st in
      let '(fulfilled, st) := sendRequest "closeProducer" (id p) st in
      let st := if fulfilled then st else perform (LogError "disableMic()") st in
      let st := set_micProducer None st in
      setAudioInProgress false st
  end.

Definition _updateAudioDevices (st : State) : State :=
  let st := set_audioDevices [] st in
  let answer := enumerateDevices env (length (effects st)) in
  let st := perform EnumerateDevices st in
  match answer with
  | Some devices => set_audioDevices devices st
  | None => perform (LogError "_updateAudioDevices()") st
  end.

(** [_getAudioDeviceId()]: the selected device if it is still there, else
    the first one, else [null]. *)
Definition _getAudioDeviceId (st : State) : option string * State :=
  let st := _updateAudioDevices st in
  let chosen :=
    match selectedAudioDevice st with
    | Some d =>
        if truthy (Some d) && bool_decide (d ∈ _audioDevices st) then Some d
        else head (_audioDevices st)
    | None => head (_audioDevices st)
    end in
  (chosen, st).

(** The [catch] block of [updateMic] and the dispatch that follows the
    [try]; [track] is the local variable of that name. *)
Definition updateMic_catch (message : string) (track : option string)
    (st : State) : State :=
  let st := perform (LogError message) st in
  let st := perform (Notify "devices.microphoneError") st in
  let st := match track with
            | Some t => perform (TrackStop t) st
            | None => st
            end in
  setAudioInProgress false st.

(** The branch [(restart && this._micProducer) || start] of [updateMic].
    The calls [this.muteMic()] and [this.unmuteMic()] at its end are not
    awaited; they are run here to their end, and since [_micProducer] has
    just been assigned, [unmuteMic] takes its [else] branch. *)
Definition updateMic_produce (deviceId : option string) (st : State) : State :=
  let st := disconnectLocalHark st in
  let muted := match _micProducer st with
               | Some p => paused p
               | None => false
               end in
  let st := disableMic st in
  let stream := getUserMedia env (length (effects st)) deviceId in
  let st := perform (GetUserMedia deviceId) st in
  match stream with
  | None => updateMic_catch "getUserMedia" None st
  | Some (track, trackDeviceId) =>
      let st := set_selectedAudioDevice (Some trackDeviceId) st in
      if negb (_sendTransport st) then updateMic_catch "TypeError" (Some track) st
      else
        let produced := produce env (length (effects st)) track in
        let st := perform (Produce track) st in
        match produced with
        | None => updateMic_catch "produce" (Some track) st
        | Some p =>
            let st := set_micProducer (Some p) st in
            let st := addProducer p st in
            let st := connectLocalHark track st in
            let st := if muted then muteMic_producing p st
                      else unmuteMic_producing p st in
            setAudioInProgress false (_updateAudioDevices st)
        end
  end.

(** [updateMic({ start = false, restart = true, newDeviceId = null })].
    Without a restart the constraints are applied again to the track of the
    producer and then, if there is a hark stream, to its track; in the
    [catch] block [track] is the track of the producer in either case. *)
Definition updateMic (args : Args) (st : State) : State :=
  let start := default false (start args) in
  let restart := default true (restart args) in
  match canProduceAudio st with
  | None => updateMic_catch "TypeError" None st
  | Some false => updateMic_catch "cannot produce audio" None st
  | Some true =>
      if truthy (newDeviceId args) && negb restart
      then updateMic_catch "changing device requires restart" None st
      else
        let st := if truthy (newDeviceId args)
                  then set_selectedAudioDevice (newDeviceId args) st
                  else st in
        let st := setAudioInProgress true st in
        let '(deviceId, st) := _getAudioDeviceId st in
        match deviceId with
        | None => updateMic_catch "no audio devices" None st
        | Some _ =>
            if (restart && bool_decide (is_Some (_micProducer st))) || start
            then updateMic_produce deviceId st
            else
              match _micProducer st with
              | Some p =>
                  let fulfilled :=
                    applyConstraints env (length (effects st)) (track p) in
                  let st := perform (ApplyConstraints (track p)) st in
                  if fulfilled
                  then
                    match _harkStream st with
                    | Some harkTrack =>
                        let fulfilled :=
                          applyConstraints env (length (effects st)) harkTrack in
                        let st := perform (ApplyConstraints harkTrack) st in
                        if fulfilled
                        then setAudioInProgress false (_updateAudioDevices st)
                        else updateMic_catch "applyConstraints"
                               (Some (track p)) st
                    | None => setAudioInProgress false (_updateAudioDevices st)
                    end
                  else updateMic_catch "applyConstraints" (Some (track p)) st
              | None => setAudioInProgress false (_updateAudioDevices st)
              end
        end
  end.

(** [unmuteMic()]; the call [this.updateMic({ start: true })] is not
    awaited and is run here to its end. *)
Definition unmuteMic (st : State) : State :=
  match _micProducer st with
  | None => updateMic (mkArgs (Some true) None None) st
  | Some p => unmuteMic_producing p st
  end.

End WithEnv.

(** An environment in which everything succeeds: one microphone, whose
    next track is ["track-1"] and whose next producer is ["mic-2"]. *)
Definition friendly : Env :=
  mkEnv (fun _ => Some ["default"])
        (fun _ _ => Some ("track-1", "default"))
        (fun _ track => Some (mkProducer "mic-2" false track))
        (fun _ _ => true)
        (fun _ _ _ => true).

(** A client that is producing its microphone, with hark listening. *)
Definition producing : State :=
  mkState (Some true) true (Some (mkProducer "mic-1" false "track-0"))
          ["default"] {["mic-1" := mkEntry "mic" false "track-0"]}
          false (Some "default") false [] (Some (clone "track-0")).

(** *** Predicates and sample states of the proofs *)

(** Effects that acquire media or register a producer. *)
Definition acquires (e : Effect) : bool :=
  match e with
  | GetUserMedia _ | Produce _ => true
  | _ => false
  end.

(** Effects of [disableMic]. *)
Definition disables (e : Effect) : bool :=
  match e with
  | ProducerClose _ | Request "closeProducer" _ => true
  | _ => false
  end.

(** The state in which [updateMic] leaves the client when its [try] block
    throws [message] before [track] is assigned. *)
Definition refused (message : string) (st : State) : State :=
  setAudioInProgress false
    (perform (Notify "devices.microphoneError") (perform (LogError message) st)).

(** A client whose device cannot produce audio and that has no mic. *)
Definition cannot_produce : State :=
  mkState (Some false) true None ["default"] ∅ false (Some "default") false []
          None.

End Mic.

(** * Further parts of the Room Client *)

(** ** The store's view of a consumer's preferred layers *)

Module LayersStore.
Import Layers.

(** Modelled from the spec: [consumersActions.setConsumerPreferredLayers]
    of the missing [store/slices], which [setConsumerPreferredLayers]
    (RoomClient.ts, lines 2140-2172) dispatches once the SFU has accepted the
    request; it writes the two preferred layers of that consumer. *)
Definition setConsumerPreferredLayers (request : LayersRequest)
    (consumer : Consumer) : Consumer :=
  if String.eqb (consumerId request) (id consumer) then
    mkConsumer (id consumer) (type consumer)
               (spatialLayer request) (temporalLayer request)
               (temporalLayers consumer) (width consumer) (height consumer)
               (resolutionScalings consumer)
  else consumer.

(** The consumer of the store after [adaptConsumerPreferredLayers] and an
    SFU that accepts what it is asked. *)
Definition adapted (configured : option Q) (consumer : Consumer)
    (viewportWidth viewportHeight : Q) : Consumer :=
  match adaptConsumerPreferredLayers configured consumer
          viewportWidth viewportHeight with
  | Some request => setConsumerPreferredLayers request consumer
  | None => consumer
  end.

End LayersStore.

(** ** The ICE restart controller over several failures *)

Module IceMore.
Import Ice.



End IceMore.

(** ** The ['peerClosed'] notification (RoomClient.ts, lines 3035-3049) *)

Module ConsumersMore.
Import Consumers.

Section WithSpotlights.

(** The Spotlights object, as in [Consumers]. *)
Variable _spotlights : nat -> SpotlightsCall -> State -> State.

(** The body of the loop of the ['peerClosed'] notification. *)
Definition peerClosed_visit (peer : string) (consumer : Consumer) (st : State)
    : State :=
  if String.eqb peer (peerId consumer)
  then _closeConsumer _spotlights (id consumer) st
  else st.

(** The ['peerClosed'] notification: the consumers of the peer are closed
    and the Spotlights object is told that the peer has left.  The dispatch
    of [peersActions.removePeer] that follows concerns the [peers] slice and
    is left out. *)
Definition on_peerClosed (peer : string) (st : State) : State :=
  call_spotlights _spotlights (closePeer peer)
    (for_each_consumer (peerClosed_visit peer) st).

End WithSpotlights.

(** *** Predicates and sample states of the proofs *)

(** Every consumer sits in the map under its own id. *)
Definition keyed (st : State) : Prop :=
  forall key c, _consumers st !! key = Some c -> id c = key.

(** Every key of the map is among the keys in insertion order. *)
Definition listed (st : State) : Prop :=
  forall key, is_Some (_consumers st !! key) -> key ∈ consumer_keys st.

(** The loop of [for_each_consumer] over the keys that are left. *)
Definition visit_keys (body : Consumer -> State -> State) (keys : list string)
    (st : State) : State :=
  foldl (fun st key =>
           match _consumers st !! key with
           | Some consumer => body consumer st
           | None => st
           end) st keys.

(** The consumer and the store entry under [key] are the same in both
    states. *)
Definition same_at (key : string) (st st' : State) : Prop :=
  _consumers st' !! key = _consumers st !! key
  /\ store_consumers st' !! key = store_consumers st !! key.

(** The state once a request has been sent. *)
Definition sent (r : Request) (st : State) : State :=
  mkState (_consumers st) (consumer_keys st) (store_consumers st)
          (room_spotlights st) (room_selectedPeers st) (requests st ++ [r])
          (spotlights_calls st).

(** Whatever is in [st'] was in [st]: every consumer of the map of [st']
    is under the same key in [st], with the same id and peer, and every
    entry of the store of [st'] has one in [st]. *)
Definition stems_from (st st' : State) : Prop :=
  (forall key c, _consumers st' !! key = Some c ->
     exists c0, _consumers st !! key = Some c0
                /\ id c0 = id c /\ peerId c0 = peerId c)
  /\ (forall key, is_Some (store_consumers st' !! key) ->
        is_Some (store_consumers st !! key)).

(** A Spotlights object that, while it is called, adds no consumer and no
    store entry and leaves the id and the peer of the consumers alone.  This
    is so when all it does with the Room Client is to have
    [updateSpotlights] called, which pauses, resumes or closes consumers. *)
Definition adds_nothing (_spotlights : nat -> SpotlightsCall -> State -> State)
    : Prop :=
  forall n call st, stems_from st (_spotlights n call st).

(** Every entry of the store has its consumer in the map. *)
Definition backed (st : State) : Prop :=
  forall key, is_Some (store_consumers st !! key) ->
              is_Some (_consumers st !! key).

(** A Spotlights object that, while it is called, does not separate the
    store from the map: it removes no consumer whose entry it leaves in the
    store.  This is so when all it does with the Room Client is to have
    [updateSpotlights] called, whose [_closeConsumer] removes both. *)
Definition keeps_backed (_spotlights : nat -> SpotlightsCall -> State -> State)
    : Prop :=
  forall n call st, backed st -> backed (_spotlights n call st).

(** A Spotlights object that, told that a peer has left, has the
    spotlights of the room state set to what they were without that peer. *)
Definition dropping_peer : nat -> SpotlightsCall -> State -> State :=
  fun _ call st =>
    match call with
    | closePeer peer =>
        set_spotlights (filter (fun p => p <> peer) (room_spotlights st)) st
    | removeVideoConsumer _ => st
    end.

(** An SFU that rejects every request, the consumer still being known to
    it. *)
Definition refusing : nat -> Request -> Reply := fun _ _ => Failed false.

(** The SFU never answers that it does not know the consumer
    ([notFoundInMediasoupError]). *)
Definition knows_consumers (sfu : nat -> Request -> Reply) : Prop :=
  forall n r, sfu n r <> Failed true.

End ConsumersMore.

(** ** The ['reconnect'] handler of the signaling socket (RoomClient.ts,
    lines 2513-2529) *)

Module RoomMore.
Import Room.

(** [this._signalingSocket.on('reconnect', (attemptNumber) => ...)]. *)
Definition on_reconnect (c : Client) : Client :=
  dispatch (setRoomState connected) (dispatch (notify "socket.reconnected") c).

(** What the handlers of ['reconnect'] and of a transient ['disconnect']
    do when there is no media object left to release. *)
Definition reconnect_then_lost : list Effect :=
  [Dispatch (notify "socket.reconnected"); Dispatch (setRoomState connected);
   Dispatch (notify "socket.reconnecting"); SpotlightsClear;
   Dispatch clearPeers; Dispatch clearConsumers; Dispatch clearSpotlights;
   Dispatch (setRoomState connecting)].

End RoomMore.

(** ** The microphone when something goes wrong *)

Module MicMore.
Import Mic.

(** A client that is producing its microphone, muted. *)
Definition producing_muted : State :=
  mkState (Some true) true (Some (mkProducer "mic-1" true "track-0"))
          ["default"] {["mic-1" := mkEntry "mic" true "track-0"]}
          true (Some "default") false [] (Some (clone "track-0")).

(** The browser hands out a track but the send transport refuses to
    produce it, and the SFU rejects every request. *)
Definition no_produce : Env :=
  mkEnv (fun _ => Some ["default"])
        (fun _ _ => Some ("track-1", "default"))
        (fun _ _ => None)
        (fun _ _ => true)
        (fun _ _ _ => false).

(** The track of the microphone rejects new constraints. *)
Definition no_constraints : Env :=
  mkEnv (fun _ => Some ["default"])
        (fun _ _ => Some ("track-1", "default"))
        (fun _ track => Some (mkProducer "mic-2" false track))
        (fun _ _ => false)
        (fun _ _ _ => true).

(** The track of the microphone ["track-0"] accepts new constraints, every
    other track, such as its clone in the hark stream, rejects them. *)
Definition no_hark_constraints : Env :=
  mkEnv (fun _ => Some ["default"])
        (fun _ _ => Some ("track-1", "default"))
        (fun _ track => Some (mkProducer "mic-2" false track))
        (fun _ track => String.eqb track "track-0")
        (fun _ _ _ => true).

(** An [applyConstraints] of [updateMic({ restart: false })] is rejected:
    that on the track of the producer, or, after that one has been accepted,
    that on the track of the hark stream. *)
Definition rejects_constraints (env : Env) (st : State) (p : Producer) : Prop :=
  (forall n, applyConstraints env n (track p) = false)
  \/ (exists harkTrack,
        _harkStream st = Some harkTrack
        /\ (forall n, applyConstraints env n (track p) = true)
        /\ (forall n, applyConstraints env n harkTrack = false)).

(** The browser always lists at least one audio input. *)
Definition has_devices (env : Env) : Prop :=
  forall n, exists device devices,
    enumerateDevices env n = Some (device :: devices).

End MicMore.

(** ** Voice activity on the local microphone: the ['speaking'] and
    ['stopped_speaking'] handlers of connectLocalHark (RoomClient.ts, lines
    1239-1265) *)

Module Hark.

Record State := mkState {
  voiceActivatedUnmute : bool;            (* settings.voiceActivatedUnmute *)
  autoMuted : bool;                       (* me.autoMuted *)
  speaking : bool;                        (* me.speaking *)
  _micProducer : option Mic.Producer
}.

Inductive Event := Speaking | StoppedSpeaking.

(** Modelled from the spec: [meActions.setSpeaking] and
    [meActions.setAutoMuted] of the missing [store/slices] write the flag of
    their name. *)
Definition setSpeaking (b : bool) (st : State) : State :=
  mkState (voiceActivatedUnmute st) (autoMuted st) b (_micProducer st).

Definition setAutoMuted (b : bool) (st : State) : State :=
  mkState (voiceActivatedUnmute st) b (speaking st) (_micProducer st).

Definition set_micProducer (p : option Mic.Producer) (st : State) : State :=
  mkState (voiceActivatedUnmute st) (autoMuted st) (speaking st) p.

(** [this._hark.on('speaking', () => ...)]. *)
Definition on_speaking (st : State) : State :=
  let st := setSpeaking true st in
  let st :=
    match _micProducer st with
    | Some p =>
        if (voiceActivatedUnmute st || autoMuted st) && Mic.paused p
        then set_micProducer (Some (Mic.mark_paused false p)) st
        else st
    | None => st
    end in
  setAutoMuted false st.

(** [this._hark.on('stopped_speaking', () => ...)]. *)
Definition on_stopped_speaking (st : State) : State :=
  let st := setSpeaking false st in
  match _micProducer st with
  | Some p =>
      if voiceActivatedUnmute st && negb (Mic.paused p)
      then setAutoMuted true
             (set_micProducer (Some (Mic.mark_paused true p)) st)
      else st
  | None => st
  end.

Definition handle (e : Event) (st : State) : State :=
  match e with
  | Speaking => on_speaking st
  | StoppedSpeaking => on_stopped_speaking st
  end.

(** The events of hark, handled in the order they come. *)
Definition run (events : list Event) (st : State) : State :=
  foldl (fun st e => handle e st) st events.

(** A microphone that the user has muted, with voice activation on or
    off. *)
Definition muted_by_hand (voiceActivated : bool) : State :=
  mkState voiceActivated false false
          (Some (Mic.mkProducer "mic-1" true "track-0")).

End Hark.

(** ** Notification sounds: the alerts set up by the constructor
    (RoomClient.ts, lines 353-365) and _soundNotification (lines 795-822) *)

Module Sound.

(** An entry of [this._soundAlerts]; a field that was never assigned is
    [undefined].  Times are those of [Date.now()], in milliseconds, and so
    are the delays. *)
Record Alert := mkAlert {
  last : option Z;
  delay : option Z
}.

(** An entry of [config.notificationSounds]. *)
Record SoundConfig := mkSoundConfig {
  play : option string;
  config_delay : option Z
}.

Record State := mkState {
  notificationSounds : bool;              (* settings.notificationSounds *)
  _soundAlerts : gmap string Alert;
  played : list (string * Z)              (* soundAlert.audio.play(), by alert *)
}.

Inductive Result :=
| Returned (st : State)
| Threw (st : State).

Definition state_of (r : Result) : State :=
  match r with Returned st | Threw st => st end.

(** The loop of the constructor over [Object.entries(config.notificationSounds)];
    [v.delay ? v.delay : 0] turns a missing delay into [0]. *)
Definition constructor_soundAlerts
    (config : list (string * option SoundConfig)) : gmap string Alert :=
  foldl (fun alerts '(k, v) =>
           match v with
           | Some v =>
               match play v with
               | Some _ =>
                   <[k := mkAlert None (Some (default 0%Z (config_delay v)))]>
                     alerts
               | None => alerts
               end
           | None => alerts
           end)
        {["default" := mkAlert None None]} config.

(** [a < b] on numbers of which [b] may be [undefined]: the comparison with
    NaN is false. *)
Definition js_lt (a : Z) (b : option Z) : bool :=
  match b with
  | Some b => (a <? b)%Z
  | None => false
  end.

(** [_soundNotification(type = 'default')] at the time [now]. *)
Definition _soundNotification (type : option string) (now : Z) (st : State)
    : Result :=
  if notificationSounds st then
    let type := default "default" type in
    let key := match _soundAlerts st !! type with
               | None => "default"
               | Some _ => type
               end in
    match _soundAlerts st !! key with
    | None => Threw st
    | Some soundAlert =>
        if match last soundAlert with
           | Some l => js_lt (now - l) (delay soundAlert)
           | None => false
           end
        then Returned st
        else
          Returned
            (mkState (notificationSounds st)
               (<[key := mkAlert (Some now) (delay soundAlert)]>
                  (_soundAlerts st))
               (played st ++ [(key, now)]))
    end
  else Returned st.

(** Notifications coming in one after the other, each with its type and
    the time at which it is handled. *)
Definition run (events : list (option string * Z)) (st : State) : State :=
  foldl (fun st '(type, now) => state_of (_soundNotification type now st))
        st events.

(** The client as the constructor leaves it. *)
Definition constructed (sounds : bool)
    (config : list (string * option SoundConfig)) : State :=
  mkState sounds (constructor_soundAlerts config) [].

(** The times at which the alert [key] was played. *)
Definition times_of (key : string) (st : State) : list Z :=
  map snd (filter (fun p => p.1 = key) (played st)).

(** Each time of the list is at least [d] after the one before. *)
Fixpoint spaced (d : Z) (times : list Z) : Prop :=
  match times with
  | t1 :: (t2 :: _) as rest => (d <= t2 - t1)%Z /\ spaced d rest
  | _ => True
  end.

(** The alert [key] has the delay [d], its [last] is the time it was last
    played, and its plays are at least [d] apart. *)
Definition throttled (key : string) (d : Z) (st : State) : Prop :=
  (exists soundAlert,
     _soundAlerts st !! key = Some soundAlert
     /\ delay soundAlert = Some d
     /\ forall t, list.last (times_of key st) = Some t ->
                  last soundAlert = Some t)
  /\ spaced d (times_of key st).

(** The built-in alert is in place, without a delay, and the other alerts
    are those of [st0]. *)
Definition builtin_only (st0 st : State) : Prop :=
  notificationSounds st = true
  /\ (exists l, _soundAlerts st !! "default" = Some (mkAlert l None))
  /\ forall key, key <> "default" ->
       _soundAlerts st !! key = _soundAlerts st0 !! key.

(** A notification without a type, or of a type for which no alert has been
    set up. *)
Definition without_alert (st : State) (event : option string * Z) : Prop :=
  match event.1 with
  | None => True
  | Some type => _soundAlerts st !! type = None
  end.

(** A configuration with a sound for chat messages, at most one every two
    seconds. *)
Definition chat_sound : list (string * option SoundConfig) :=
  [("chatMessage", Some (mkSoundConfig (Some "/sounds/chat.mp3") (Some 2000%Z)))].

End Sound.

(** ** _havePermission (RoomClient.ts, lines 4669-4709) *)

Module Permissions.

(** What the method reads in the store: [room.roomPermissions], from the
    name of a permission to the ids of the roles that hold it,
    [room.allowWhenRoleMissing], the roles of the user and those of each
    peer. *)
Record State := mkState {
  roomPermissions : option (gmap string (list Z));
  allowWhenRoleMissing : option (list string);
  roles : list Z;
  peers : list (list Z)
}.

(** The method returns a boolean, or throws (a TypeError when
    [roomPermissions[permission]] is [undefined] and is called upon). *)
Inductive Outcome :=
| Returned (b : bool)
| Threw.

(** [roles.some((roleId) => roomPermissions[permission].some(
    (permissionRole) => roleId === permissionRole.id))]: the inner array is
    only touched when there is a role to look at. *)
Definition some_role (entry : option (list Z)) (roles : list Z)
    : option bool :=
  match roles with
  | [] => Some false
  | _ :: _ =>
      match entry with
      | None => None
      | Some ids => Some (existsb (fun r => existsb (Z.eqb r) ids) roles)
      end
  end.

(** [peers.filter((peer) => peer.roles.some(...)).length === 0]. *)
Fixpoint no_peer_permitted (entry : option (list Z)) (peers : list (list Z))
    : option bool :=
  match peers with
  | [] => Some true
  | peer :: peers =>
      match some_role entry peer with
      | None => None
      | Some b =>
          match no_peer_permitted entry peers with
          | None => None
          | Some rest => Some (negb b && rest)
          end
      end
  end.

Definition _havePermission (permission : string) (st : State) : Outcome :=
  match roomPermissions st with
  | None => Returned false
  | Some perms =>
      let entry := perms !! permission in
      match some_role entry (roles st) with
      | None => Threw
      | Some true => Returned true
      | Some false =>
          match allowWhenRoleMissing st with
          | None => Returned false
          | Some allowed =>
              if bool_decide (permission ∈ allowed) then
                match no_peer_permitted entry (peers st) with
                | None => Threw
                | Some b => Returned b
                end
              else Returned false
          end
      end
  end.

(** A room where moderators (role 1) may lock the room and where locking
    is allowed to all as long as no moderator is present. *)
Definition unmoderated : State :=
  mkState (Some {["MODERATE_ROOM" := [1%Z]]}) (Some ["MODERATE_ROOM"])
          [2%Z] [[2%Z]; []].

End Permissions.

(** ** disableScreenSharing (RoomClient.ts, lines 4447-4488) *)

Module ScreenSharing.

Inductive Effect :=
| ProducerClose (id : string)       (* producer.close() *)
| Request (method : string) (producerId : string)
| LogError (message : string)
| ScreenSharingStop.                (* this._screenSharing.stop() *)

Record State := mkState {
  _screenSharingProducer : option string;
  _screenSharingAudioProducer : option string;
  store_producers : gset string;
  screenSharingInProgress : bool;       (* me.screenSharingInProgress *)
  effects : list Effect
}.

Definition perform (e : Effect) (st : State) : State :=
  mkState (_screenSharingProducer st) (_screenSharingAudioProducer st)
          (store_producers st) (screenSharingInProgress st) (effects st ++ [e]).

(** Modelled from the spec: [meActions.setScreenSharingInProgress] and
    [producersActions.removeProducer] of the missing [store/slices] write
    the flag and drop the producer of that id. *)
Definition setScreenSharingInProgress (b : bool) (st : State) : State :=
  mkState (_screenSharingProducer st) (_screenSharingAudioProducer st)
          (store_producers st) b (effects st).

Definition removeProducer (producerId : string) (st : State) : State :=
  mkState (_screenSharingProducer st) (_screenSharingAudioProducer st)
          (store_producers st ∖ {[producerId]}) (screenSharingInProgress st)
          (effects st).

Definition forget_producers (st : State) : State :=
  mkState None None (store_producers st) (screenSharingInProgress st)
          (effects st).

Section WithSfu.

(** Whether the SFU fulfils the request made after [n] effects. *)
Variable sfu : nat -> string -> string -> bool.

Definition sendRequest (method producerId : string) (st : State)
    : bool * State :=
  (sfu (length (effects st)) method producerId,
   perform (Request method producerId) st).

(** The [try] block: the second request is only made once the first has
    been fulfilled; a rejection is logged. *)
Definition close_on_sfu (video : string) (audio : option string) (st : State)
    : State :=
  let '(fulfilled, st) := sendRequest "closeProducer" video st in
  if fulfilled then
    match audio with
    | Some a =>
        let '(fulfilled, st) := sendRequest "closeProducer" a st in
        if fulfilled then st else perform (LogError "disableScreenSharing()") st
    | None => st
    end
  else perform (LogError "disableScreenSharing()") st.

Definition disableScreenSharing (st : State) : State :=
  match _screenSharingProducer st with
  | None => st
  | Some video =>
      let st := setScreenSharingInProgress true st in
      let st := perform (ProducerClose video) st in
      let audio := _screenSharingAudioProducer st in
      let st := match audio with
                | Some a => removeProducer a (perform (ProducerClose a) st)
                | None => st
                end in
      let st := removeProducer video st in
      let st := close_on_sfu video audio st in
      let st := forget_producers st in
      let st := perform ScreenSharingStop st in
      setScreenSharingInProgress false st
  end.

End WithSfu.

(** The producers that the SFU was asked to close. *)
Definition close_requests (effects : list Effect) : list string :=
  omap (fun e => match e with
                 | Request "closeProducer" id => Some id
                 | _ => None
                 end) effects.

(** A screen is shared together with its sound. *)
Definition sharing_with_sound : State :=
  mkState (Some "screen-1") (Some "screen-audio-1")
          {["screen-1"; "screen-audio-1"; "mic-1"]} false [].

End ScreenSharing.

(** * Properties *)

(** ** Resolution scalings *)

Module ScalingsFacts.
Import Scalings.

Lemma foldl_push {A B} (f : B -> A) (l : list B) (acc : list A) :
  foldl (fun acc i => push acc (f i)) acc l = acc ++ map f l.
Proof.
  revert acc; induction l as [|b l IH]; intros acc; simpl.
  - by rewrite app_nil_r.
  - rewrite IH. unfold push. by rewrite <- app_assoc.
Qed.

Lemma svc_loop_ladder n : svc_loop n = halving_ladder n.
Proof.
  unfold svc_loop, halving_ladder. rewrite foldl_push. simpl.
  apply map_ext. intros i. f_equal. lia.
Qed.

Lemma simulcast_pass1_gen encodings defined acc :
  foldl (fun '(defined, acc) encoding =>
           match scaleResolutionDownBy encoding with
           | Some s => (true, push acc (max1 s))
           | None => (defined, push acc 1%Q)
           end) (defined, acc) encodings
  = (defined || existsb defines_scale encodings, acc ++ map clamped encodings).
Proof.
  revert defined acc; induction encodings as [|e l IH]; intros defined acc; simpl.
  - by rewrite orb_false_r, app_nil_r.
  - unfold defines_scale at 1.
    destruct (scaleResolutionDownBy e) as [s|] eqn:E; rewrite IH; unfold push;
      rewrite <- app_assoc; simpl; unfold clamped at 2; rewrite E;
      f_equal.
    by rewrite orb_true_r.
Qed.

Lemma simulcast_pass1_eq encodings :
  simulcast_pass1 encodings
  = (existsb defines_scale encodings, map clamped encodings).
Proof. unfold simulcast_pass1. by rewrite simulcast_pass1_gen. Qed.

Lemma overwrite_lookup (f : nat -> Q) k : forall (l : list Q) j,
  foldl (fun acc index => <[index := f index]> acc) l (seq 0 k) !! j
  = if decide (j < k /\ j < length l)%nat then Some (f j) else l !! j.
Proof.
  induction k as [|k IH]; intros l j.
  - destruct (decide _) as [H|H]; [lia | done].
  - rewrite seq_S, foldl_app. cbn [foldl Nat.add].
    destruct (decide (j = k)) as [->|Hne].
    + destruct (decide (k < S k /\ k < length l)%nat) as [Hk|Hk].
      * apply list_lookup_insert_eq.
        clear IH. destruct Hk as [_ Hk]. revert l Hk. generalize (seq 0 k).
        intros idx; induction idx as [|i idx IHi]; intros l Hk; simpl; [lia|].
        apply IHi. rewrite length_insert. lia.
      * rewrite list_insert_ge.
        -- rewrite IH. destruct (decide _); [lia | done].
        -- clear IH. assert (length l <= k)%nat as Hl by lia. clear Hk.
           revert l Hl. generalize (seq 0 k).
           intros idx; induction idx as [|i idx IHi]; intros l Hl; simpl; [lia|].
           apply IHi. rewrite length_insert. lia.
    + rewrite list_lookup_insert_ne by done. rewrite IH.
      destruct (decide (j < k /\ j < length l)%nat),
               (decide (j < S k /\ j < length l)%nat); try done; lia.
Qed.

Lemma simulcast_pass2_ladder (l : list Q) :
  simulcast_pass2 (length l) l = halving_ladder (length l).
Proof.
  unfold simulcast_pass2, halving_ladder. apply list_eq. intros j.
  rewrite (overwrite_lookup (fun i => pow2 (Z.of_nat (length l) - Z.of_nat i - 1))).
  rewrite list_lookup_fmap.
  destruct (decide (j < length l)%nat) as [Hj|Hj].
  - rewrite decide_True by lia.
    rewrite lookup_seq_lt by done. simpl. do 2 f_equal. lia.
  - rewrite decide_False by lia.
    rewrite lookup_seq_ge by lia. simpl. apply lookup_ge_None. lia.
Qed.

Lemma max1_Qmax s : (max1 s == Qmax 1 s)%Q.
Proof.
  unfold max1. destruct (Qle_bool s 1) eqn:E.
  - apply Qle_bool_iff in E. symmetry. by apply Q.max_l.
  - assert (~ (s <= 1)%Q) as H by (rewrite <- Qle_bool_iff; congruence).
    symmetry. apply Q.max_r. apply Qlt_le_weak. by apply Qnot_le_lt.
Qed.

Lemma Forall2_Qeq_refl (l : list Q) : Forall2 Qeq l l.
Proof. induction l; constructor; [reflexivity | done]. Qed.

Lemma getResolutionScalings_refines parse encodings :
  Forall2 Qeq (getResolutionScalings parse encodings) (spec_scalings parse encodings).
Proof.
  unfold getResolutionScalings, spec_scalings.
  destruct encodings as [|e0 [|e1 rest]].
  - simpl. constructor.
  - simpl. rewrite svc_loop_ladder. apply Forall2_Qeq_refl.
  - remember (e0 :: e1 :: rest) as encs eqn:Hencs.
    assert (Nat.eqb (length encs) 1 = false) as -> by (subst; done).
    rewrite simulcast_pass1_eq.
    destruct (existsb defines_scale encs); simpl.
    + clear Hencs. induction encs as [|e l IH]; simpl; constructor; [|done].
      unfold clamped. destruct (scaleResolutionDownBy e); [apply max1_Qmax | reflexivity].
    + replace (length encs) with (length (map clamped encs)) at 1
        by apply length_map.
      rewrite simulcast_pass2_ladder, length_map. apply Forall2_Qeq_refl.
Qed.

(** C6. [getResolutionScalings] computes what the specification words say:
    for one encoding the ladder [2^(L-1) .. 2^0] of the parsed spatial
    layers, otherwise [max(1, scaleResolutionDownBy)] per encoding with
    undefined entries at 1 when some encoding defines a scale, and the
    ladder [2^(N-1) .. 2^0] when none does; with the three examples. *)
Theorem getResolutionScalings_spec
    (parse : option string -> ScalabilityMode) :
  (forall encodings,
     Forall2 Qeq (getResolutionScalings parse encodings)
                 (spec_scalings parse encodings))
  /\ (forall e,
        getResolutionScalings parse [e]
        = halving_ladder (spatialLayers (parse (scalabilityMode e))))
  /\ (spatialLayers (parse (Some "S3T3_KEY")) = 3%nat ->
      getResolutionScalings parse [mkEncoding (Some "S3T3_KEY") None]
      = [4%Q; 2%Q; 1%Q])
  /\ getResolutionScalings parse
       [mkEncoding None None; mkEncoding None None; mkEncoding None None]
     = [4%Q; 2%Q; 1%Q]
  /\ getResolutionScalings parse
       [mkEncoding None (Some (1 # 2)); mkEncoding None None]
     = [1%Q; 1%Q].
Proof.
  split; [apply getResolutionScalings_refines|].
  split; [intros e; simpl; apply svc_loop_ladder|].
  split; [|split; reflexivity].
  intros H. simpl. by rewrite H.
Qed.

(** The library's parser reads three spatial layers in ['S3T3_KEY']. *)
Lemma getResolutionScalings_spec_witness :
  spatialLayers (mediasoup_parse (Some "S3T3_KEY")) = 3%nat
  /\ getResolutionScalings mediasoup_parse [mkEncoding (Some "S3T3_KEY") None]
     = [4%Q; 2%Q; 1%Q].
Proof.
  split; [reflexivity|].
  destruct (getResolutionScalings_spec mediasoup_parse) as (_ & _ & H & _).
  apply H. reflexivity.
Defined.

End ScalingsFacts.

(** ** Preferred-layer adaptation *)

Module LayersFacts.
Import Layers.

Section Loop.
Variables F w h viewportWidth viewportHeight : Q.

Local Abbreviation ok := (level_fits F w h viewportWidth viewportHeight).
Local Abbreviation loop := (spatial_loop F w h viewportWidth viewportHeight).

(** The loop stops at the first level that does not fit: its result is the
    last index of the leading run of fitting levels, or the initial value
    when the head does not fit. *)
Lemma spatial_loop_run (scalings : list Q) : forall i p,
  match scalings with
  | [] => loop scalings i p = p
  | s :: _ =>
      if ok s then
        (i <= loop scalings i p < i + length scalings)%nat
        /\ (forall j, (j <= loop scalings i p - i)%nat ->
              exists s', scalings !! j = Some s' /\ ok s' = true)
        /\ match scalings !! S (loop scalings i p - i) with
           | Some s' => ok s' = false
           | None => True
           end
      else loop scalings i p = p
  end.
Proof.
  induction scalings as [|s rest IH]; intros i p; [done|].
  cbn [spatial_loop]. destruct (ok s) eqn:Hs; [|done].
  specialize (IH (S i) i). destruct rest as [|s2 rest'].
  - cbn [spatial_loop] in *. simpl. split; [lia|]. split.
    + intros j Hj. assert (j = 0)%nat as -> by lia. eauto.
    + replace (i - i)%nat with 0%nat by lia. done.
  - destruct (ok s2) eqn:Hs2.
    + destruct IH as (Hr & Hall & Hnext).
      set (n := loop (s2 :: rest') (S i) i) in *.
      split; [simpl in *; lia|]. split.
      * intros [|j] Hj; [eauto|]. apply Hall. lia.
      * replace (S (n - i)) with (S (S (n - S i))) by lia. exact Hnext.
    + rewrite IH. split; [simpl; lia|]. split.
      * intros j Hj. assert (j = 0)%nat as -> by lia. eauto.
      * replace (i - i)%nat with 0%nat by lia. simpl. done.
Qed.

End Loop.












End LayersFacts.

(** ** The signaling request loop *)

Module SignalingFacts.
Import Signaling.

#[local] Arguments attempt : simpl never.

(** One attempt never takes longer than the timer. *)
Lemma _sendRequest_time config socket ack :
  (fst (_sendRequest config socket ack) <= timer_delay (requestTimeout config))%Z.
Proof.
  unfold _sendRequest, timeoutCallback, timer_delay.
  destruct socket; simpl; [|lia].
  destruct ack as [delay err response|]; simpl; [|lia].
  destruct (Z.ltb_spec delay (Z.max 0 (requestTimeout config))); simpl; lia.
Qed.

(** With a socket, an attempt that times out takes exactly the timer. *)
Lemma _sendRequest_timeout_time config ack :
  timed_out (snd (_sendRequest config true ack)) = true ->
  _sendRequest config true ack
  = (timer_delay (requestTimeout config),
     Rejected (SocketTimeoutError "Request timed out")).
Proof.
  unfold _sendRequest, timeoutCallback. simpl.
  destruct ack as [delay err response|]; [|done].
  destruct (delay <? _)%Z; [|done]. by destruct err.
Qed.

Section Loop.
Variables (config : Config) (socket : bool)
          (net : Request -> nat -> Ack) (request : Request).

Local Abbreviation R := (requestRetries config).
Local Abbreviation due := (timer_delay (requestTimeout config)).
Local Abbreviation try_ := (attempt config socket net request).
Local Abbreviation loop := (sendRequest_loop config socket net request).

Lemma sendRequest_loop_facts fuel : forall tries sent time,
  (R - tries <= Z.of_nat fuel)%Z ->
  exists o, loop fuel tries sent time = Some o
            /\ loop_facts config socket net request tries sent time o.
Proof.
  induction fuel as [|fuel IH]; intros tries sent time Hfuel.
  - assert ((tries <? R)%Z = false) as Hcond by (apply Z.ltb_ge; lia).
    simpl. rewrite Hcond. simpl. eexists; split; [done|].
    apply Z.ltb_ge in Hcond.
    split; simpl; try lia.
    right. split; [done|]. split; [lia|]. intros; lia.
  - cbn [sendRequest_loop]. destruct (tries <? R)%Z eqn:Hcond; simpl.
    2:{ eexists; split; [done|]. apply Z.ltb_ge in Hcond.
        split; simpl; try lia. right. split; [done|]. split; [lia|].
        intros; lia. }
    apply Z.ltb_lt in Hcond.
    pose proof (_sendRequest_time config socket (net request sent)) as Hdt.
    assert (try_ sent = snd (_sendRequest config socket (net request sent)))
      as Htry by done.
    destruct (_sendRequest config socket (net request sent)) as [dt settled].
    simpl in Hdt, Htry.
    destruct settled as [response|error].
    + eexists; split; [done|]. split; simpl; try lia.
      left. rewrite Nat.sub_0_r, Htry. split; [lia | done].
    + destruct (instanceof_SocketTimeoutError error) eqn:Hinst; simpl.
      * destruct (IH (tries + 1)%Z (S sent) (time + dt)%Z) as (o & Ho & Hf);
          [lia|].
        exists o. split; [done|]. destruct Hf as [Hm Hb Hr Hl Ht].
        split; try lia.
        -- intros k Hk1 Hk2. destruct (decide (k = sent)) as [->|Hne].
           ++ rewrite Htry. done.
           ++ apply Hr; lia.
        -- destruct Hl as [(H1 & H2 & H3)|(H1 & H2 & H3)].
           ++ left. split; [lia|done].
           ++ right. split; [done|]. split; [lia|].
              intros k Hk1 Hk2. destruct (decide (k = sent)) as [->|Hne].
              ** rewrite Htry. done.
              ** apply H3; lia.
      * eexists; split; [done|]. split; simpl; try lia.
        left. rewrite Nat.sub_0_r, Htry. simpl. split; [lia | done].
Qed.

End Loop.

(** The loop always settles: the fuel it is given is enough. *)
Lemma sendRequest_settles config socket net request :
  exists o, sendRequest config socket net request = Some o
            /\ loop_facts config socket net request 0 0 0 o.
Proof. apply sendRequest_loop_facts. lia. Qed.

(** The parts of the contract that the loop does keep: at most
    [requestRetries] attempts; an attempt is followed by another only when
    it timed out; a non-timeout error of an attempt is the rejection of the
    call and ends it; the call settles within
    [requestTimeout * requestRetries] ms. *)
Lemma sendRequest_contract config socket net request :
  (0 <= requestTimeout config)%Z -> (0 <= requestRetries config)%Z ->
  exists o, sendRequest config socket net request = Some o
    /\ (Z.of_nat (attempts o) <= requestRetries config)%Z
    /\ (forall k, (S k < attempts o)%nat ->
          timed_out (attempt config socket net request k) = true)
    /\ (forall k e, (k < attempts o)%nat ->
          attempt config socket net request k = Rejected e ->
          instanceof_SocketTimeoutError e = false ->
          result o = Rejected e /\ attempts o = S k)
    /\ (elapsed o <= requestTimeout config * requestRetries config)%Z.
Proof.
  intros HT HR.
  destruct (sendRequest_settles config socket net request) as (o & Ho & Hf).
  destruct Hf as [Hm Hb Hr Hl Ht].
  exists o. split; [done|]. split; [lia|]. split; [intros; apply Hr; lia|].
  split.
  - intros k e Hk Hatt Hinst.
    assert (attempts o = S k) as Hlast.
    { destruct (decide (S k < attempts o)%nat) as [Hlt|]; [|lia].
      specialize (Hr k ltac:(lia) Hlt). rewrite Hatt in Hr. simpl in Hr.
      congruence. }
    split; [|done].
    destruct Hl as [(H1 & H2 & H3)|(H1 & H2 & H3)].
    + rewrite H2. replace (attempts o - 1)%nat with k by lia. done.
    + specialize (H3 k ltac:(lia) Hk). rewrite Hatt in H3. simpl in H3.
      congruence.
  - unfold timer_delay in Ht. rewrite Z.max_r in Ht by done. nia.
Qed.

Lemma sendRequest_loop_exhausted config net request :
  (forall k, timed_out (attempt config true net request k) = true) ->
  forall fuel tries sent time,
  (requestRetries config - tries <= Z.of_nat fuel)%Z ->
  sendRequest_loop config true net request fuel tries sent time
  = Some (mkOutcome (Resolved None)
            (sent + Z.to_nat (requestRetries config - tries))
            (time + timer_delay (requestTimeout config)
                    * Z.of_nat (Z.to_nat (requestRetries config - tries)))).
Proof.
  intros Hall. induction fuel as [|fuel IH]; intros tries sent time Hfuel.
  - assert ((tries <? requestRetries config)%Z = false) as Hcond
      by (apply Z.ltb_ge; lia).
    simpl. rewrite Hcond. simpl. apply Z.ltb_ge in Hcond.
    replace (Z.to_nat (requestRetries config - tries)) with 0%nat by lia.
    do 2 f_equal; lia.
  - cbn [sendRequest_loop].
    destruct (tries <? requestRetries config)%Z eqn:Hcond; simpl.
    + apply Z.ltb_lt in Hcond.
      rewrite (_sendRequest_timeout_time config (net request sent) (Hall sent)).
      simpl. rewrite IH by lia.
      replace (Z.to_nat (requestRetries config - tries))
        with (S (Z.to_nat (requestRetries config - (tries + 1)))) by lia.
      do 2 f_equal; lia.
    + apply Z.ltb_ge in Hcond.
      replace (Z.to_nat (requestRetries config - tries)) with 0%nat by lia.
      do 2 f_equal; lia.
Qed.

(** C1 (the part the code breaks). When the socket is there and every
    attempt times out, [sendRequest] makes [requestRetries] attempts and then
    falls out of its loop: its promise is resolved with [undefined], not
    rejected.  The guard [tries < config.requestRetries] in the [catch] is
    always true inside the loop, so the last timeout is never thrown. *)
Theorem sendRequest_exhausted_resolves config net request :
  (forall k, timed_out (attempt config true net request k) = true) ->
  sendRequest config true net request
  = Some (mkOutcome (Resolved None)
            (Z.to_nat (requestRetries config))
            (timer_delay (requestTimeout config)
             * Z.of_nat (Z.to_nat (requestRetries config)))).
Proof.
  intros Hall. unfold sendRequest.
  rewrite (sendRequest_loop_exhausted config net request Hall) by lia.
  rewrite Z.sub_0_r. reflexivity.
Qed.

(** Three retries of five seconds against a socket that never answers. *)
Lemma sendRequest_exhausted_resolves_witness :
  (forall k, timed_out (attempt (mkConfig 5000 3) true silent
                          (mkRequest "restartIce" "t1") k) = true)
  /\ sendRequest (mkConfig 5000 3) true silent (mkRequest "restartIce" "t1")
     = Some (mkOutcome (Resolved None) 3 15000).
Proof.
  split; [intros k; reflexivity|].
  apply (sendRequest_exhausted_resolves (mkConfig 5000 3) silent
           (mkRequest "restartIce" "t1")).
  intros k. reflexivity.
Defined.

End SignalingFacts.

(** ** The ICE restart controller *)

Module IceFacts.
Import Ice.

Lemma restartIce_keeps transport delay s :
  restarting (restartIce transport delay s) = restarting s
  /\ pending (restartIce transport delay s) = pending s
  /\ log (restartIce transport delay s) = log s.
Proof.
  unfold restartIce, setTimeout, clearTimeout.
  destruct transport; [|done]. by destruct (timer s).
Qed.

Lemma clearTimeout_keeps s :
  restarting (clearTimeout s) = restarting s
  /\ pending (clearTimeout s) = pending s
  /\ log (clearTimeout s) = log s.
Proof. unfold clearTimeout. by destruct (timer s). Qed.

Lemma fire_attempt_busy transport t d s :
  callback t = Attempt d -> restarting s = true ->
  restarting (fire transport t s) = true
  /\ pending (fire transport t s) = pending s
  /\ log (fire transport t s) = log s.
Proof. intros Hcb Hr. unfold fire. rewrite Hcb. simpl. by rewrite Hr. Qed.

Lemma fire_attempt_idle transport t d s :
  callback t = Attempt d -> restarting s = false ->
  restarting (fire transport t s) = true
  /\ pending (fire transport t s) = pending s ++ [mkPending d AwaitingSfu]
  /\ log (fire transport t s) = (Z.max (now s) (due t), RequestIssued) :: log s.
Proof. intros Hcb Hr. unfold fire. rewrite Hcb. simpl. by rewrite Hr. Qed.

Lemma fire_reschedule transport t d s :
  callback t = Reschedule d ->
  restarting (fire transport t s) = restarting s
  /\ pending (fire transport t s) = pending s
  /\ log (fire transport t s) = log s.
Proof.
  intros Hcb. unfold fire. rewrite Hcb.
  match goal with |- context [restartIce _ _ ?x] =>
    destruct (restartIce_keeps transport (d * 2) x) as (-> & -> & ->) end.
  done.
Qed.

Lemma resume_failure i p at_ s :
  pending s !! i = Some p ->
  resume i false at_ s
  = mkState (Z.max (now s) at_) false (Some (next_handle s))
      (timers s ++ [mkTimer (next_handle s)
                      (Z.max (now s) at_ + Z.max 0 (p_delay p))
                      (Reschedule (p_delay p))])
      (S (next_handle s)) (delete i (pending s)) (log s).
Proof. intros Hp. unfold resume. by rewrite Hp. Qed.

Lemma resume_restarted i p at_ s :
  pending s !! i = Some p -> p_phase p = AwaitingTransport ->
  resume i true at_ s
  = mkState (Z.max (now s) at_) false (timer s) (timers s) (next_handle s)
      (delete i (pending s)) ((Z.max (now s) at_, IceRestarted) :: log s).
Proof. intros Hp Hph. unfold resume. by rewrite Hp, Hph. Qed.

Lemma resume_answered i p at_ s :
  pending s !! i = Some p -> p_phase p = AwaitingSfu ->
  resume i true at_ s
  = mkState (Z.max (now s) at_) (restarting s) (timer s) (timers s)
      (next_handle s)
      (delete i (pending s) ++ [mkPending (p_delay p) AwaitingTransport])
      ((Z.max (now s) at_, TransportRestart) :: log s).
Proof. intros Hp Hph. unfold resume. by rewrite Hp, Hph. Qed.

Lemma step_keeps_flag transport s s' :
  flag_tracks_attempt s -> step transport s s' -> flag_tracks_attempt s'.
Proof.
  unfold flag_tracks_attempt. intros Hinv Hstep.
  destruct Hstep as [connectState s|t s Ht|i ok at_ s Hi].
  - unfold on_connectionstatechange. destruct (_ || _).
    + destruct (restartIce_keeps transport 2000 s) as (-> & -> & _). done.
    + destruct (clearTimeout_keeps s) as (-> & -> & _). done.
  - destruct (callback t) as [d|d] eqn:Hcb.
    + destruct (restarting s) eqn:Hr.
      * destruct (fire_attempt_busy transport t d s Hcb Hr) as (-> & -> & _).
        done.
      * destruct (fire_attempt_idle transport t d s Hcb Hr) as (-> & -> & _).
        rewrite length_app, Hinv. done.
    + destruct (fire_reschedule transport t d s Hcb) as (-> & -> & _). done.
  - destruct (pending s !! i) as [p|] eqn:Hp;
      [|apply lookup_ge_None in Hp; lia].
    destruct (restarting s) eqn:Hr; [|rewrite Hinv in Hi; lia].
    destruct (pending s) as [|p0 [|p1 rest]] eqn:Hps; try done.
    assert (i = 0)%nat as -> by (simpl in Hi; lia).
    destruct ok; [destruct (p_phase p) eqn:Hph|].
    + rewrite (resume_answered 0 p at_ s) by (by rewrite ?Hps). simpl.
      by rewrite Hr, Hps.
    + rewrite (resume_restarted 0 p at_ s) by (by rewrite ?Hps). simpl.
      by rewrite Hps.
    + rewrite (resume_failure 0 p at_ s) by (by rewrite Hps). simpl.
      by rewrite Hps.
Qed.

Lemma reachable_flag transport s :
  reachable transport s -> flag_tracks_attempt s.
Proof.
  induction 1 as [|s s' _ IH Hstep]; [done|].
  eapply step_keeps_flag; eauto.
Qed.

(** C5. In every state the controller can reach, at most one restart is in
    flight, and the flag is up exactly then; a timer that fires while the
    flag is up issues no request and starts nothing; one that fires while it
    is down raises the flag and issues the request; the flag is lowered when
    the restart completes and when either awaited call fails. *)
Theorem one_restart_in_flight transport s :
  reachable transport s ->
  (length (pending s) <= 1)%nat
  /\ (restarting s = true <-> length (pending s) = 1%nat)
  /\ (forall t d, callback t = Attempt d -> restarting s = true ->
        request_times (fire transport t s) = request_times s
        /\ pending (fire transport t s) = pending s
        /\ restarting (fire transport t s) = true)
  /\ (forall t d, callback t = Attempt d -> restarting s = false ->
        restarting (fire transport t s) = true
        /\ pending (fire transport t s) = [mkPending d AwaitingSfu]
        /\ log (fire transport t s)
           = (Z.max (now s) (due t), RequestIssued) :: log s)
  /\ (forall i p at_, pending s !! i = Some p ->
        (p_phase p = AwaitingTransport ->
         restarting (resume i true at_ s) = false
         /\ pending (resume i true at_ s) = [])
        /\ (p_phase p = AwaitingSfu ->
            restarting (resume i true at_ s) = true
            /\ pending (resume i true at_ s)
               = [mkPending (p_delay p) AwaitingTransport])
        /\ restarting (resume i false at_ s) = false
        /\ pending (resume i false at_ s) = []).
Proof.
  intros Hreach. pose proof (reachable_flag transport s Hreach) as Hinv.
  unfold flag_tracks_attempt in Hinv.
  split; [destruct (restarting s); lia|].
  split; [destruct (restarting s); split; intros; try done; lia|].
  split; [|split].
  - intros t d Hcb Hr.
    destruct (fire_attempt_busy transport t d s Hcb Hr) as (H1 & H2 & H3).
    unfold request_times. by rewrite H3.
  - intros t d Hcb Hr.
    destruct (fire_attempt_idle transport t d s Hcb Hr) as (H1 & H2 & H3).
    rewrite Hr in Hinv. destruct (pending s); [|done]. done.
  - intros i p at_ Hp.
    assert (pending s = [p] /\ i = 0%nat /\ restarting s = true) as (Hps & -> & Hr).
    { destruct (restarting s).
      - destruct (pending s) as [|p0 [|p1 rest]]; try done.
        destruct i; simpl in Hp; [by inversion Hp | done].
      - destruct (pending s); done. }
    split; [|split].
    + intros Hph. rewrite (resume_restarted 0 p at_ s Hp Hph). simpl.
      by rewrite Hps.
    + intros Hph. rewrite (resume_answered 0 p at_ s Hp Hph). simpl.
      by rewrite Hps, Hr.
    + rewrite (resume_failure 0 p at_ s Hp). simpl. by rewrite Hps.
Qed.

Lemma busy_state_reachable : reachable (Some "send-1") busy_state.
Proof.
  eapply reach_step; [eapply reach_step; [apply reach_init|]|].
  - apply (step_statechange _ "failed").
  - apply step_fire. simpl. apply list_elem_of_here.
Qed.

Lemma one_restart_in_flight_witness :
  reachable (Some "send-1") busy_state
  /\ (length (pending busy_state) <= 1)%nat
  /\ restarting busy_state = true.
Proof.
  split; [apply busy_state_reachable|].
  destruct (one_restart_in_flight (Some "send-1") busy_state
              busy_state_reachable) as (H1 & H2 & _).
  split; [exact H1|]. apply H2. reflexivity.
Defined.

Lemma earliest_single t : earliest [t] = Some t.
Proof. reflexivity. Qed.

Lemma filter_out_single (h : nat) (t : Timer) :
  handle t = h -> filter (fun t' => handle t' <> h) [t] = [].
Proof.
  intros Hh. rewrite filter_cons.
  by rewrite decide_False by (intros H; by apply H).
Qed.

(** C4 (amended). When the awaited request or [transport.restartIce] of an
    attempt made with [delay] fails, the flag is lowered and a timer is armed
    that, [delay] ms later, calls [restartIce] again with [delay * 2]; that
    call arms the next attempt another [delay * 2] ms later.  With nothing
    else armed, the next [restartIce] request therefore leaves
    [delay + 2 * delay] ms after the failure: 6 s for the initial 2000 ms. *)
Theorem restartIce_failure_backoff transport_id s i p failed_at :
  pending s !! i = Some p ->
  timers s = [] ->
  (now s <= failed_at)%Z ->
  (0 <= p_delay p)%Z ->
  let transport := Some transport_id in
  let d := p_delay p in
  let s1 := resume i false failed_at s in
  restarting s1 = false
  /\ timers s1 = [mkTimer (next_handle s) (failed_at + d) (Reschedule d)]
  /\ timer s1 = Some (next_handle s)
  /\ (exists s2,
        run_next transport s1 = Some s2
        /\ now s2 = (failed_at + d)%Z
        /\ timers s2 = [mkTimer (S (next_handle s)) (failed_at + d + d * 2)
                          (Attempt (d * 2))]
        /\ log s2 = log s
        /\ exists s3,
             run_next transport s2 = Some s3
             /\ restarting s3 = true
             /\ log s3 = ((failed_at + d + d * 2)%Z, RequestIssued) :: log s)
  /\ next_request_time transport 2 s1 = Some (failed_at + d + d * 2)%Z
  /\ (d = 2000%Z ->
      next_request_time transport 2 s1 = Some (failed_at + 6000)%Z).
Proof.
  intros Hp Hts Hnow Hd. cbv zeta.
  rewrite (resume_failure i p failed_at s Hp). rewrite Hts.
  rewrite (Z.max_r (now s) failed_at) by done.
  rewrite (Z.max_r 0 (p_delay p)) by done. cbn [app].
  set (d := p_delay p) in *.
  set (t1 := mkTimer (next_handle s) (failed_at + d) (Reschedule d)).
  set (s1 := mkState failed_at false (Some (next_handle s)) [t1]
               (S (next_handle s)) (delete i (pending s)) (log s)).
  set (t2 := mkTimer (S (next_handle s)) (failed_at + d + d * 2) (Attempt (d * 2))).
  set (s2 := mkState (failed_at + d) false (Some (S (next_handle s))) [t2]
               (S (S (next_handle s))) (delete i (pending s)) (log s)).
  assert (run_next (Some transport_id) s1 = Some s2) as Hrun1.
  { unfold run_next. cbn [timers s1]. rewrite earliest_single. f_equal.
    unfold fire. cbn [callback t1 timers s1 handle].
    rewrite filter_out_single by reflexivity. unfold restartIce, clearTimeout, setTimeout, set_now.
    cbn -[Z.max Z.mul Z.add].
    rewrite (Z.max_r failed_at (failed_at + d)) by lia.
    rewrite (Z.max_r 0 (d * 2)) by lia. reflexivity. }
  set (s3 := mkState (failed_at + d + d * 2) true (Some (S (next_handle s))) []
               (S (S (next_handle s)))
               (delete i (pending s) ++ [mkPending (d * 2) AwaitingSfu])
               (((failed_at + d + d * 2)%Z, RequestIssued) :: log s)).
  assert (run_next (Some transport_id) s2 = Some s3) as Hrun2.
  { unfold run_next. cbn [timers s2]. rewrite earliest_single. f_equal.
    unfold fire. cbn [callback t2 timers s2 handle].
    rewrite filter_out_single by reflexivity. unfold set_now, set_restarting, emit, set_pending.
    cbn -[Z.max Z.mul Z.add].
    rewrite (Z.max_r (failed_at + d) (failed_at + d + d * 2)) by lia.
    reflexivity. }
  assert (next_request_time (Some transport_id) 2 s1
          = Some (failed_at + d + d * 2)%Z) as Hnext.
  { cbn [next_request_time]. rewrite Hrun1.
    assert (request_times s2 = request_times s1) as -> by done.
    rewrite Nat.ltb_irrefl. rewrite Hrun2.
    assert (request_times s3
            = request_times s1 ++ [(failed_at + d + d * 2)%Z]) as ->.
    { unfold request_times. cbn [log s3 s1 omap list_omap]. done. }
    rewrite length_app. cbn [length].
    assert ((length (request_times s1) <? length (request_times s1) + 1)%nat
            = true) as -> by (apply Nat.ltb_lt; lia).
    apply last_snoc. }
  split; [done|]. split; [done|]. split; [done|]. split.
  - exists s2. split; [done|]. split; [done|]. split; [done|]. split; [done|].
    exists s3. done.
  - split; [done|]. intros Hd2. rewrite Hnext. f_equal. lia.
Qed.

Lemma restartIce_failure_backoff_witness :
  pending busy_state !! 0%nat = Some (mkPending 2000 AwaitingSfu)
  /\ timers busy_state = []
  /\ (now busy_state <= 2500)%Z
  /\ (0 <= 2000)%Z
  /\ next_request_time (Some "send-1") 2 refused_state = Some 8500%Z.
Proof.
  split; [reflexivity|]. split; [reflexivity|].
  split; [vm_compute; discriminate|]. split; [lia|].
  destruct (restartIce_failure_backoff "send-1" busy_state 0
              (mkPending 2000 AwaitingSfu) 2500)
    as (_ & _ & _ & _ & _ & H);
    [reflexivity | reflexivity | vm_compute; discriminate | simpl; lia |].
  apply H. reflexivity.
Defined.

(** C4 as stated fails: after the failure at 2500 ms the next request is
    issued at 8500 ms, six seconds later and not four. *)
Lemma restartIce_next_request_not_4s :
  restarting refused_state = false
  /\ next_request_time (Some "send-1") 2 refused_state = Some 8500%Z
  /\ next_request_time (Some "send-1") 2 refused_state
     <> Some (2500 + 4000)%Z.
Proof. split; [reflexivity|]. split; [reflexivity|]. discriminate. Qed.

End IceFacts.

(** ** Closing and disconnecting *)

Module RoomFacts.
Import Room.

#[local] Instance extends_preorder : PreOrder extends.
Proof.
  split.
  - intros c. unfold extends. done.
  - intros a b c Hab Hbc. unfold extends in *. by etrans.
Qed.

Lemma perform_extends e c : extends c (perform e c).
Proof. by apply prefix_app_r. Qed.

Lemma dispatch_extends a c : extends c (dispatch a c).
Proof. by apply prefix_app_r. Qed.

Lemma set_media_extends m c : extends c (set_media m c).
Proof. unfold extends. done. Qed.

Lemma foldl_extends {A} (f : Client -> A -> Client) (l : list A) :
  (forall c x, extends c (f c x)) -> forall c, extends c (foldl f c l).
Proof.
  intros Hf. induction l as [|x l IH]; intros c; simpl; [done|].
  etrans; [apply Hf | apply IH].
Qed.

Lemma close_sendTransport_extends c : extends c (close_sendTransport c).
Proof.
  unfold close_sendTransport. destruct (_sendTransport (media c)) as [t|]; [|done].
  destruct (transport_closed t); [done|].
  etrans; [apply (perform_extends (TransportClose (transport_id t)))|].
  etrans; [|apply set_media_extends].
  apply foldl_extends. intros; apply perform_extends.
Qed.

Lemma close_recvTransport_extends c : extends c (close_recvTransport c).
Proof.
  unfold close_recvTransport. destruct (_recvTransport (media c)) as [t|]; [|done].
  destruct (transport_closed t); [done|].
  etrans; [apply (perform_extends (TransportClose (transport_id t)))|].
  etrans; [|apply set_media_extends].
  apply foldl_extends. intros; apply perform_extends.
Qed.

Lemma close_and_remove_extends id c : extends c (close_and_remove id c).
Proof.
  unfold close_and_remove.
  etrans; [apply perform_extends | apply dispatch_extends].
Qed.

(** What a fold of effects leaves alone. *)
Lemma foldl_perform_frame (f : string -> Effect) l : forall c,
  let c' := foldl (fun c id => perform (f id) c) c l in
  _closed c' = _closed c /\ _signalingSocket c' = _signalingSocket c
  /\ media c' = media c /\ store c' = store c.
Proof.
  induction l as [|x l IH]; intros c; simpl; [done|].
  destruct (IH (perform (f x) c)) as (-> & -> & -> & ->). done.
Qed.

Lemma close_sendTransport_frame c :
  _closed (close_sendTransport c) = _closed c
  /\ _signalingSocket (close_sendTransport c) = _signalingSocket c
  /\ store (close_sendTransport c) = store c
  /\ _recvTransport (media (close_sendTransport c)) = _recvTransport (media c).
Proof.
  unfold close_sendTransport. destruct (_sendTransport (media c)) as [t|]; [|done].
  destruct (transport_closed t); [done|]. simpl.
  destruct (foldl_perform_frame ProducerTransportClosed
              (open_producers (media c))
              (perform (TransportClose (transport_id t)) c))
    as (-> & -> & _ & ->). done.
Qed.

Lemma close_recvTransport_frame c :
  _closed (close_recvTransport c) = _closed c
  /\ _signalingSocket (close_recvTransport c) = _signalingSocket c
  /\ store (close_recvTransport c) = store c
  /\ _sendTransport (media (close_recvTransport c)) = _sendTransport (media c).
Proof.
  unfold close_recvTransport. destruct (_recvTransport (media c)) as [t|]; [|done].
  destruct (transport_closed t); [done|]. simpl.
  destruct (foldl_perform_frame ConsumerTransportClosed
              (_consumers (media c))
              (perform (TransportClose (transport_id t)) c))
    as (-> & -> & _ & ->). done.
Qed.

(** After [transport.close()] the transport in the field is closed, and the
    call was made unless it was closed before. *)
Lemma close_sendTransport_closes c t :
  _sendTransport (media c) = Some t ->
  _sendTransport (media (close_sendTransport c))
  = Some (mkTransport (transport_id t) true)
  /\ (transport_closed t = false ->
      TransportClose (transport_id t) ∈ effects (close_sendTransport c)).
Proof.
  intros Ht. unfold close_sendTransport. rewrite Ht.
  destruct t as [id [|]]; simpl; [by rewrite Ht|]. split; [done|]. intros _.
  eapply elem_of_prefix;
    [|apply (foldl_extends (fun c id => perform (ProducerTransportClosed id) c));
      intros; apply perform_extends].
  simpl. apply elem_of_app. right. apply list_elem_of_here.
Qed.

Lemma close_recvTransport_closes c t :
  _recvTransport (media c) = Some t ->
  _recvTransport (media (close_recvTransport c))
  = Some (mkTransport (transport_id t) true)
  /\ (transport_closed t = false ->
      TransportClose (transport_id t) ∈ effects (close_recvTransport c)).
Proof.
  intros Ht. unfold close_recvTransport. rewrite Ht.
  destruct t as [id [|]]; simpl; [by rewrite Ht|]. split; [done|]. intros _.
  eapply elem_of_prefix;
    [|apply (foldl_extends (fun c id => perform (ConsumerTransportClosed id) c));
      intros; apply perform_extends].
  simpl. apply elem_of_app. right. apply list_elem_of_here.
Qed.

(** The closed guard: a closed client ignores [close()] and ['disconnect']. *)
Lemma closed_guard c :
  _closed c = true ->
  close c = Done c /\ forall reason, on_disconnect reason c = Done c.
Proof.
  intros Hc. unfold on_disconnect, close. by rewrite Hc.
Qed.

Lemma close_first c url :
  _closed c = false -> _signalingSocket c = Some url ->
  close c = Done (first_close c).
Proof. intros Hc Hs. unfold close. rewrite Hc. simpl. by rewrite Hs. Qed.

Lemma first_close_extends c : extends c (first_close c).
Proof.
  unfold first_close.
  etrans; [|apply perform_extends]. etrans; [|apply dispatch_extends].
  etrans; [|apply close_recvTransport_extends].
  etrans; [|apply close_sendTransport_extends].
  etrans; [|apply perform_extends]. by unfold extends.
Qed.

Lemma first_close_closed c : _closed (first_close c) = true.
Proof.
  unfold first_close. simpl.
  destruct (close_recvTransport_frame
              (close_sendTransport (perform SocketClose (set_closed c))))
    as (-> & _).
  destruct (close_sendTransport_frame (perform SocketClose (set_closed c)))
    as (-> & _).
  done.
Qed.

Lemma first_close_effects c :
  SocketClose ∈ effects (first_close c)
  /\ Dispatch (setRoomState closed) ∈ effects (first_close c)
  /\ last (effects (first_close c)) = Some Navigate.
Proof.
  split; [|split].
  - unfold first_close.
    eapply elem_of_prefix; [|apply perform_extends].
    eapply elem_of_prefix; [|apply dispatch_extends].
    eapply elem_of_prefix; [|apply close_recvTransport_extends].
    eapply elem_of_prefix; [|apply close_sendTransport_extends].
    simpl. apply elem_of_app. right. apply list_elem_of_here.
  - unfold first_close.
    eapply elem_of_prefix; [|apply perform_extends].
    simpl. apply elem_of_app. right. apply list_elem_of_here.
  - unfold first_close. simpl. apply last_snoc.
Qed.

(** C10 (amended). The first [close()] of a client with a signaling socket
    sets [_closed], closes the socket, leaves each transport it holds closed and
    sets the room state to [closed]; after that, and in any closed client,
    [close()] and a ['disconnect'] event return at once with the client, its
    store and its effects untouched. *)
Theorem close_idempotent c url :
  _closed c = false ->
  _signalingSocket c = Some url ->
  exists c1,
    close c = Done c1
    /\ _closed c1 = true
    /\ SocketClose ∈ effects c1
    /\ (forall t, _sendTransport (media c) = Some t ->
          _sendTransport (media c1) = Some (mkTransport (transport_id t) true)
          /\ (transport_closed t = false ->
              TransportClose (transport_id t) ∈ effects c1))
    /\ (forall t, _recvTransport (media c) = Some t ->
          _recvTransport (media c1) = Some (mkTransport (transport_id t) true)
          /\ (transport_closed t = false ->
              TransportClose (transport_id t) ∈ effects c1))
    /\ Dispatch (setRoomState closed) ∈ effects c1
    /\ room_state (store c1) = closed
    /\ close c1 = Done c1
    /\ (forall reason, on_disconnect reason c1 = Done c1)
    /\ (forall c', _closed c' = true ->
          close c' = Done c' /\ forall reason, on_disconnect reason c' = Done c').
Proof.
  intros Hc Hs. exists (first_close c).
  pose proof (first_close_closed c) as Hclosed.
  destruct (first_close_effects c) as (Hsock & Hdisp & _).
  destruct (closed_guard (first_close c) Hclosed) as [Hagain Hevent].
  split; [by eapply close_first|]. split; [done|]. split; [done|].
  split; [|split].
  - intros t Ht. unfold first_close. simpl.
    set (c0 := perform SocketClose (set_closed c)).
    assert (_sendTransport (media c0) = Some t) as Ht0 by done.
    destruct (close_sendTransport_closes c0 t Ht0) as [Hfield Hcall].
    destruct (close_recvTransport_frame (close_sendTransport c0))
      as (_ & _ & _ & ->).
    split; [done|]. intros Hopen.
    apply elem_of_app. left. apply elem_of_app. left.
    eapply elem_of_prefix; [|apply close_recvTransport_extends]. auto.
  - intros t Ht. unfold first_close. simpl.
    set (c0 := perform SocketClose (set_closed c)).
    assert (_recvTransport (media (close_sendTransport c0)) = Some t) as Ht0.
    { destruct (close_sendTransport_frame c0) as (_ & _ & _ & ->). done. }
    destruct (close_recvTransport_closes (close_sendTransport c0) t Ht0)
      as [Hfield Hcall].
    split; [done|]. intros Hopen.
    apply elem_of_app. left. apply elem_of_app. left. auto.
  - split; [done|]. split; [done|]. split; [done|]. split; [done|].
    apply closed_guard.
Qed.

Lemma close_idempotent_witness :
  _closed joined_client = false
  /\ _signalingSocket joined_client = Some "wss://meeting/?peerId=me&roomId=r1"
  /\ exists c1, close joined_client = Done c1 /\ close c1 = Done c1.
Proof.
  split; [reflexivity|]. split; [reflexivity|].
  destruct (close_idempotent joined_client "wss://meeting/?peerId=me&roomId=r1")
    as (c1 & H1 & _ & _ & _ & _ & _ & _ & H2 & _); [reflexivity | reflexivity |].
  exists c1. split; [exact H1 | exact H2].
Defined.

(** C10 as stated fails: on a client that has not joined, the first
    [close()] sets [_closed] and then throws on the missing socket; nothing
    is closed and nothing is dispatched, the room state stays [new], and the
    later calls return at once, so that it never becomes [closed]. *)
Lemma close_before_join_throws :
  exists c1,
    close constructed_client = Threw c1
    /\ _closed c1 = true
    /\ effects c1 = []
    /\ room_state (store c1) = new
    /\ room_state (store c1) <> closed
    /\ close c1 = Done c1.
Proof. eexists. repeat split. discriminate. Qed.

(** *** The teardown of the 'disconnect' handler *)

Lemma torn_refl c : torn [] (media c) c c.
Proof. split; try done. - simpl. set_solver. - intros id Hid. set_solver. Qed.

Lemma torn_trans ids1 ids2 m1 m2 c c1 c2 :
  torn ids1 m1 c c1 -> torn ids2 m2 c1 c2 -> torn (ids1 ++ ids2) m2 c c2.
Proof.
  intros [] []. split; try congruence.
  - rewrite torn_producers1, torn_producers0, list_to_set_app_L. set_solver.
  - by etrans.
  - intros id Hid. apply elem_of_app in Hid as [Hid|Hid]; [|auto].
    eapply elem_of_prefix; [|exact torn_extends1]. auto.
Qed.

Lemma torn_close_and_remove id c :
  torn [id] (media c) c (close_and_remove id c).
Proof.
  split; try done.
  - simpl. set_solver.
  - apply close_and_remove_extends.
  - intros id' Hid. apply list_elem_of_singleton in Hid as ->. simpl.
    apply elem_of_app. left. apply elem_of_app. right. apply list_elem_of_here.
Qed.

Lemma torn_set_media ids m0 m c c' :
  torn ids m0 c c' -> torn ids m c (set_media m c').
Proof. intros []. by split. Qed.

Lemma torn_foldl ids : forall c,
  torn ids (media c) c (foldl (fun c id => close_and_remove id c) c ids).
Proof.
  induction ids as [|id ids IH]; intros c; simpl; [apply torn_refl|].
  change (id :: ids) with ([id] ++ ids).
  pose proof (torn_close_and_remove id c) as H1.
  pose proof (IH (close_and_remove id c)) as H2.
  eapply torn_trans; eauto.
Qed.

Lemma torn_screen c :
  let m := media c in
  torn (option_list (_screenSharingProducer m))
    (mkMedia (_micProducer m) (_webcamProducer m) None
       (_screenSharingAudioProducer m) (_extraVideoProducers m)
       (_consumers m) (_sendTransport m) (_recvTransport m))
    c (drop_screenSharingProducer c).
Proof.
  unfold drop_screenSharingProducer. destruct c as [cl so [mi ca sc sa ex co st rt] sto ef].
  simpl. destruct sc as [id|]; simpl.
  - eapply torn_set_media. apply torn_close_and_remove.
  - apply (torn_refl (mkClient cl so (mkMedia mi ca None sa ex co st rt) sto ef)).
Qed.

Lemma torn_webcam c :
  let m := media c in
  torn (option_list (_webcamProducer m))
    (mkMedia (_micProducer m) None (_screenSharingProducer m)
       (_screenSharingAudioProducer m) (_extraVideoProducers m)
       (_consumers m) (_sendTransport m) (_recvTransport m))
    c (drop_webcamProducer c).
Proof.
  unfold drop_webcamProducer. destruct c as [cl so [mi ca sc sa ex co st rt] sto ef].
  simpl. destruct ca as [id|]; simpl.
  - eapply torn_set_media. apply torn_close_and_remove.
  - apply (torn_refl (mkClient cl so (mkMedia mi None sc sa ex co st rt) sto ef)).
Qed.

Lemma torn_mic c :
  let m := media c in
  torn (option_list (_micProducer m))
    (mkMedia None (_webcamProducer m) (_screenSharingProducer m)
       (_screenSharingAudioProducer m) (_extraVideoProducers m)
       (_consumers m) (_sendTransport m) (_recvTransport m))
    c (drop_micProducer c).
Proof.
  unfold drop_micProducer. destruct c as [cl so [mi ca sc sa ex co st rt] sto ef].
  simpl. destruct mi as [id|]; simpl.
  - eapply torn_set_media. apply torn_close_and_remove.
  - apply (torn_refl (mkClient cl so (mkMedia None ca sc sa ex co st rt) sto ef)).
Qed.

Lemma torn_extra c :
  let m := media c in
  torn (_extraVideoProducers m)
    (mkMedia (_micProducer m) (_webcamProducer m) (_screenSharingProducer m)
       (_screenSharingAudioProducer m) []
       (_consumers m) (_sendTransport m) (_recvTransport m))
    c (drop_extraVideoProducers c).
Proof.
  cbv zeta. unfold drop_extraVideoProducers.
  pose proof (torn_foldl (_extraVideoProducers (media c)) c) as H.
  rewrite (torn_media _ _ _ _ H). eapply torn_set_media. exact H.
Qed.

Lemma torn_sendTransport c :
  torn [] (after_sendTransport (media c)) c (drop_sendTransport c).
Proof.
  unfold drop_sendTransport, after_sendTransport.
  destruct (_sendTransport (media c)) as [t|] eqn:Ht; [|apply torn_refl].
  destruct (close_sendTransport_frame c) as (Hc & _ & Hs & Hr).
  split; simpl; try congruence.
  - unfold close_sendTransport. rewrite Ht.
    destruct (transport_closed t); simpl; [done|].
    destruct (foldl_perform_frame ProducerTransportClosed
                (open_producers (media c))
                (perform (TransportClose (transport_id t)) c))
      as (_ & _ & Hm & _). simpl in Hm. done.
  - rewrite Hs. set_solver.
  - apply close_sendTransport_extends.
  - intros id Hid. set_solver.
Qed.

Lemma torn_recvTransport c :
  torn [] (after_recvTransport (media c)) c (drop_recvTransport c).
Proof.
  unfold drop_recvTransport, after_recvTransport.
  destruct (_recvTransport (media c)) as [t|] eqn:Ht; [|apply torn_refl].
  destruct (close_recvTransport_frame c) as (Hc & _ & Hs & Hr).
  split; simpl; try congruence.
  - unfold close_recvTransport. rewrite Ht.
    destruct (transport_closed t); simpl; [done|].
    destruct (foldl_perform_frame ConsumerTransportClosed
                (_consumers (media c))
                (perform (TransportClose (transport_id t)) c))
      as (_ & _ & Hm & _). simpl in Hm. done.
  - rewrite Hs. set_solver.
  - apply close_recvTransport_extends.
  - intros id Hid. set_solver.
Qed.

Lemma teardown_torn c :
  exists c6,
    torn (handled_producers (media c)) (media_after_teardown (media c)) c c6
    /\ teardown c
       = dispatch (setRoomState connecting)
           (dispatch clearSpotlights
              (dispatch clearConsumers
                 (dispatch clearPeers (perform SpotlightsClear c6)))).
Proof.
  set (c0 := dispatch (notify "socket.reconnecting") c).
  set (c1 := drop_screenSharingProducer c0).
  set (c2 := drop_webcamProducer c1).
  set (c3 := drop_extraVideoProducers c2).
  set (c4 := drop_micProducer c3).
  set (c5 := drop_sendTransport c4).
  exists (drop_recvTransport c5). split; [|done].
  assert (torn [] (media c) c c0) as H0.
  { split; try done. - simpl. set_solver. - apply dispatch_extends.
    - intros id Hid. set_solver. }
  pose proof (torn_screen c0) as H1. pose proof (torn_webcam c1) as H2.
  pose proof (torn_extra c2) as H3. pose proof (torn_mic c3) as H4.
  pose proof (torn_sendTransport c4) as H5.
  pose proof (torn_recvTransport c5) as H6.
  cbv zeta in *. fold c1 in H1. fold c2 in H2. fold c3 in H3. fold c4 in H4.
  fold c5 in H5.
  rewrite (torn_media _ _ _ _ H4) in H5.
  rewrite (torn_media _ _ _ _ H5) in H6.
  rewrite (torn_media _ _ _ _ H3) in H4, H5, H6.
  rewrite (torn_media _ _ _ _ H2) in H3, H4, H5, H6.
  rewrite (torn_media _ _ _ _ H1) in H2, H3, H4, H5, H6.
  change (media c0) with (media c) in *.
  pose proof (torn_trans _ _ _ _ _ _ _ H0
                (torn_trans _ _ _ _ _ _ _ H1
                   (torn_trans _ _ _ _ _ _ _ H2
                      (torn_trans _ _ _ _ _ _ _ H3
                         (torn_trans _ _ _ _ _ _ _ H4
                            (torn_trans _ _ _ _ _ _ _ H5 H6)))))) as H.
  clear H0 H1 H2 H3 H4 H5 H6.
  destruct (media c) as [mi ca sc sa ex co st rt]. simpl in H.
  rewrite !app_nil_r in H. unfold handled_producers, media_after_teardown.
  simpl. unfold after_sendTransport, after_recvTransport in H. simpl in H.
  destruct st as [[sid [|]]|], rt as [[rid [|]]|]; simpl in *; exact H.
Qed.

Lemma teardown_announces c :
  Dispatch (notify "socket.reconnecting") ∈ effects (teardown c).
Proof.
  assert (extends (dispatch (notify "socket.reconnecting") c) (teardown c)) as H.
  { unfold teardown.
    do 4 (etrans; [|apply dispatch_extends]).
    etrans; [|apply perform_extends].
    etrans; [|apply (torn_extends _ _ _ _ (torn_recvTransport _))].
    etrans; [|apply (torn_extends _ _ _ _ (torn_sendTransport _))].
    etrans; [|apply (torn_extends _ _ _ _ (torn_mic _))].
    etrans; [|apply (torn_extends _ _ _ _ (torn_extra _))].
    etrans; [|apply (torn_extends _ _ _ _ (torn_webcam _))].
    apply (torn_extends _ _ _ _ (torn_screen _)). }
  eapply elem_of_prefix; [|exact H].
  simpl. apply elem_of_app. right. apply list_elem_of_here.
Qed.

(** The transient half of C2: for any other reason the handler closes the
    screen-sharing, webcam, extra-video and mic producers and removes them
    from the store, closes and drops both transports, clears peers,
    consumers and spotlights in the store, and leaves the room state at
    [connecting]. *)
Lemma disconnect_transient reason c :
  _closed c = false ->
  reason <> "io server disconnect" ->
  exists c',
    on_disconnect reason c = Done c'
    /\ _closed c' = false
    /\ media c' = media_after_teardown (media c)
    /\ (forall id, id ∈ handled_producers (media c) ->
          ProducerClose id ∈ effects c' /\ id ∉ store_producers (store c'))
    /\ store_peers (store c') = ∅
    /\ store_consumers (store c') = ∅
    /\ store_spotlights (store c') = []
    /\ SpotlightsClear ∈ effects c'
    /\ room_state (store c') = connecting.
Proof.
  intros Hc Hreason. unfold on_disconnect. rewrite Hc.
  assert (String.eqb reason "io server disconnect" = false) as ->
    by (by apply String.eqb_neq).
  exists (teardown c). split; [done|].
  destruct (teardown_torn c) as (c6 & H6 & ->). destruct H6.
  split; [simpl; congruence|]. split; [done|]. split; [|split; [done|]].
  - intros id Hid. split.
    + simpl. rewrite <- !app_assoc. apply elem_of_app. left. auto.
    + simpl. rewrite torn_producers0.
      apply not_elem_of_difference. right. by apply elem_of_list_to_set.
  - split; [done|]. split; [done|]. split; [|done].
    simpl. rewrite <- !app_assoc. apply elem_of_app. right.
    apply list_elem_of_here.
Qed.

(** C2 (the part the code breaks). On ["io server disconnect"] the handler
    calls [close()], which sets the room state to [closed], but does not
    return: it goes on to announce a reconnection and runs the teardown,
    whose last dispatch leaves the room state at [connecting]. *)
Theorem disconnect_by_server_ends_connecting c url :
  _closed c = false ->
  _signalingSocket c = Some url ->
  exists c',
    on_disconnect "io server disconnect" c = Done c'
    /\ _closed c' = true
    /\ Dispatch (setRoomState closed) ∈ effects c'
    /\ Dispatch (notify "socket.reconnecting") ∈ effects c'
    /\ last (effects c') = Some (Dispatch (setRoomState connecting))
    /\ room_state (store c') = connecting.
Proof.
  intros Hc Hs. unfold on_disconnect. rewrite Hc. simpl.
  set (c0 := dispatch (notify "socket.disconnected") c).
  rewrite (close_first c0 url) by done.
  exists (teardown (first_close c0)). split; [done|].
  destruct (teardown_torn (first_close c0)) as (c6 & H6 & Heq).
  rewrite Heq. destruct H6.
  split; [simpl; rewrite torn_closed0; apply first_close_closed|].
  destruct (first_close_effects c0) as (_ & Hdisp & _).
  split; [|split; [|split; [|done]]].
  - simpl. rewrite <- !app_assoc. apply elem_of_app. left.
    eapply elem_of_prefix; [exact Hdisp | exact torn_extends0].
  - rewrite <- Heq. apply teardown_announces.
  - simpl. apply last_snoc.
Qed.

Lemma disconnect_by_server_ends_connecting_witness :
  _closed joined_client = false
  /\ _signalingSocket joined_client = Some "wss://meeting/?peerId=me&roomId=r1"
  /\ exists c',
       on_disconnect "io server disconnect" joined_client = Done c'
       /\ room_state (store c') = connecting.
Proof.
  split; [reflexivity|]. split; [reflexivity|].
  destruct (disconnect_by_server_ends_connecting joined_client
              "wss://meeting/?peerId=me&roomId=r1")
    as (c' & H1 & _ & _ & _ & _ & H2); [reflexivity | reflexivity |].
  exists c'. split; [exact H1 | exact H2].
Defined.

End RoomFacts.

(** ** Spotlights and consumer pausing *)

Module ConsumersFacts.
Import Consumers.

Section AllOk.
Variable sfu : nat -> Request -> Reply.
Variable _spotlights : nat -> SpotlightsCall -> State -> State.
Hypothesis sfu_ok : forall n r, sfu n r = Ok.

Lemma pause_ok c st :
  _pauseConsumer sfu _spotlights c st
  = if paused c || closed c then st else switched true c st.
Proof.
  unfold _pauseConsumer, sendRequest. rewrite sfu_ok.
  by destruct (paused c || closed c).
Qed.

Lemma resume_ok c st :
  _resumeConsumer sfu _spotlights c false st
  = if negb (paused c) || closed c then st else switched false c st.
Proof.
  unfold _resumeConsumer, sendRequest. rewrite sfu_ok. simpl.
  by destruct (negb (paused c) || closed c).
Qed.

Variable spotlights : list string.

Lemma settled_switched visited b c st :
  _consumers st !! id c = Some c ->
  kind c = "video" ->
  b = negb (in_spotlights spotlights c) ->
  settled_upto spotlights visited st ->
  settled_upto spotlights (visited ++ [id c]) (switched b c st).
Proof.
  intros Hc Hkind Hb [Hid Hmirror]. split; simpl.
  - intros key c' Hlook. destruct (decide (id c = key)) as [<-|Hne].
    + rewrite lookup_alter_eq, Hc in Hlook. by inversion Hlook.
    + rewrite lookup_alter_ne in Hlook by done. auto.
  - intros key e Hlook Hvideo. destruct (decide (id c = key)) as [<-|Hne].
    + rewrite lookup_alter_eq in Hlook.
      destruct (store_consumers st !! id c) as [e0|] eqn:He0; [|done].
      inversion Hlook; subst e. clear Hlook.
      destruct (Hmirror (id c) e0 He0 Hvideo) as (c0 & Hc0 & ? & ? & ? & ? & _).
      rewrite Hc in Hc0. inversion Hc0; subst c0.
      exists (with_paused (negb (in_spotlights spotlights c)) c).
      rewrite lookup_alter_eq, Hc. subst b. simpl.
      repeat (split; [done|]). intros _. reflexivity.
    + rewrite lookup_alter_ne in Hlook by done.
      destruct (Hmirror key e Hlook Hvideo) as (c0 & Hc0 & ? & ? & ? & ? & Hv).
      exists c0. rewrite lookup_alter_ne by done.
      repeat (split; [done|]). intros Hin.
      apply elem_of_app in Hin as [Hin|Hin]; [auto|].
      apply list_elem_of_singleton in Hin. congruence.
Qed.

Lemma settled_unchanged visited key st :
  (forall c e, _consumers st !! key = Some c ->
               store_consumers st !! key = Some e ->
               kind c = "video" -> closed c = false ->
               paused c = negb (in_spotlights spotlights c)) ->
  settled_upto spotlights visited st ->
  settled_upto spotlights (visited ++ [key]) st.
Proof.
  intros Hkey [Hid Hmirror]. split; [done|].
  intros key' e Hlook Hvideo.
  destruct (Hmirror key' e Hlook Hvideo) as (c0 & Hc0 & ? & ? & ? & ? & Hv).
  exists c0. repeat (split; [done|]). intros Hin.
  apply elem_of_app in Hin as [Hin|Hin]; [auto|].
  apply list_elem_of_singleton in Hin. subst key'. eauto.
Qed.

Lemma settled_selectedPeers visited peer st :
  settled_upto spotlights visited st -> settled_upto spotlights visited (removeSelectedPeer peer st).
Proof. done. Qed.

(** One turn of the loop. *)
Lemma settled_visit visited key st :
  settled_upto spotlights visited st ->
  settled_upto spotlights (visited ++ [key])
    (match _consumers st !! key with
     | Some consumer => spotlight_visit sfu _spotlights spotlights consumer st
     | None => st
     end).
Proof.
  intros Hst. destruct (_consumers st !! key) as [c|] eqn:Hc.
  2:{ apply settled_unchanged; [|done]. intros c e Hc'. congruence. }
  assert (id c = key) as Hkey by (destruct Hst as [Hid _]; eauto). subst key.
  unfold spotlight_visit. destruct (String.eqb_spec (kind c) "video") as [Hv|Hv].
  2:{ apply settled_unchanged; [|done]. intros c' e Hc'. congruence. }
  fold (in_spotlights spotlights c). destruct (in_spotlights spotlights c) eqn:Hin.
  - rewrite resume_ok.
    destruct (paused c) eqn:Hp, (closed c) eqn:Hcl; simpl.
    + apply settled_unchanged; [|done]. intros c' e Hc'. congruence.
    + apply settled_switched; try done. by rewrite Hin.
    + apply settled_unchanged; [|done]. intros c' e Hc'. congruence.
    + apply settled_unchanged; [|done].
      intros c' e Hc' _ _ _. rewrite Hc in Hc'. inversion Hc'; subst c'.
      by rewrite Hp, Hin.
  - apply settled_selectedPeers. rewrite pause_ok.
    destruct (paused c) eqn:Hp, (closed c) eqn:Hcl; simpl.
    + apply settled_unchanged; [|done]. intros c' e Hc'. congruence.
    + apply settled_unchanged; [|done].
      intros c' e Hc' _ _ _. rewrite Hc in Hc'. inversion Hc'; subst c'.
      by rewrite Hp, Hin.
    + apply settled_unchanged; [|done]. intros c' e Hc'. congruence.
    + apply settled_switched; try done. by rewrite Hin.
Qed.

Lemma visit_keeps_spotlights c st :
  room_spotlights (spotlight_visit sfu _spotlights spotlights c st) = room_spotlights st.
Proof.
  unfold spotlight_visit. destruct (String.eqb (kind c) "video"); [|done].
  destruct (bool_decide _).
  - rewrite resume_ok. by destruct (negb (paused c) || closed c).
  - rewrite pause_ok. by destruct (paused c || closed c).
Qed.

Lemma settled_loop keys : forall visited st,
  settled_upto spotlights visited st ->
  let st' :=
    foldl (fun st key =>
             match _consumers st !! key with
             | Some consumer => spotlight_visit sfu _spotlights spotlights consumer st
             | None => st
             end) st keys in
  settled_upto spotlights (visited ++ keys) st'
  /\ room_spotlights st' = room_spotlights st.
Proof.
  induction keys as [|key keys IH]; intros visited st Hst; simpl.
  - by rewrite app_nil_r.
  - pose proof (settled_visit visited key st Hst) as Hstep.
    destruct (IH _ _ Hstep) as [Hall Hspot].
    rewrite <- app_assoc in Hall. split; [exact Hall|].
    etrans; [exact Hspot|].
    destruct (_consumers st !! key); [apply visit_keeps_spotlights | done].
Qed.

End AllOk.

Lemma updateSpotlights_settles sfu _spotlights spotlights st :
  (forall n r, sfu n r = Ok) ->
  mirrors st ->
  let st' := updateSpotlights sfu _spotlights spotlights st in
  room_spotlights st' = spotlights /\ spotlight_invariant st'.
Proof.
  intros Hok [Hkeys Hmirror]. cbv zeta.
  unfold updateSpotlights, for_each_consumer.
  assert (settled_upto spotlights [] (set_spotlights spotlights st)) as H0.
  { split; [intros key c Hc; by apply Hkeys|].
    intros key e He Hv. destruct (Hmirror key e He Hv) as (c & ? & ? & ? & ? & ?).
    exists c. repeat (split; [done|]). intros Hin. by apply elem_of_nil in Hin. }
  destruct (settled_loop sfu _spotlights Hok spotlights
              (consumer_keys (set_spotlights spotlights st)) [] _ H0)
    as [[Hid Hall] Hspot].
  cbv zeta in Hspot. split; [exact Hspot|].
  intros key e He Hv. rewrite Hspot. simpl.
  destruct (Hall key e He Hv) as (c & Hc & _ & Hpeer & _ & Hpaused & Hvisited).
  rewrite <- Hpaused, <- Hpeer.
  assert (key ∈ consumer_keys st) as Hin.
  { (* the keys of the map do not change while the SFU accepts everything *)
    clear -Hc Hkeys Hok.
    assert (forall keys st0,
              (forall k, is_Some (_consumers st0 !! k) -> k ∈ consumer_keys st) ->
              forall k,
              is_Some (_consumers
                (foldl (fun st1 key1 =>
                   match _consumers st1 !! key1 with
                   | Some consumer => spotlight_visit sfu _spotlights spotlights consumer st1
                   | None => st1
                   end) st0 keys) !! k) -> k ∈ consumer_keys st) as Hdom.
    { induction keys as [|k0 keys IH]; intros st0 H0 k; simpl; [apply H0|].
      apply IH. intros k' Hk'. apply H0.
      destruct (_consumers st0 !! k0) as [c0|]; [|done].
      revert Hk'. unfold spotlight_visit.
      destruct (String.eqb (kind c0) "video"); [|done].
      destruct (bool_decide _).
      - rewrite resume_ok by done.
        destruct (negb (paused c0) || closed c0); [done|]. simpl.
        rewrite lookup_alter_is_Some. done.
      - rewrite pause_ok by done.
        destruct (paused c0 || closed c0); [done|]. simpl.
        rewrite lookup_alter_is_Some. done. }
    eapply (Hdom (consumer_keys st) (set_spotlights spotlights st)).
    - intros k [c' Hc']. by apply (Hkeys k c').
    - by eexists. }
  specialize (Hvisited Hin). rewrite Hvisited. unfold in_spotlights.
  destruct (bool_decide_reflect (peerId c ∈ spotlights)); simpl; split;
    intros; try done.
Qed.

(** C3 (amended). When [updateSpotlights(spotlights)] has run to its end,
    on its own (its requests are awaited one after the other and nothing
    else, in particular no other [updateSpotlights], runs in between), with
    every pause and resume request accepted, from a state whose store
    mirrors the client's open video consumers, every video consumer of the
    store is locally paused exactly when its peer is outside the spotlights
    of the room state, which are the list passed in.  No consumer is closed
    on the way, so the Spotlights object is not called. *)
Theorem updateSpotlights_establishes sfu _spotlights spotlights st :
  (forall n r, sfu n r = Ok) ->
  mirrors st ->
  let st' := updateSpotlights sfu _spotlights spotlights st in
  room_spotlights st' = spotlights /\ spotlight_invariant st'.
Proof. apply updateSpotlights_settles. Qed.

Lemma one_webcam_mirrors : mirrors one_webcam.
Proof.
  split.
  - intros key c Hc. unfold one_webcam in Hc. simpl in Hc.
    apply lookup_singleton_Some in Hc as [<- <-]. split; [done|].
    simpl. apply list_elem_of_here.
  - intros key e He _. unfold one_webcam in He. simpl in He.
    apply lookup_singleton_Some in He as [<- <-].
    eexists. split; [apply lookup_singleton_eq|]. done.
Qed.

Lemma two_peers_mirrors : mirrors two_peers.
Proof.
  split.
  - intros key c. unfold two_peers. cbn [_consumers consumer_keys]. intros Hc.
    repeat (apply lookup_insert_Some in Hc as [[<- <-]|[_ Hc]];
            [split; [done|set_solver]|]).
    apply lookup_singleton_Some in Hc as [<- <-]. split; [done|set_solver].
  - intros key e. unfold two_peers. cbn [_consumers store_consumers].
    intros He Hv.
    apply lookup_insert_Some in He as [[<- <-]|[_ He]];
      [eexists; split; [reflexivity|done]|].
    apply lookup_insert_Some in He as [[<- <-]|[_ He]]; [done|].
    apply lookup_singleton_Some in He as [<- <-].
    eexists; split; [reflexivity|done].
Qed.

(** The spotlight moves from [p2] to [p1]: the webcam of [p1] is resumed,
    that of [p2] is paused, and the equivalence holds afterwards. *)
Lemma updateSpotlights_establishes_witness :
  (forall n r, obliging n r = Ok)
  /\ mirrors two_peers
  /\ requests (updateSpotlights obliging silent ["p1"] two_peers)
     = [mkRequest "resumeConsumer" "c1"; mkRequest "pauseConsumer" "c3"]
  /\ room_spotlights (updateSpotlights obliging silent ["p1"] two_peers)
     = ["p1"]
  /\ spotlight_invariant (updateSpotlights obliging silent ["p1"] two_peers).
Proof.
  split; [done|]. split; [apply two_peers_mirrors|].
  split; [vm_compute; reflexivity|].
  apply (updateSpotlights_establishes obliging silent ["p1"] two_peers);
    [done | apply two_peers_mirrors].
Defined.

(** C3 as stated fails: after [modifyPeerConsumer("p1", "webcam", true)]
    the video consumer of [p1] is locally paused although [p1] is in the
    current spotlights. *)
Lemma spotlight_invariant_broken :
  spotlight_invariant (updateSpotlights obliging silent ["p1"] one_webcam)
  /\ store_consumers muted_in_spotlight !! "c1"
     = Some (mkEntry "p1" "video" true false)
  /\ room_spotlights muted_in_spotlight = ["p1"]
  /\ ~ spotlight_invariant muted_in_spotlight.
Proof.
  assert (store_consumers muted_in_spotlight !! "c1"
          = Some (mkEntry "p1" "video" true false)) as Hentry
    by (vm_compute; reflexivity).
  split; [|split; [exact Hentry|split; [reflexivity|]]].
  - apply (updateSpotlights_settles obliging silent ["p1"] one_webcam);
      [done | apply one_webcam_mirrors].
  - intros Hinv. destruct (Hinv "c1" _ Hentry eq_refl) as [Hout _].
    apply (Hout eq_refl). simpl. apply list_elem_of_here.
Qed.

End ConsumersFacts.

(** ** The microphone *)

Module MicFacts.
Import Mic.

Lemma updateMic_catch_refused message st :
  updateMic_catch message None st = refused message st.
Proof. reflexivity. Qed.

Lemma truthy_nonempty d : d <> EmptyString -> truthy (Some d) = true.
Proof.
  intros Hd. unfold truthy. by destruct (String.eqb_spec d EmptyString).
Qed.

Lemma updateMic_guard env s d st :
  d <> EmptyString ->
  updateMic env (mkArgs s (Some false) (Some d)) st
  = refused (match canProduceAudio st with
             | Some true => "changing device requires restart"
             | Some false => "cannot produce audio"
             | None => "TypeError"
             end) st.
Proof.
  intros Hd. unfold updateMic. cbn [newDeviceId restart default].
  rewrite (truthy_nonempty d Hd).
  by destruct (canProduceAudio st) as [[|]|].
Qed.

(** C8 (amended). [updateMic({ newDeviceId: d, restart: false })] with a
    non-empty [d], whatever [start] is: on a device that can produce audio
    the [try] block throws "changing device requires restart" (on one that
    cannot, "cannot produce audio" is thrown first); the error is caught,
    logged and surfaced as the microphone-error notification, the
    in-progress flag is lowered, and nothing else happens: the mic producer,
    its track and the store's producers are as before, and no getUserMedia,
    no produce and no disableMic took place. *)
Theorem updateMic_device_change_requires_restart env s d st :
  d <> EmptyString ->
  let st' := updateMic env (mkArgs s (Some false) (Some d)) st in
  (canProduceAudio st = Some true ->
   st' = refused "changing device requires restart" st)
  /\ (canProduceAudio st = Some false -> st' = refused "cannot produce audio" st)
  /\ _micProducer st' = _micProducer st
  /\ store_producers st' = store_producers st
  /\ selectedAudioDevice st' = selectedAudioDevice st
  /\ audioInProgress st' = false
  /\ (exists message,
        effects st'
        = effects st ++ [LogError message; Notify "devices.microphoneError"])
  /\ filter acquires (effects st') = filter acquires (effects st)
  /\ filter disables (effects st') = filter disables (effects st).
Proof.
  intros Hd. cbv zeta. rewrite (updateMic_guard env s d st Hd).
  split; [by intros ->|]. split; [by intros ->|].
  do 4 (split; [done|]).
  split; [eexists; unfold refused; simpl; by rewrite <- app_assoc|].
  unfold refused. simpl. rewrite <- !app_assoc, !filter_app. simpl.
  by rewrite !app_nil_r.
Qed.

Lemma updateMic_device_change_requires_restart_witness :
  "usb" <> EmptyString
  /\ updateMic friendly (mkArgs None (Some false) (Some "usb")) producing
     = refused "changing device requires restart" producing.
Proof.
  split; [discriminate|].
  destruct (updateMic_device_change_requires_restart friendly None "usb"
              producing) as (H & _); [discriminate|].
  apply H. reflexivity.
Defined.

(** C8 as stated fails: on a device that cannot produce audio the call
    fails with "cannot produce audio"; and with the empty device id
    it does not fail at all and re-applies the constraints to the track of
    the existing producer and to that of the hark stream. *)
Lemma updateMic_other_outcomes :
  effects (updateMic friendly (mkArgs None (Some false) (Some "usb")) cannot_produce)
  = [LogError "cannot produce audio"; Notify "devices.microphoneError"]
  /\ (LogError "changing device requires restart"
      ∉ effects (updateMic friendly (mkArgs None (Some false) (Some "usb"))
                   cannot_produce))
  /\ effects (updateMic friendly (mkArgs None (Some false) (Some EmptyString)) producing)
     = [EnumerateDevices; ApplyConstraints "track-0";
        ApplyConstraints (clone "track-0"); EnumerateDevices].
Proof.
  split; [reflexivity|]. split; [|reflexivity].
  intros Hin. vm_compute in Hin.
  apply elem_of_cons in Hin as [Hin|Hin]; [discriminate|].
  apply elem_of_cons in Hin as [Hin|Hin]; [discriminate|].
  by apply elem_of_nil in Hin.
Qed.

(** C9. With a mic producer in place, [muteMic()] followed by
    [unmuteMic()] leaves that same producer, resumed, in [_micProducer];
    nothing was acquired or produced on the way and the store holds the
    same producers as before, whatever the SFU answered.  [unmuteMic]
    hands over to [updateMic({ start: true })] exactly when there is no mic
    producer. *)
Theorem mute_unmute_roundtrip env st p :
  _micProducer st = Some p ->
  (exists st1,
     muteMic env st = Returned st1
     /\ _micProducer st1 = Some (mark_paused true p)
     /\ unmuteMic env st1 = unmuteMic_producing env (mark_paused true p) st1
     /\ _micProducer (unmuteMic env st1) = Some (mkProducer (id p) false (track p))
     /\ filter acquires (effects (unmuteMic env st1))
        = filter acquires (effects st)
     /\ dom (store_producers (unmuteMic env st1)) = dom (store_producers st))
  /\ (forall st0, _micProducer st0 = None ->
        unmuteMic env st0 = updateMic env (mkArgs (Some true) None None) st0)
  /\ (forall st0 q, _micProducer st0 = Some q ->
        unmuteMic env st0 = unmuteMic_producing env q st0).
Proof.
  intros Hp. split; [|split].
  - exists (muteMic_producing env p st).
    split; [unfold muteMic; by rewrite Hp|].
    assert (_micProducer (muteMic_producing env p st) = Some (mark_paused true p))
      as Hp1.
    { unfold muteMic_producing, sendRequest. by destruct (sfu env _ _ _). }
    split; [done|]. split; [unfold unmuteMic; by rewrite Hp1|].
    unfold unmuteMic. rewrite Hp1.
    unfold unmuteMic_producing, muteMic_producing, sendRequest.
    destruct (sfu env (length (effects (set_micProducer _ st))) _ _);
      match goal with |- context [sfu env ?n ?m ?i] =>
        destruct (sfu env n m i) end;
      simpl; rewrite <- ?app_assoc, !filter_app; simpl;
      rewrite ?app_nil_r, ?dom_alter_L; done.
  - intros st0 H0. unfold unmuteMic. by rewrite H0.
  - intros st0 q H0. unfold unmuteMic. by rewrite H0.
Qed.

Lemma mute_unmute_roundtrip_witness :
  _micProducer producing = Some (mkProducer "mic-1" false "track-0")
  /\ exists st1,
       muteMic friendly producing = Returned st1
       /\ _micProducer (unmuteMic friendly st1)
          = Some (mkProducer "mic-1" false "track-0").
Proof.
  split; [reflexivity|].
  destruct (mute_unmute_roundtrip friendly producing
              (mkProducer "mic-1" false "track-0"))
    as ((st1 & H1 & _ & _ & H2 & _) & _); [reflexivity|].
  exists st1. split; [exact H1 | exact H2].
Defined.

End MicFacts.

(** * Further properties *)

(** ** The signaling request loop, continued *)

Module SignalingMore.
Import Signaling SignalingFacts.

#[local] Arguments attempt : simpl never.

(** X1. With a non-negative timeout and retry count, [sendRequest] always
    settles, after at most [requestRetries] attempts; an attempt is followed
    by another one only if it timed out; an error that is not a timeout is
    handed to the caller as it is and ends the call; and the call settles
    within [requestTimeout * requestRetries] ms. *)
Theorem sendRequest_retry_discipline config socket net request :
  (0 <= requestTimeout config)%Z -> (0 <= requestRetries config)%Z ->
  exists o, sendRequest config socket net request = Some o
    /\ (Z.of_nat (attempts o) <= requestRetries config)%Z
    /\ (forall k, (S k < attempts o)%nat ->
          timed_out (attempt config socket net request k) = true)
    /\ (forall k e, (k < attempts o)%nat ->
          attempt config socket net request k = Rejected e ->
          instanceof_SocketTimeoutError e = false ->
          result o = Rejected e /\ attempts o = S k)
    /\ (elapsed o <= requestTimeout config * requestRetries config)%Z.
Proof. apply sendRequest_contract. Qed.

Lemma sendRequest_retry_discipline_witness :
  (0 <= 5000)%Z /\ (0 <= 3)%Z
  /\ exists o, sendRequest (mkConfig 5000 3) true silent
                 (mkRequest "restartIce" "t1") = Some o
               /\ (elapsed o <= 5000 * 3)%Z.
Proof.
  split; [lia|]. split; [lia|].
  destruct (sendRequest_retry_discipline (mkConfig 5000 3) true silent
              (mkRequest "restartIce" "t1"))
    as (o & Ho & _ & _ & _ & Ht); [simpl; lia | simpl; lia |].
  exists o. split; [exact Ho | exact Ht].
Defined.

(** X2. Without a signaling socket the call is rejected at once with
    ['No socket connection']: one attempt, no waiting and no retry. *)
Theorem sendRequest_without_socket config net request :
  (0 < requestRetries config)%Z ->
  sendRequest config false net request
  = Some (mkOutcome (Rejected (OtherError "No socket connection")) 1 0).
Proof.
  intros HR. unfold sendRequest.
  destruct (Z.to_nat (requestRetries config)) as [|fuel] eqn:Hfuel; [lia|].
  cbn [sendRequest_loop].
  assert ((0 <? requestRetries config)%Z = true) as -> by (by apply Z.ltb_lt).
  reflexivity.
Qed.

Lemma sendRequest_without_socket_witness :
  (0 < 3)%Z
  /\ sendRequest (mkConfig 5000 3) false silent (mkRequest "join" "r1")
     = Some (mkOutcome (Rejected (OtherError "No socket connection")) 1 0).
Proof.
  split; [lia|].
  apply (sendRequest_without_socket (mkConfig 5000 3) silent
           (mkRequest "join" "r1")).
  simpl. lia.
Defined.

Lemma sendRequest_loop_first_answer config net request k :
  forall fuel tries sent time,
  (k < fuel)%nat ->
  (tries + Z.of_nat k < requestRetries config)%Z ->
  (forall j, (j < k)%nat ->
     timed_out (attempt config true net request (sent + j)) = true) ->
  timed_out (attempt config true net request (sent + k)) = false ->
  sendRequest_loop config true net request fuel tries sent time
  = Some (mkOutcome (attempt config true net request (sent + k))
            (S (sent + k))
            (time + timer_delay (requestTimeout config) * Z.of_nat k
             + fst (_sendRequest config true (net request (sent + k))))).
Proof.
  induction k as [|k IH]; intros fuel tries sent time Hfuel Htries Hbefore Hk.
  - destruct fuel as [|fuel]; [lia|]. cbn [sendRequest_loop].
    assert ((tries <? requestRetries config)%Z = true) as ->
      by (apply Z.ltb_lt; lia).
    rewrite Nat.add_0_r in *. unfold attempt in *.
    destruct (_sendRequest config true (net request sent)) as [dt settled].
    simpl in *. destruct settled as [response|error]; simpl in *.
    + do 2 f_equal. lia.
    + rewrite Hk. simpl. do 2 f_equal. lia.
  - destruct fuel as [|fuel]; [lia|]. cbn [sendRequest_loop].
    assert ((tries <? requestRetries config)%Z = true) as Hcond
      by (apply Z.ltb_lt; lia).
    rewrite Hcond.
    pose proof (Hbefore 0%nat ltac:(lia)) as H0. rewrite Nat.add_0_r in H0.
    rewrite (_sendRequest_timeout_time config (net request sent) H0).
    simpl. rewrite (IH fuel (tries + 1)%Z (S sent)).
    + replace (S sent + k)%nat with (sent + S k)%nat by lia.
      do 2 f_equal. lia.
    + lia.
    + lia.
    + intros j Hj. replace (S sent + j)%nat with (sent + S j)%nat by lia.
      apply Hbefore. lia.
    + replace (S sent + k)%nat with (sent + S k)%nat by lia. exact Hk.
Qed.

(** X3. The first attempt that does not time out decides the call: if
    attempts [0 .. k-1] time out, [k] is still within [requestRetries] and
    attempt [k] is answered (or refused), the call settles as attempt [k]
    did, after [k + 1] attempts and [k] full timeouts plus the delay of the
    answer. *)
Theorem sendRequest_first_answer_decides config net request k :
  (Z.of_nat k < requestRetries config)%Z ->
  (forall j, (j < k)%nat ->
     timed_out (attempt config true net request j) = true) ->
  timed_out (attempt config true net request k) = false ->
  sendRequest config true net request
  = Some (mkOutcome (attempt config true net request k) (S k)
            (timer_delay (requestTimeout config) * Z.of_nat k
             + fst (_sendRequest config true (net request k)))).
Proof.
  intros HR Hbefore Hk. unfold sendRequest.
  rewrite (sendRequest_loop_first_answer config net request k); try done; lia.
Qed.

(** The second emit is acknowledged after 10 ms. *)
Lemma sendRequest_first_answer_decides_witness :
  sendRequest (mkConfig 5000 3) true
    (fun _ k => if Nat.eqb k 1 then AckAfter 10 None (Some "ok") else NoAck)
    (mkRequest "join" "r1")
  = Some (mkOutcome (Resolved (Some "ok")) 2 5010).
Proof.
  apply (sendRequest_first_answer_decides (mkConfig 5000 3)
           (fun _ k => if Nat.eqb k 1 then AckAfter 10 None (Some "ok") else NoAck)
           (mkRequest "join" "r1") 1).
  - simpl. lia.
  - intros j Hj. assert (j = 0)%nat as -> by lia. reflexivity.
  - reflexivity.
Defined.

End SignalingMore.

(** ** Resolution scalings, continued *)

Module ScalingsMore.
Import Scalings ScalingsFacts.

Lemma pow2_at_least_one k : (0 <= k)%Z -> (1 <= pow2 k)%Q.
Proof.
  intros Hk. unfold pow2, Qle. simpl.
  pose proof (Z.pow_pos_nonneg 2 k ltac:(lia) Hk). lia.
Qed.

Lemma halving_ladder_at_least_one n :
  Forall (fun s => (1 <= s)%Q) (halving_ladder n).
Proof.
  unfold halving_ladder. apply Forall_forall. intros s Hs.
  apply list_elem_of_In, in_map_iff in Hs as (i & <- & Hi). apply in_seq in Hi.
  apply pow2_at_least_one. lia.
Qed.

Lemma max1_at_least_one s : (1 <= max1 s)%Q.
Proof.
  unfold max1. destruct (Qle_bool s 1) eqn:E; [apply Qle_refl|].
  apply Qlt_le_weak, Qnot_le_lt. rewrite <- Qle_bool_iff. congruence.
Qed.

Lemma getResolutionScalings_cases parse encodings :
  getResolutionScalings parse encodings
  = match encodings with
    | [e] => halving_ladder (spatialLayers (parse (scalabilityMode e)))
    | _ => if existsb defines_scale encodings
           then map clamped encodings
           else halving_ladder (length encodings)
    end.
Proof.
  unfold getResolutionScalings. destruct encodings as [|e0 [|e1 rest]].
  - reflexivity.
  - apply svc_loop_ladder.
  - rewrite simulcast_pass1_eq.
    destruct (existsb defines_scale (e0 :: e1 :: rest)); simpl negb; cbv iota;
      [reflexivity|].
    replace (length (e0 :: e1 :: rest))
      with (length (map clamped (e0 :: e1 :: rest))) at 1 by apply length_map.
    by rewrite simulcast_pass2_ladder, length_map.
Qed.

(** X4. Whatever the encodings, every scaling that [getResolutionScalings]
    returns is at least 1, and there is one per encoding, or one per parsed
    spatial layer for a single encoding. *)
Theorem getResolutionScalings_at_least_one parse encodings :
  Forall (fun s => (1 <= s)%Q) (getResolutionScalings parse encodings)
  /\ length (getResolutionScalings parse encodings)
     = match encodings with
       | [e] => spatialLayers (parse (scalabilityMode e))
       | _ => length encodings
       end.
Proof.
  rewrite getResolutionScalings_cases.
  assert (forall n, length (halving_ladder n) = n) as Hlen
    by (intros n; unfold halving_ladder; by rewrite length_map, length_seq).
  assert (Forall (fun s => (1 <= s)%Q) (map clamped encodings)) as Hclamped.
  { apply Forall_forall. intros s Hs.
    apply list_elem_of_In, in_map_iff in Hs as (e & <- & _).
    unfold clamped. destruct (scaleResolutionDownBy e);
      [apply max1_at_least_one | apply Qle_refl]. }
  destruct encodings as [|e0 [|e1 rest]].
  - split; [constructor | reflexivity].
  - split; [apply halving_ladder_at_least_one | apply Hlen].
  - destruct (existsb defines_scale (e0 :: e1 :: rest)).
    + split; [exact Hclamped | apply length_map].
    + split; [apply halving_ladder_at_least_one | apply Hlen].
Qed.

End ScalingsMore.

(** ** Preferred-layer adaptation, continued *)

Module LayersMore.
Import Layers LayersFacts LayersStore.

Lemma spatial_loop_ge F w h vw vh scalings : forall i p,
  (p <= i)%nat -> (p <= spatial_loop F w h vw vh scalings i p)%nat.
Proof.
  induction scalings as [|s rest IH]; intros i p Hp; simpl; [lia|].
  destruct (level_fits F w h vw vh s); [|lia].
  etrans; [exact Hp|]. apply IH. lia.
Qed.

Lemma js_ge_mono v v' x : (v <= v')%Q -> js_ge v x = true -> js_ge v' x = true.
Proof.
  intros Hv. destruct x as [q| | |]; simpl; try done.
  rewrite !Qle_bool_iff. intros Hq. by eapply Qle_trans.
Qed.

Lemma level_fits_viewport F w h vw vh vw' vh' s :
  (vw <= vw')%Q -> (vh <= vh')%Q ->
  level_fits F w h vw vh s = true -> level_fits F w h vw' vh' s = true.
Proof.
  intros Hw Hh. unfold level_fits. rewrite !orb_true_iff.
  intros [H|H]; [left | right]; eapply js_ge_mono; eauto.
Qed.

Lemma spatial_loop_viewport F w h vw vh vw' vh' scalings : forall i p,
  (vw <= vw')%Q -> (vh <= vh')%Q -> (p <= i)%nat ->
  (spatial_loop F w h vw vh scalings i p
   <= spatial_loop F w h vw' vh' scalings i p)%nat.
Proof.
  induction scalings as [|s rest IH]; intros i p Hw Hh Hp; simpl; [lia|].
  destruct (level_fits F w h vw vh s) eqn:Hs.
  - rewrite (level_fits_viewport F w h vw vh vw' vh' s Hw Hh Hs).
    apply IH; try done. lia.
  - destruct (level_fits F w h vw' vh' s); [|lia].
    etrans; [exact Hp|]. apply spatial_loop_ge. lia.
Qed.

(** X5. A larger viewport never lowers the spatial layer that is chosen. *)
Theorem newPreferredSpatialLayer_monotone configured consumer vw vh vw' vh' :
  (vw <= vw')%Q -> (vh <= vh')%Q ->
  (newPreferredSpatialLayer configured consumer vw vh
   <= newPreferredSpatialLayer configured consumer vw' vh')%nat.
Proof.
  intros Hw Hh. unfold newPreferredSpatialLayer.
  by apply spatial_loop_viewport.
Qed.

Lemma newPreferredSpatialLayer_monotone_witness :
  (320 <= 1920)%Q /\ (180 <= 1080)%Q
  /\ (newPreferredSpatialLayer None (example_consumer 0 2) 320 180
      <= newPreferredSpatialLayer None (example_consumer 0 2) 1920 1080)%nat.
Proof.
  split; [discriminate|]. split; [discriminate|].
  apply (newPreferredSpatialLayer_monotone None (example_consumer 0 2)
           320 180 1920 1080); discriminate.
Defined.

Lemma newPreferredSpatialLayer_in_range configured consumer vw vh :
  (Z.of_nat (newPreferredSpatialLayer configured consumer vw vh)
   < Z.max 1 (Z.of_nat (length (resolutionScalings consumer))))%Z.
Proof.
  unfold newPreferredSpatialLayer.
  pose proof (spatial_loop_run (adaptiveScalingFactor configured)
                (width consumer) (height consumer) vw vh
                (resolutionScalings consumer) 0 0) as H.
  destruct (resolutionScalings consumer) as [|s rest]; [rewrite H; simpl; lia|].
  destruct (level_fits _ _ _ _ _ s); [|rewrite H; simpl length; lia].
  destruct H as (H & _). lia.
Qed.

Lemma newPreferredTemporalLayer_in_range consumer vw vh spatial :
  let t := newPreferredTemporalLayer consumer vw vh spatial in
  (temporalLayers consumer - 3 <= t)%Z
  /\ (t <= temporalLayers consumer - 1)%Z
  /\ (1 <= temporalLayers consumer -> 0 <= t)%Z.
Proof.
  cbv zeta. unfold newPreferredTemporalLayer.
  destruct (Nat.eqb spatial 0 && (0 <? temporalLayers consumer - 1)%Z) eqn:E;
    [|lia].
  apply andb_true_iff in E as [_ E]. apply Z.ltb_lt in E.
  destruct (js_lt vw _ && js_lt vh _).
  - destruct ((0 <? temporalLayers consumer - 1 - 1)%Z) eqn:E2.
    + apply Z.ltb_lt in E2. simpl. destruct (js_lt vw _ && js_lt vh _); lia.
    + simpl. lia.
  - rewrite (proj2 (Z.ltb_lt _ _) E). simpl.
    destruct (js_lt vw _ && js_lt vh _); lia.
Qed.

(** X6. A request sent by [adaptConsumerPreferredLayers] names the consumer
    it was given, a spatial layer that indexes its scalings (layer 0 when
    there are none) and a temporal layer at most two below the top one,
    never negative when the consumer has a temporal layer at all. *)
Theorem adaptConsumerPreferredLayers_in_range configured consumer vw vh request :
  adaptConsumerPreferredLayers configured consumer vw vh = Some request ->
  consumerId request = id consumer
  /\ (0 <= spatialLayer request)%Z
  /\ (spatialLayer request
      < Z.max 1 (Z.of_nat (length (resolutionScalings consumer))))%Z
  /\ (temporalLayers consumer - 3 <= temporalLayer request)%Z
  /\ (temporalLayer request <= temporalLayers consumer - 1)%Z
  /\ (1 <= temporalLayers consumer -> 0 <= temporalLayer request)%Z.
Proof.
  unfold adaptConsumerPreferredLayers.
  destruct (String.eqb (type consumer) "simple"); [done|].
  destruct (Qeq_bool vw 0 || Qeq_bool vh 0); [done|].
  destruct (negb _ || negb _); [|done]. intros [= <-]. simpl.
  pose proof (newPreferredSpatialLayer_in_range configured consumer vw vh).
  pose proof (newPreferredTemporalLayer_in_range consumer vw vh
                (newPreferredSpatialLayer configured consumer vw vh)) as Ht.
  cbv zeta in Ht. split; [done|]. split; [lia|]. split; [done|]. exact Ht.
Qed.

Lemma adaptConsumerPreferredLayers_in_range_witness :
  adaptConsumerPreferredLayers None (example_consumer 2 2) 320 180
  = Some (mkLayersRequest "c1" 0 2)
  /\ (0 < Z.max 1 3)%Z.
Proof.
  split; [reflexivity|].
  destruct (adaptConsumerPreferredLayers_in_range None (example_consumer 2 2)
              320 180 (mkLayersRequest "c1" 0 2)) as (_ & _ & H & _);
    [reflexivity|].
  exact H.
Defined.

(** X7. Once the store has taken over the layers that
    [adaptConsumerPreferredLayers] asked for, the same viewport asks for
    nothing more: the adaptation settles in one step. *)
Theorem adaptConsumerPreferredLayers_settles configured consumer vw vh :
  adaptConsumerPreferredLayers configured (adapted configured consumer vw vh)
    vw vh = None.
Proof.
  unfold adapted.
  destruct (adaptConsumerPreferredLayers configured consumer vw vh)
    as [request|] eqn:Hreq; [|exact Hreq].
  set (n := newPreferredSpatialLayer configured consumer vw vh).
  set (t := newPreferredTemporalLayer consumer vw vh n).
  assert (String.eqb (type consumer) "simple" = false
          /\ Qeq_bool vw 0 || Qeq_bool vh 0 = false
          /\ request = mkLayersRequest (id consumer) (Z.of_nat n) t)
    as (Htype & Hzero & ->).
  { revert Hreq. unfold adaptConsumerPreferredLayers.
    destruct (String.eqb (type consumer) "simple"); [done|].
    destruct (Qeq_bool vw 0 || Qeq_bool vh 0); [done|].
    destruct (negb _ || negb _); [|done]. by intros [= <-]. }
  unfold setConsumerPreferredLayers.
  cbn [consumerId spatialLayer temporalLayer]. rewrite String.eqb_refl.
  set (c' := mkConsumer _ _ _ _ _ _ _ _).
  unfold adaptConsumerPreferredLayers.
  change (type c') with (type consumer). rewrite Htype, Hzero.
  change (newPreferredSpatialLayer configured c' vw vh) with n.
  change (newPreferredTemporalLayer c' vw vh n) with t.
  change (preferredSpatialLayer c') with (Z.of_nat n).
  change (preferredTemporalLayer c') with t.
  by rewrite !Z.eqb_refl.
Qed.

End LayersMore.


(** ** From the encodings of a producer to the layer of its consumer *)

Module ScalingsLayers.
Import Scalings ScalingsFacts ScalingsMore.





End ScalingsLayers.

(** ** The ICE restart controller, continued *)

Module IceMoreFacts.
Import Ice IceFacts IceMore.

(** X9. A transport that recovers before the delay has run out is not
    restarted.  From a state with no timer armed and no attempt in flight:
    when [restartIce] has armed its timer and the connection state then
    changes to anything but ['disconnected'] or ['failed'], no timer and no
    attempt is left, nothing has been requested, and the only thing that can
    happen to the controller next is another change of the connection
    state. *)
Theorem recovery_cancels_restart transport delay connectState s :
  timers s = [] ->
  pending s = [] ->
  String.eqb connectState "disconnected" = false ->
  String.eqb connectState "failed" = false ->
  let s' := on_connectionstatechange transport connectState
              (restartIce transport delay s) in
  timers s' = []
  /\ pending s' = []
  /\ log s' = log s
  /\ restarting s' = restarting s
  /\ (forall fuel, next_request_time transport fuel s' = None)
  /\ (forall s'', step transport s' s'' ->
        exists connectState',
          s'' = on_connectionstatechange transport connectState' s').
Proof.
  intros Hts Hps Hd Hf. cbv zeta.
  assert (on_connectionstatechange transport connectState
            (restartIce transport delay s)
          = clearTimeout (restartIce transport delay s)) as ->
    by (unfold on_connectionstatechange; by rewrite Hd, Hf).
  assert (timers (clearTimeout (restartIce transport delay s)) = []) as Hnone.
  { assert (timers (clearTimeout s) = []) as Hclear
      by (unfold clearTimeout; destruct (timer s); simpl; by rewrite Hts).
    unfold restartIce. destruct transport as [tr|]; [|exact Hclear].
    unfold setTimeout. unfold clearTimeout at 1. cbn [timer timers].
    rewrite Hclear. cbn [app]. by apply filter_out_single. }
  destruct (clearTimeout_keeps (restartIce transport delay s)) as (Hr & Hp & Hl).
  destruct (restartIce_keeps transport delay s) as (Hr' & Hp' & Hl').
  assert (pending (clearTimeout (restartIce transport delay s)) = [])
    as Hidle by congruence.
  split; [exact Hnone|]. split; [exact Hidle|].
  split; [congruence|]. split; [congruence|]. split.
  - intros [|fuel]; [done|]. simpl. unfold run_next. by rewrite Hnone.
  - intros s'' Hstep. inversion Hstep as [cs|t s0 Hin|i ok at_ s0 Hi]; subst.
    + by exists cs.
    + rewrite Hnone in Hin. by apply elem_of_nil in Hin.
    + rewrite Hidle in Hi. simpl in Hi. lia.
Qed.

Lemma recovery_cancels_restart_witness :
  timers init = [] /\ pending init = []
  /\ next_request_time (Some "send-1") 5
       (on_connectionstatechange (Some "send-1") "connected"
          (restartIce (Some "send-1") 2000 init)) = None.
Proof.
  split; [reflexivity|]. split; [reflexivity|].
  destruct (recovery_cancels_restart (Some "send-1") 2000 "connected" init)
    as (_ & _ & _ & _ & H & _);
    [reflexivity | reflexivity | reflexivity | reflexivity |].
  apply H.
Defined.






End IceMoreFacts.

(** ** Consumers: closing, pausing and the departure of a peer *)

Module ConsumersMoreFacts.
Import Consumers ConsumersMore.

Lemma closeConsumer_cases _spotlights consumerId st :
  let st1 := call_spotlights _spotlights (removeVideoConsumer consumerId) st in
  (_consumers st !! consumerId = None
   /\ _closeConsumer _spotlights consumerId st = st1)
  \/ (is_Some (_consumers st !! consumerId)
      /\ _closeConsumer _spotlights consumerId st
         = mkState (delete consumerId (_consumers st1))
             (filter (fun k => k <> consumerId) (consumer_keys st1))
             (delete consumerId (store_consumers st1))
             (room_spotlights st1) (room_selectedPeers st1) (requests st1)
             (spotlights_calls st1)).
Proof.
  cbv zeta. unfold _closeConsumer.
  destruct (_consumers st !! consumerId) eqn:H.
  - right. split; [by eexists|done].
  - by left.
Qed.

(** X11. [_closeConsumer] tells the Spotlights object first, also about a
    consumer it does not know, for which it does nothing else.  A consumer
    that it knew before that call is afterwards in neither the map, its keys
    nor the store, whatever the Spotlights object did to the client during
    the call; every other consumer and store entry, the spotlights and the
    requests sent are as that call left them. *)
Theorem closeConsumer_removes _spotlights consumerId st :
  let st1 := call_spotlights _spotlights (removeVideoConsumer consumerId) st in
  let st' := _closeConsumer _spotlights consumerId st in
  (_consumers st !! consumerId = None -> st' = st1)
  /\ (is_Some (_consumers st !! consumerId) ->
      _consumers st' !! consumerId = None
      /\ (consumerId ∉ consumer_keys st')
      /\ store_consumers st' !! consumerId = None
      /\ (forall key, key <> consumerId ->
            _consumers st' !! key = _consumers st1 !! key
            /\ store_consumers st' !! key = store_consumers st1 !! key
            /\ (key ∈ consumer_keys st' <-> key ∈ consumer_keys st1))
      /\ room_spotlights st' = room_spotlights st1
      /\ requests st' = requests st1
      /\ spotlights_calls st' = spotlights_calls st1).
Proof.
  cbv zeta.
  destruct (closeConsumer_cases _spotlights consumerId st)
    as [[Hn ->]|[Hs ->]].
  - split; [done|]. intros [c Hc]. congruence.
  - split; [intros Hn; destruct Hs as [c Hc]; congruence|]. intros _.
    cbn [_consumers consumer_keys store_consumers requests room_spotlights
         spotlights_calls].
    split; [apply lookup_delete_eq|].
    split; [rewrite list_elem_of_filter; tauto|].
    split; [apply lookup_delete_eq|].
    split; [|done].
    intros key Hne. rewrite !lookup_delete_ne by done.
    split; [done|]. split; [done|]. rewrite list_elem_of_filter. tauto.
Qed.

Lemma same_at_trans key st1 st2 st3 :
  same_at key st1 st2 -> same_at key st2 st3 -> same_at key st1 st3.
Proof. intros [H1 H2] [H3 H4]. split; congruence. Qed.

Section KnownConsumers.
Variable sfu : nat -> Request -> Reply.
Variable _spotlights : nat -> SpotlightsCall -> State -> State.
Hypothesis sfu_knows : knows_consumers sfu.

(** A pause or a resume of [c] does nothing to the consumer and the store
    entry under another key. *)
Lemma pauseConsumer_same_at c key st :
  key <> id c -> same_at key st (_pauseConsumer sfu _spotlights c st).
Proof.
  intros Hne. unfold _pauseConsumer, sendRequest.
  destruct (paused c || closed c); [done|].
  fold (sent (mkRequest "pauseConsumer" (id c)) st).
  destruct (sfu _ _) as [|[|]] eqn:Hsfu.
  - split; simpl; by rewrite lookup_alter_ne.
  - by apply sfu_knows in Hsfu.
  - done.
Qed.

Lemma resumeConsumer_same_at c initial key st :
  key <> id c -> same_at key st (_resumeConsumer sfu _spotlights c initial st).
Proof.
  intros Hne. unfold _resumeConsumer, sendRequest.
  destruct (negb initial && negb (paused c) || closed c); [done|].
  fold (sent (mkRequest "resumeConsumer" (id c)) (mark_paused false c st)).
  destruct (sfu _ _) as [|[|]] eqn:Hsfu.
  - split; simpl; by rewrite lookup_alter_ne.
  - by apply sfu_knows in Hsfu.
  - split; simpl; [by rewrite lookup_alter_ne|done].
Qed.

Lemma alter_keyed f key st :
  (forall c, id (f c) = id c) ->
  keyed st -> keyed (set_consumers (alter f key (_consumers st)) st).
Proof.
  intros Hf Hk k c. simpl. destruct (decide (key = k)) as [->|Hne].
  - rewrite lookup_alter_eq.
    destruct (_consumers st !! k) as [c0|] eqn:Hc0; [|done].
    simpl. intros [= <-]. rewrite Hf. by apply Hk.
  - rewrite lookup_alter_ne by done. apply Hk.
Qed.

Lemma pauseConsumer_keyed c st :
  keyed st -> keyed (_pauseConsumer sfu _spotlights c st).
Proof.
  intros Hk. unfold _pauseConsumer, sendRequest.
  destruct (paused c || closed c); [done|].
  fold (sent (mkRequest "pauseConsumer" (id c)) st).
  destruct (sfu _ _) as [|[|]] eqn:Hsfu.
  - apply (alter_keyed _ (id c) st); done.
  - by apply sfu_knows in Hsfu.
  - done.
Qed.

Lemma resumeConsumer_keyed c initial st :
  keyed st -> keyed (_resumeConsumer sfu _spotlights c initial st).
Proof.
  intros Hk. unfold _resumeConsumer, sendRequest.
  destruct (negb initial && negb (paused c) || closed c); [done|].
  pose proof (alter_keyed
                (fun c => mkConsumer (id c) (kind c) (peerId c) (source c)
                            false (closed c)) (id c) st (fun _ => eq_refl) Hk)
    as Hk'.
  destruct (sfu _ _) as [|[|]] eqn:Hsfu; [exact Hk'| |exact Hk'].
  by apply sfu_knows in Hsfu.
Qed.

End KnownConsumers.

Lemma visit_keys_same_at body key c :
  (forall c0 st, keyed st -> keyed (body c0 st)) ->
  (forall c0 st, key <> id c0 -> same_at key st (body c0 st)) ->
  (forall st, same_at key st (body c st)) ->
  forall keys st,
    keyed st -> _consumers st !! key = Some c ->
    same_at key st (visit_keys body keys st).
Proof.
  intros Hkeyed Hframe Hskip.
  induction keys as [|key0 keys IH]; intros st Hk Hc; [done|].
  cbn [visit_keys foldl].
  destruct (_consumers st !! key0) as [c0|] eqn:Hc0; [|by apply IH].
  assert (same_at key st (body c0 st)) as Hstep.
  { destruct (decide (key = key0)) as [->|Hne].
    - rewrite Hc in Hc0. injection Hc0 as <-. apply Hskip.
    - apply Hframe. rewrite (Hk key0 c0 Hc0). done. }
  eapply same_at_trans; [exact Hstep|]. apply IH; [by apply Hkeyed|].
  destruct Hstep as [-> _]. done.
Qed.

Lemma two_peers_keyed : keyed two_peers.
Proof.
  intros key c. unfold two_peers. cbn [_consumers]. intros Hc.
  repeat (apply lookup_insert_Some in Hc as [[<- <-]|[_ Hc]]; [done|]).
  apply lookup_singleton_Some in Hc as [<- <-]. done.
Qed.

Lemma two_peers_listed : listed two_peers.
Proof.
  intros key [c Hc]. unfold two_peers in *. cbn [_consumers consumer_keys] in *.
  repeat (apply lookup_insert_Some in Hc as [[<- <-]|[_ Hc]]; [set_solver|]).
  apply lookup_singleton_Some in Hc as [<- <-]. set_solver.
Qed.

(** X12. [modifyPeerConsumer(peerId, type, mute)] leaves alone every
    consumer that is not of that peer and source: as long as the SFU does
    not answer that it no longer knows a consumer (upon which
    [_closeConsumer] hands over to the Spotlights object), whether it
    accepts or rejects the requests, a consumer of another peer or another
    source is afterwards the same in the map and in the store. *)
Theorem modifyPeerConsumer_frame sfu _spotlights peer type mute st key c :
  knows_consumers sfu ->
  keyed st ->
  _consumers st !! key = Some c ->
  ~ (peerId c = peer /\ source c = type) ->
  let st' := modifyPeerConsumer sfu _spotlights peer type mute st in
  _consumers st' !! key = Some c
  /\ store_consumers st' !! key = store_consumers st !! key.
Proof.
  intros Hsfu Hk Hc Hother. cbv zeta.
  destruct (visit_keys_same_at (modify_visit sfu _spotlights peer type mute)
              key c)
    with (keys := consumer_keys st) (st := st) as [H1 H2]; try done.
  - intros c0 st0 Hk0. unfold modify_visit.
    destruct (_ && _); [|done].
    destruct mute; [by apply pauseConsumer_keyed|by apply resumeConsumer_keyed].
  - intros c0 st0 Hne. unfold modify_visit.
    destruct (_ && _); [|done].
    destruct mute;
      [by apply pauseConsumer_same_at|by apply resumeConsumer_same_at].
  - intros st0. unfold modify_visit.
    destruct (String.eqb_spec (peerId c) peer) as [Hp|Hp];
      destruct (String.eqb_spec (source c) type) as [Hs|Hs]; simpl; try done.
    tauto.
  - split; [|exact H2]. etrans; [exact H1|exact Hc].
Qed.

Lemma modifyPeerConsumer_frame_witness :
  knows_consumers obliging
  /\ keyed two_peers
  /\ requests (modifyPeerConsumer obliging silent "p1" "webcam" false two_peers)
     = [mkRequest "resumeConsumer" "c1"]
  /\ _consumers (modifyPeerConsumer obliging silent "p1" "webcam" false
                   two_peers) !! "c3"
     = Some (mkConsumer "c3" "video" "p2" "webcam" false false).
Proof.
  assert (knows_consumers obliging) as Hknows by (intros n r; discriminate).
  split; [exact Hknows|]. split; [exact two_peers_keyed|].
  split; [vm_compute; reflexivity|].
  destruct (modifyPeerConsumer_frame obliging silent "p1" "webcam" false
              two_peers "c3"
              (mkConsumer "c3" "video" "p2" "webcam" false false))
    as [H _]; [exact Hknows|exact two_peers_keyed|reflexivity| |exact H].
  intros [H _]. discriminate H.
Defined.

(** X13. [_pauseConsumer] keeps the store in step with the client: if the
    store mirrors the client's video consumers before the call, it does so
    after it, whether the SFU accepts the request or rejects it, as long as
    it does not answer that it no longer knows the consumer (upon which
    [_closeConsumer] hands over to the Spotlights object). *)
Theorem pauseConsumer_keeps_mirrors sfu _spotlights c st :
  sfu (length (requests st)) (mkRequest "pauseConsumer" (id c)) <> Failed true ->
  mirrors st -> mirrors (_pauseConsumer sfu _spotlights c st).
Proof.
  intros Hsfu Hm. unfold _pauseConsumer, sendRequest.
  destruct (paused c || closed c); [done|].
  fold (sent (mkRequest "pauseConsumer" (id c)) st).
  destruct (sfu _ _) as [|[|]]; [|done|done].
  destruct Hm as [Hkeys Hstore]. split; simpl.
  - intros key c0. destruct (decide (id c = key)) as [<-|Hne].
    + rewrite lookup_alter_eq.
      destruct (_consumers st !! id c) as [c1|] eqn:Hc1; [|done].
      simpl. intros [= <-]. simpl. by apply Hkeys.
    + rewrite lookup_alter_ne by done. apply Hkeys.
  - intros key e. destruct (decide (id c = key)) as [<-|Hne].
    + rewrite !lookup_alter_eq.
      destruct (store_consumers st !! id c) as [e1|] eqn:He1; [|done].
      simpl. intros [= <-] Hv. simpl in Hv.
      destruct (Hstore (id c) e1 He1 Hv) as (c1 & -> & ? & ? & ? & ?).
      eexists. split; [reflexivity|]. done.
    + rewrite !lookup_alter_ne by done. apply Hstore.
Qed.

Lemma pauseConsumer_keeps_mirrors_witness :
  mirrors two_peers
  /\ store_consumers
       (_pauseConsumer obliging silent
          (mkConsumer "c3" "video" "p2" "webcam" false false) two_peers)
       !! "c3"
     = Some (mkEntry "p2" "video" true false)
  /\ mirrors (_pauseConsumer obliging silent
                (mkConsumer "c3" "video" "p2" "webcam" false false)
                two_peers).
Proof.
  split; [apply ConsumersFacts.two_peers_mirrors|].
  split; [vm_compute; reflexivity|].
  apply pauseConsumer_keeps_mirrors;
    [discriminate|apply ConsumersFacts.two_peers_mirrors].
Defined.

(** X14. [_resumeConsumer] does not: the consumer is resumed before the
    SFU is asked, so when the SFU rejects the request (the consumer being
    known to it) the consumer runs while the store still shows it as locally
    paused. *)
Theorem resumeConsumer_rejected_desync sfu _spotlights c st e :
  _consumers st !! id c = Some c ->
  paused c = true -> closed c = false ->
  store_consumers st !! id c = Some e ->
  locallyPaused e = true ->
  sfu (length (requests st)) (mkRequest "resumeConsumer" (id c)) = Failed false ->
  let st' := _resumeConsumer sfu _spotlights c false st in
  (exists c', _consumers st' !! id c = Some c' /\ paused c' = false)
  /\ store_consumers st' !! id c = Some e
  /\ (entry_kind e = "video" -> ~ mirrors st').
Proof.
  intros Hc Hp Hcl He Hlp Hsfu. cbv zeta.
  unfold _resumeConsumer, sendRequest. rewrite Hp, Hcl. simpl.
  rewrite Hsfu. simpl. rewrite lookup_alter_eq, Hc. simpl.
  split; [by eexists|]. split; [done|].
  intros Hv [_ Hstore].
  destruct (Hstore (id c) e He Hv) as (c' & Hc' & _ & _ & _ & Hpaused).
  simpl in Hc'. rewrite lookup_alter_eq, Hc in Hc'. simpl in Hc'.
  injection Hc' as <-. simpl in Hpaused. congruence.
Qed.

Lemma resumeConsumer_rejected_desync_witness :
  mirrors two_peers
  /\ ~ mirrors (_resumeConsumer refusing silent
                  (mkConsumer "c1" "video" "p1" "webcam" true false) false
                  two_peers).
Proof.
  split; [apply ConsumersFacts.two_peers_mirrors|].
  destruct (resumeConsumer_rejected_desync refusing silent
              (mkConsumer "c1" "video" "p1" "webcam" true false) two_peers
              (mkEntry "p1" "video" true false))
    as (_ & _ & H); try reflexivity.
  by apply H.
Defined.

Lemma stems_from_refl st : stems_from st st.
Proof. split; [|done]. intros key c Hc. by exists c. Qed.

Lemma stems_from_trans st1 st2 st3 :
  stems_from st1 st2 -> stems_from st2 st3 -> stems_from st1 st3.
Proof.
  intros [Hm12 Hs12] [Hm23 Hs23]. split; [|auto].
  intros key c Hc. destruct (Hm23 key c Hc) as (c2 & Hc2 & Hid & Hpeer).
  destruct (Hm12 key c2 Hc2) as (c1 & Hc1 & Hid' & Hpeer').
  exists c1. split; [done|]. split; congruence.
Qed.

Lemma stems_from_keyed st st' : stems_from st st' -> keyed st -> keyed st'.
Proof.
  intros [Hm _] Hk key c Hc. destruct (Hm key c Hc) as (c0 & Hc0 & <- & _).
  by apply Hk.
Qed.

Section PeerClosed.
Variable _spotlights : nat -> SpotlightsCall -> State -> State.
Hypothesis Hadds : adds_nothing _spotlights.
Hypothesis Hbacked : keeps_backed _spotlights.
Variable peer : string.

Lemma call_spotlights_stems call st :
  stems_from st (call_spotlights _spotlights call st)
  /\ (backed st -> backed (call_spotlights _spotlights call st)).
Proof.
  unfold call_spotlights. split.
  - eapply stems_from_trans; [|apply Hadds]. split; [|done].
    intros key c Hc. by exists c.
  - intros Hb. by apply Hbacked.
Qed.

Lemma closeConsumer_stems consumerId st :
  stems_from st (_closeConsumer _spotlights consumerId st)
  /\ (backed st -> backed (_closeConsumer _spotlights consumerId st))
  /\ (is_Some (_consumers st !! consumerId) ->
      _consumers (_closeConsumer _spotlights consumerId st) !! consumerId
      = None).
Proof.
  destruct (call_spotlights_stems (removeVideoConsumer consumerId) st)
    as [[Hm Hs] Hb].
  destruct (closeConsumer_cases _spotlights consumerId st)
    as [[Hn ->]|[Hk ->]].
  - split; [by split|]. split; [done|]. intros [c Hc]. congruence.
  - split; [|split].
    + split; cbn [_consumers store_consumers].
      * intros key c Hc. apply lookup_delete_Some in Hc as [_ Hc]. eauto.
      * intros key [e He]. apply lookup_delete_Some in He as [_ He].
        apply Hs. by eexists.
    + intros Hb0 key. cbn [_consumers store_consumers]. intros [e He].
      apply lookup_delete_Some in He as [Hne He].
      rewrite lookup_delete_ne by done. apply (Hb Hb0). by eexists.
    + intros _. cbn [_consumers]. apply lookup_delete_eq.
Qed.

Lemma peerClosed_visit_stems c0 st :
  stems_from st (peerClosed_visit _spotlights peer c0 st)
  /\ (backed st -> backed (peerClosed_visit _spotlights peer c0 st)).
Proof.
  unfold peerClosed_visit. destruct (String.eqb _ _).
  - destruct (closeConsumer_stems (id c0) st) as (? & ? & _). done.
  - split; [apply stems_from_refl|done].
Qed.

Lemma peerClosed_loop keys : forall st,
  keyed st ->
  let st' := visit_keys (peerClosed_visit _spotlights peer) keys st in
  stems_from st st'
  /\ (backed st -> backed st')
  /\ (forall key c, key ∈ keys -> _consumers st' !! key = Some c ->
        peerId c <> peer).
Proof.
  induction keys as [|key0 keys IH]; intros st Hk; cbv zeta.
  - split; [apply stems_from_refl|]. split; [done|].
    intros key c Hin. by apply elem_of_nil in Hin.
  - cbn [visit_keys foldl].
    set (st1 := match _consumers st !! key0 with
                | Some consumer => peerClosed_visit _spotlights peer consumer st
                | None => st
                end).
    assert (stems_from st st1 /\ (backed st -> backed st1)) as [Hstems1 Hb1].
    { unfold st1. destruct (_consumers st !! key0) as [c0|];
        [apply peerClosed_visit_stems|].
      split; [apply stems_from_refl|done]. }
    assert (forall c1, _consumers st1 !! key0 = Some c1 -> peerId c1 <> peer)
      as Hhead.
    { unfold st1. destruct (_consumers st !! key0) as [c0|] eqn:Hc0;
        [|intros c1 Hc1; congruence].
      unfold peerClosed_visit.
      destruct (String.eqb_spec peer (peerId c0)) as [Heq|Hne].
      - intros c1 Hc1. rewrite (Hk key0 c0 Hc0) in Hc1.
        destruct (closeConsumer_stems key0 st) as (_ & _ & Hnone).
        rewrite Hnone in Hc1 by (by eexists). done.
      - intros c1 Hc1. rewrite Hc0 in Hc1. injection Hc1 as <-. congruence. }
    destruct (IH st1 (stems_from_keyed _ _ Hstems1 Hk)) as (Hstems & Hb & Hrest).
    split; [by eapply stems_from_trans|]. split; [auto|].
    intros key c Hin Hc. apply elem_of_cons in Hin as [->|Hin]; [|eauto].
    destruct Hstems as [Hm _].
    destruct (Hm key0 c Hc) as (c1 & Hc1 & _ & Hpeer).
    rewrite <- Hpeer. by apply Hhead.
Qed.

End PeerClosed.

(** X15. When a peer has left (['peerClosed']): provided the Spotlights
    object, while it is told of the closed consumers and of the peer, adds
    no consumer and no store entry, changes no consumer's id or peer and
    removes no consumer whose store entry it leaves, then when the handler
    returns no consumer of that peer is left in the map and no entry of the
    store is without a consumer; whatever is left was there before. *)
Theorem peerClosed_drops_peer _spotlights peer st :
  adds_nothing _spotlights ->
  keeps_backed _spotlights ->
  keyed st -> listed st -> backed st ->
  let st' := on_peerClosed _spotlights peer st in
  (forall key c, _consumers st' !! key = Some c -> peerId c <> peer)
  /\ (forall key, is_Some (store_consumers st' !! key) ->
        exists c, _consumers st' !! key = Some c /\ peerId c <> peer)
  /\ stems_from st st'.
Proof.
  intros Hadds Hkeeps Hk Hl Hb. cbv zeta. unfold on_peerClosed.
  change (for_each_consumer (peerClosed_visit _spotlights peer) st)
    with (visit_keys (peerClosed_visit _spotlights peer) (consumer_keys st) st).
  destruct (peerClosed_loop _spotlights Hadds Hkeeps peer (consumer_keys st)
              st Hk) as (Hstems & Hbacked & Hloop).
  set (st1 := visit_keys _ _ st) in *.
  destruct (call_spotlights_stems _spotlights Hadds Hkeeps (closePeer peer) st1)
    as [Hlast Hblast].
  assert (stems_from st (call_spotlights _spotlights (closePeer peer) st1))
    as Hall by (by eapply stems_from_trans).
  assert (forall key c,
            _consumers (call_spotlights _spotlights (closePeer peer) st1)
              !! key = Some c -> peerId c <> peer) as Hnone.
  { intros key c Hc. destruct Hlast as [Hm _].
    destruct (Hm key c Hc) as (c1 & Hc1 & _ & <-).
    apply (Hloop key c1); [|done]. apply Hl.
    destruct Hstems as [Hm0 _]. destruct (Hm0 key c1 Hc1) as (c0 & Hc0 & _).
    by eexists. }
  split; [exact Hnone|]. split; [|exact Hall].
  intros key Hs. destruct (Hblast (Hbacked Hb) key Hs) as [c Hc].
  exists c. split; [done|]. by apply (Hnone key).
Qed.

Lemma dropping_peer_adds_nothing :
  adds_nothing dropping_peer /\ keeps_backed dropping_peer.
Proof.
  split.
  - intros n [id|peer] st; [apply stems_from_refl|].
    split; [intros key c Hc; by exists c|done].
  - intros n [id|peer] st Hb; [exact Hb|]. intros key Hs. by apply Hb.
Qed.

Lemma peerClosed_drops_peer_witness :
  adds_nothing dropping_peer /\ keeps_backed dropping_peer
  /\ keyed two_peers /\ listed two_peers /\ backed two_peers
  /\ dom (_consumers (on_peerClosed dropping_peer "p1" two_peers)) = {["c3"]}
  /\ (forall key c,
        _consumers (on_peerClosed dropping_peer "p1" two_peers) !! key = Some c ->
        peerId c <> "p1").
Proof.
  assert (backed two_peers) as Hb.
  { intros key [e He]. unfold two_peers in *.
    cbn [_consumers store_consumers] in *.
    repeat (apply lookup_insert_Some in He as [[<- <-]|[_ He]];
            [by eexists|]).
    apply lookup_singleton_Some in He as [<- <-]. by eexists. }
  destruct dropping_peer_adds_nothing as [Ha Hk].
  split; [exact Ha|]. split; [exact Hk|]. split; [exact two_peers_keyed|].
  split; [exact two_peers_listed|]. split; [exact Hb|].
  split; [vm_compute; reflexivity|].
  destruct (peerClosed_drops_peer dropping_peer "p1" two_peers Ha Hk
              two_peers_keyed two_peers_listed Hb) as [H _].
  exact H.
Defined.

End ConsumersMoreFacts.

(** ** The signaling socket: losing the connection again, and giving up *)

Module RoomMoreFacts.
Import Room RoomMore RoomFacts.

Lemma teardown_bare cl so sa co st ef :
  teardown (mkClient cl so (mkMedia None None None sa [] co None None) st ef)
  = mkClient cl so (mkMedia None None None sa [] co None None)
      (reduce (setRoomState connecting)
         (reduce clearSpotlights (reduce clearConsumers (reduce clearPeers st))))
      (ef ++ [Dispatch (notify "socket.reconnecting"); SpotlightsClear;
              Dispatch clearPeers; Dispatch clearConsumers;
              Dispatch clearSpotlights; Dispatch (setRoomState connecting)]).
Proof.
  unfold teardown.
  cbv [drop_screenSharingProducer drop_webcamProducer drop_extraVideoProducers
       drop_micProducer drop_sendTransport drop_recvTransport dispatch perform
       set_media foldl media store effects _closed _signalingSocket
       _micProducer _webcamProducer _screenSharingProducer
       _screenSharingAudioProducer _extraVideoProducers _consumers
       _sendTransport _recvTransport].
  rewrite <- !app_assoc. reflexivity.
Qed.

(** X17. A connection that comes back and is lost again before the room
    has been joined anew: the second ['disconnect'] finds no producer and no
    transport, closes nothing, and only repeats the dispatches; the media
    fields and the collections of the store are as the first one left them
    and the room state is [connecting] again. *)
Theorem disconnect_again_releases_nothing reason reason' c c' :
  _closed c = false ->
  reason <> "io server disconnect" ->
  reason' <> "io server disconnect" ->
  on_disconnect reason c = Done c' ->
  exists c'',
    on_disconnect reason' (on_reconnect c') = Done c''
    /\ media c'' = media c'
    /\ store c'' = store c'
    /\ effects c'' = effects c' ++ reconnect_then_lost.
Proof.
  intros Hc Hr Hr' Hfirst.
  destruct (disconnect_transient reason c Hc Hr)
    as (c1 & Hc1 & Hcl & Hmedia & _ & Hpeers & Hcons & Hspot & _ & Hroom).
  rewrite Hfirst in Hc1. injection Hc1 as <-.
  exists (teardown (on_reconnect c')). split.
  { unfold on_disconnect. cbn [on_reconnect dispatch _closed]. rewrite Hcl.
    by apply String.eqb_neq in Hr' as ->. }
  destruct c' as [cl so m [rs sp pe co sl] ef].
  cbn [media store _closed room_state store_peers store_consumers
       store_spotlights] in *.
  subst m pe co sl rs. unfold media_after_teardown, on_reconnect.
  cbv [dispatch store media effects _closed _signalingSocket].
  rewrite teardown_bare.
  cbv [media store effects reduce room_state store_producers store_peers
       store_consumers store_spotlights reconnect_then_lost].
  rewrite <- !app_assoc. done.
Qed.

Lemma disconnect_again_releases_nothing_witness :
  exists c' c'',
    on_disconnect "transport close" joined_client = Done c'
    /\ on_disconnect "ping timeout" (on_reconnect c') = Done c''
    /\ media c'' = media c'.
Proof.
  exists (teardown joined_client).
  destruct (disconnect_again_releases_nothing "transport close" "ping timeout"
              joined_client (teardown joined_client))
    as (c'' & H1 & H2 & _); try done.
  exists c''. done.
Defined.

Lemma first_close_store c :
  store (first_close c) = reduce (setRoomState closed) (store c).
Proof.
  unfold first_close. cbn [perform dispatch store].
  destruct (close_recvTransport_frame
              (close_sendTransport (perform SocketClose (set_closed c))))
    as (_ & _ & -> & _).
  destruct (close_sendTransport_frame (perform SocketClose (set_closed c)))
    as (_ & _ & -> & _).
  done.
Qed.

(** X18. When socket.io gives up reconnecting (['reconnect_failed']), the
    user is told, and the client is closed as by [close()]: the socket is
    closed, the room state is [closed], the page is left last, while the
    producers, peers and consumers of the store stay as they were; from then
    on [close()] and any ['disconnect'] event do nothing. *)
Theorem reconnect_failed_closes c url :
  _closed c = false ->
  _signalingSocket c = Some url ->
  exists c',
    on_reconnect_failed c = Done c'
    /\ _closed c' = true
    /\ store c' = reduce (setRoomState closed) (store c)
    /\ effects c ++ [Dispatch (notify "socket.disconnected"); SocketClose]
       `prefix_of` effects c'
    /\ last (effects c') = Some Navigate
    /\ close c' = Done c'
    /\ forall reason, on_disconnect reason c' = Done c'.
Proof.
  intros Hc Hs. unfold on_reconnect_failed.
  set (c0 := dispatch (notify "socket.disconnected") c).
  exists (first_close c0).
  split; [by apply (close_first c0 url)|].
  split; [apply first_close_closed|].
  split; [by rewrite first_close_store|].
  split.
  { unfold first_close.
    etrans; [|apply perform_extends]. etrans; [|apply dispatch_extends].
    etrans; [|apply close_recvTransport_extends].
    etrans; [|apply close_sendTransport_extends].
    unfold c0. cbn [perform dispatch set_closed effects].
    by rewrite <- app_assoc. }
  split; [apply first_close_effects|].
  apply closed_guard, first_close_closed.
Qed.

Lemma reconnect_failed_closes_witness :
  exists c',
    on_reconnect_failed joined_client = Done c'
    /\ room_state (store c') = closed
    /\ store_producers (store c') = {["mic-1"; "cam-1"]}.
Proof.
  destruct (reconnect_failed_closes joined_client
              "wss://meeting/?peerId=me&roomId=r1")
    as (c' & H1 & _ & H3 & _); try reflexivity.
  exists c'. split; [exact H1|]. rewrite H3. split; reflexivity.
Defined.

End RoomMoreFacts.

(** ** The microphone when something goes wrong *)

Module MicMoreFacts.
Import Mic MicMore.

Lemma updateMic_catch_flag message track st :
  audioInProgress (updateMic_catch message track st) = false.
Proof. unfold updateMic_catch. by destruct track. Qed.

Lemma updateMic_produce_flag env deviceId st :
  audioInProgress (updateMic_produce env deviceId st) = false.
Proof.
  unfold updateMic_produce.
  destruct (getUserMedia env _ _) as [[track trackDeviceId]|];
    [|apply updateMic_catch_flag].
  destruct (negb _); [apply updateMic_catch_flag|].
  destruct (produce env _ _) as [p|]; [done|apply updateMic_catch_flag].
Qed.

(** X19. However [updateMic] ends, with a new producer, with constraints
    applied to the track of the producer and to that of the hark stream, or
    in its [catch] block, the in-progress flag of the microphone is lowered
    when it returns. *)
Theorem updateMic_lowers_flag env args st :
  audioInProgress (updateMic env args st) = false.
Proof.
  unfold updateMic.
  destruct (canProduceAudio st) as [[|]|]; try apply updateMic_catch_flag.
  destruct (truthy (newDeviceId args) && negb (default true (restart args)));
    [apply updateMic_catch_flag|].
  destruct (_getAudioDeviceId env _) as [[d|] st1];
    [|apply updateMic_catch_flag].
  destruct (_ || _); [apply updateMic_produce_flag|].
  destruct (_micProducer st1) as [p|]; [|done].
  destruct (applyConstraints env _ _); [|apply updateMic_catch_flag].
  cbn [perform _harkStream]. destruct (_harkStream st1) as [harkTrack|]; [|done].
  destruct (applyConstraints env _ _); [done|apply updateMic_catch_flag].
Qed.

Lemma disableMic_producing env st p :
  _micProducer st = Some p ->
  disableMic env st
  = mkState (canProduceAudio st) (_sendTransport st) None (_audioDevices st)
      (delete (id p) (store_producers st)) (audioMuted st)
      (selectedAudioDevice st) false
      (effects st
       ++ [ProducerClose (id p); Request "closeProducer" (id p)]
       ++ (if sfu env (length (effects st ++ [ProducerClose (id p)]))
                "closeProducer" (id p)
           then [] else [LogError "disableMic()"]))
      (_harkStream st).
Proof.
  intros Hp. unfold disableMic, sendRequest. rewrite Hp.
  unfold setAudioInProgress, set_micProducer, perform, removeProducer,
    set_store_producers.
  cbn [effects canProduceAudio _sendTransport _micProducer _audioDevices
       store_producers audioMuted selectedAudioDevice audioInProgress
       _harkStream].
  destruct (sfu env _ _ _);
    cbn [effects canProduceAudio _sendTransport _micProducer _audioDevices
         store_producers audioMuted selectedAudioDevice audioInProgress
         _harkStream];
    rewrite <- ?app_assoc; cbn [app]; rewrite ?app_nil_r; reflexivity.
Qed.

(** X20. [disableMic] with a producer in place: the producer is closed and
    taken out of the store, the SFU is asked to close it, and whether or not
    the SFU agrees the client ends without a mic producer and with the
    in-progress flag lowered; the other producers of the store and the mute
    setting are untouched. *)
Theorem disableMic_releases env st p :
  _micProducer st = Some p ->
  let st' := disableMic env st in
  _micProducer st' = None
  /\ store_producers st' = delete (id p) (store_producers st)
  /\ audioInProgress st' = false
  /\ audioMuted st' = audioMuted st
  /\ effects st ++ [ProducerClose (id p); Request "closeProducer" (id p)]
     `prefix_of` effects st'
  /\ filter acquires (effects st') = filter acquires (effects st).
Proof.
  intros Hp. cbv zeta. rewrite (disableMic_producing env st p Hp).
  cbn [_micProducer store_producers audioInProgress audioMuted effects].
  do 4 (split; [done|]). split.
  - rewrite app_assoc. by apply prefix_app_r.
  - rewrite !filter_app. destruct (sfu env _ _ _); simpl; by rewrite app_nil_r.
Qed.

Lemma disableMic_releases_witness :
  _micProducer producing = Some (mkProducer "mic-1" false "track-0")
  /\ _micProducer (disableMic no_produce producing) = None
  /\ store_producers (disableMic no_produce producing) = ∅.
Proof.
  split; [reflexivity|].
  destruct (disableMic_releases no_produce producing
              (mkProducer "mic-1" false "track-0"))
    as (H1 & H2 & _); [reflexivity|].
  split; [exact H1|]. rewrite H2. apply delete_singleton_eq.
Defined.

Lemma updateAudioDevices_frame env st :
  let st' := _updateAudioDevices env st in
  canProduceAudio st' = canProduceAudio st
  /\ _sendTransport st' = _sendTransport st
  /\ _micProducer st' = _micProducer st
  /\ store_producers st' = store_producers st
  /\ audioMuted st' = audioMuted st
  /\ selectedAudioDevice st' = selectedAudioDevice st
  /\ effects st `prefix_of` effects st'
  /\ filter acquires (effects st') = filter acquires (effects st).
Proof.
  cbv zeta. unfold _updateAudioDevices.
  cbn [set_audioDevices effects perform].
  destruct (enumerateDevices env _) as [devices|]; cbn.
  - do 6 (split; [done|]). split; [by apply prefix_app_r|].
    rewrite filter_app. simpl. by rewrite app_nil_r.
  - do 6 (split; [done|]). split; [rewrite <- app_assoc; by apply prefix_app_r|].
    rewrite !filter_app. simpl. by rewrite !app_nil_r.
Qed.

Lemma getAudioDeviceId_frame env st :
  snd (_getAudioDeviceId env st) = _updateAudioDevices env st.
Proof. reflexivity. Qed.

(** With an audio input around, [_getAudioDeviceId] finds a device. *)
Lemma getAudioDeviceId_some env st :
  has_devices env -> is_Some (fst (_getAudioDeviceId env st)).
Proof.
  intros Hdev. unfold _getAudioDeviceId. cbn [fst].
  assert (is_Some (head (_audioDevices (_updateAudioDevices env st)))) as Hhead.
  { unfold _updateAudioDevices. cbn [set_audioDevices effects perform].
    destruct (Hdev (length (effects st))) as (device & devices & ->).
    cbn. by eexists. }
  destruct (selectedAudioDevice _) as [d|]; [|done].
  destruct (_ && _); [by eexists|done].
Qed.

(** With a producer in place and [restart] left on, [updateMic] takes its
    first branch. *)
Lemma updateMic_restarts env args st p :
  canProduceAudio st = Some true ->
  _micProducer st = Some p ->
  default true (restart args) = true ->
  has_devices env ->
  exists d st1,
    updateMic env args st = updateMic_produce env (Some d) st1
    /\ _micProducer st1 = Some p
    /\ _sendTransport st1 = _sendTransport st
    /\ store_producers st1 = store_producers st.
Proof.
  intros Hcan Hp Hrestart Hdev. unfold updateMic. rewrite Hcan, Hrestart.
  rewrite andb_false_r.
  set (st0 := setAudioInProgress true _).
  assert (_micProducer st0 = Some p /\ _sendTransport st0 = _sendTransport st
          /\ store_producers st0 = store_producers st) as (Hp0 & Ht0 & Hs0).
  { unfold st0. by destruct (truthy (newDeviceId args)). }
  pose proof (getAudioDeviceId_some env st0 Hdev) as [d Hd].
  pose proof (getAudioDeviceId_frame env st0) as Hst1.
  destruct (_getAudioDeviceId env st0) as [d' st1]. cbn [fst snd] in Hd, Hst1.
  subst d' st1.
  destruct (updateAudioDevices_frame env st0) as (_ & Ht1 & Hp1 & Hs1 & _).
  exists d, (_updateAudioDevices env st0).
  rewrite Hp1, Hp0. rewrite bool_decide_eq_true_2 by (by eexists).
  cbn [andb orb]. repeat split; congruence.
Qed.

Lemma muteMic_producing_fields env p st :
  _micProducer (muteMic_producing env p st) = Some (mark_paused true p)
  /\ (forall k, is_Some (store_producers (muteMic_producing env p st) !! k)
                <-> is_Some (store_producers st !! k))
  /\ effects st `prefix_of` effects (muteMic_producing env p st).
Proof.
  unfold muteMic_producing, sendRequest, set_audioMuted, setProducerPaused,
    setProducerResumed, set_store_producers, perform, set_micProducer.
  destruct (sfu env _ _ _);
    cbn [effects store_producers _micProducer]; (split; [done|]); split.
  - intros k. by rewrite lookup_alter_is_Some.
  - by apply prefix_app_r.
  - done.
  - rewrite <- !app_assoc. by apply prefix_app_r.
Qed.

Lemma unmuteMic_producing_fields env p st :
  _micProducer (unmuteMic_producing env p st) = Some (mark_paused false p)
  /\ (forall k, is_Some (store_producers (unmuteMic_producing env p st) !! k)
                <-> is_Some (store_producers st !! k))
  /\ effects st `prefix_of` effects (unmuteMic_producing env p st).
Proof.
  unfold unmuteMic_producing, sendRequest, set_audioMuted, setProducerPaused,
    setProducerResumed, set_store_producers, perform, set_micProducer.
  destruct (sfu env _ _ _);
    cbn [effects store_producers _micProducer]; (split; [done|]); split.
  - intros k. by rewrite lookup_alter_is_Some.
  - by apply prefix_app_r.
  - done.
  - rewrite <- !app_assoc. by apply prefix_app_r.
Qed.

(** X21. A restart of the microphone carries the mute state over: when
    [updateMic] replaces a producer (the browser delivering a track and the
    transport a producer), the old producer is closed and the new one ends
    paused exactly if the old one was, whatever the SFU answers to the pause
    or resume request; the new producer is in the store. *)
Theorem updateMic_restart_keeps_mute env args st p :
  canProduceAudio st = Some true ->
  _sendTransport st = true ->
  _micProducer st = Some p ->
  default true (restart args) = true ->
  has_devices env ->
  (forall n d, is_Some (getUserMedia env n d)) ->
  (forall n t, is_Some (produce env n t)) ->
  let st' := updateMic env args st in
  exists p',
    _micProducer st' = Some p'
    /\ paused p' = paused p
    /\ is_Some (store_producers st' !! id p')
    /\ ProducerClose (id p) ∈ effects st'.
Proof.
  intros Hcan Htr Hp Hrestart Hdev Hgum Hprod. cbv zeta.
  destruct (updateMic_restarts env args st p Hcan Hp Hrestart Hdev)
    as (d & st1 & -> & Hp1 & Ht1 & _).
  assert (_micProducer (disconnectLocalHark st1) = Some p) as Hp1'
    by exact Hp1.
  unfold updateMic_produce. cbv zeta. rewrite Hp1'.
  set (st2 := disableMic env _).
  assert (_sendTransport st2 = true
          /\ ProducerClose (id p) ∈ effects st2) as [Ht2 Hclose].
  { unfold st2. rewrite (disableMic_producing env _ p) by exact Hp1'.
    cbn. split; [congruence|]. set_solver. }
  destruct (Hgum (length (effects st2)) (Some d)) as [[track dev] ->].
  cbn [set_selectedAudioDevice perform _sendTransport effects].
  rewrite Ht2. cbn [negb].
  destruct (Hprod (length (effects st2 ++ [GetUserMedia (Some d)])) track)
    as [p0 ->].
  set (st3 := connectLocalHark track _).
  assert (is_Some (store_producers st3 !! id p0)
          /\ ProducerClose (id p) ∈ effects st3) as [Hentry Hclose3].
  { unfold st3. cbn. rewrite lookup_insert_eq. split; [by eexists|].
    set_solver. }
  exists (mark_paused (paused p) p0).
  set (st4 := if paused p then _ else _).
  assert (_micProducer st4 = Some (mark_paused (paused p) p0)
          /\ is_Some (store_producers st4 !! id p0)
          /\ effects st3 `prefix_of` effects st4) as (Hp4 & Hs4 & He4).
  { unfold st4. destruct (paused p).
    - destruct (muteMic_producing_fields env p0 st3) as (-> & Hk & He).
      split; [done|]. split; [by apply Hk|done].
    - destruct (unmuteMic_producing_fields env p0 st3) as (-> & Hk & He).
      split; [done|]. split; [by apply Hk|done]. }
  destruct (updateAudioDevices_frame env st4)
    as (_ & _ & Hp5 & Hs5 & _ & _ & He5 & _).
  cbn [setAudioInProgress _micProducer store_producers effects].
  rewrite Hp5, Hs5. split; [done|]. split; [done|]. split; [done|].
  eapply elem_of_prefix; [|exact He5].
  eapply elem_of_prefix; [|exact He4]. done.
Qed.

Lemma updateMic_restart_keeps_mute_witness :
  exists p',
    _micProducer (updateMic friendly (mkArgs None None None) producing_muted)
    = Some p'
    /\ paused p' = true.
Proof.
  destruct (updateMic_restart_keeps_mute friendly (mkArgs None None None)
              producing_muted (mkProducer "mic-1" true "track-0"))
    as (p' & H1 & H2 & _); try reflexivity.
  - intros n. by exists "default", [].
  - intros n d. by eexists.
  - intros n t. by eexists.
  - exists p'. split; [exact H1|exact H2].
Defined.

(** X22. A restart that fails after the browser has delivered a track,
    because there is no send transport or because producing fails: the old
    producer has been closed and removed from the store, no producer takes
    its place, the error is notified, and the last thing done is to stop the
    new track. *)
Theorem updateMic_restart_failure env args st p :
  canProduceAudio st = Some true ->
  _micProducer st = Some p ->
  default true (restart args) = true ->
  has_devices env ->
  (forall n d, is_Some (getUserMedia env n d)) ->
  _sendTransport st = false \/ (forall n t, produce env n t = None) ->
  let st' := updateMic env args st in
  _micProducer st' = None
  /\ store_producers st' = delete (id p) (store_producers st)
  /\ (exists track, last (effects st') = Some (TrackStop track))
  /\ Notify "devices.microphoneError" ∈ effects st'
  /\ ProducerClose (id p) ∈ effects st'.
Proof.
  intros Hcan Hp Hrestart Hdev Hgum Hfail. cbv zeta.
  destruct (updateMic_restarts env args st p Hcan Hp Hrestart Hdev)
    as (d & st1 & -> & Hp1 & Ht1 & Hs1).
  assert (_micProducer (disconnectLocalHark st1) = Some p) as Hp1'
    by exact Hp1.
  unfold updateMic_produce. cbv zeta. rewrite Hp1'.
  set (st2 := disableMic env _).
  assert (_sendTransport st2 = _sendTransport st
          /\ _micProducer st2 = None
          /\ store_producers st2 = delete (id p) (store_producers st)
          /\ ProducerClose (id p) ∈ effects st2) as (Ht2 & Hp2 & Hs2 & Hclose).
  { unfold st2. rewrite (disableMic_producing env _ p) by exact Hp1'.
    cbn. split; [congruence|]. split; [done|]. split; [congruence|].
    set_solver. }
  destruct (Hgum (length (effects st2)) (Some d)) as [[track dev] ->].
  cbn [set_selectedAudioDevice perform _sendTransport effects].
  rewrite Ht2.
  assert (forall message st3,
            _micProducer st3 = None ->
            store_producers st3 = delete (id p) (store_producers st) ->
            ProducerClose (id p) ∈ effects st3 ->
            let st' := updateMic_catch message (Some track) st3 in
            _micProducer st' = None
            /\ store_producers st' = delete (id p) (store_producers st)
            /\ (exists track, last (effects st') = Some (TrackStop track))
            /\ Notify "devices.microphoneError" ∈ effects st'
            /\ ProducerClose (id p) ∈ effects st') as Hcatch.
  { intros message st3 H1 H2 H3. cbn. split; [done|]. split; [done|].
    split; [exists track; apply last_snoc|]. set_solver. }
  destruct Hfail as [Hno|Hno].
  - rewrite Hno. cbn [negb]. apply Hcatch; try done. cbn. set_solver.
  - destruct (_sendTransport st); cbn [negb].
    + rewrite Hno. apply Hcatch; try done. cbn. set_solver.
    + apply Hcatch; try done. cbn. set_solver.
Qed.

Lemma updateMic_restart_failure_witness :
  _micProducer (updateMic no_produce (mkArgs None None None) producing) = None
  /\ last (effects (updateMic no_produce (mkArgs None None None) producing))
     = Some (TrackStop "track-1").
Proof.
  destruct (updateMic_restart_failure no_produce (mkArgs None None None)
              producing (mkProducer "mic-1" false "track-0"))
    as (H1 & _ & _ & _); try reflexivity.
  - intros n. by exists "default", [].
  - intros n d. by eexists.
  - by right.
  - split; [exact H1|reflexivity].
Defined.

Lemma perform_fields e st :
  _micProducer (perform e st) = _micProducer st
  /\ store_producers (perform e st) = store_producers st
  /\ effects (perform e st) = effects st ++ [e].
Proof. done. Qed.

Lemma perform_harkStream e st : _harkStream (perform e st) = _harkStream st.
Proof. done. Qed.

Lemma updateMic_catch_fields message track st :
  _micProducer (updateMic_catch message (Some track) st) = _micProducer st
  /\ store_producers (updateMic_catch message (Some track) st)
     = store_producers st
  /\ effects (updateMic_catch message (Some track) st)
     = effects st
       ++ [LogError message; Notify "devices.microphoneError"; TrackStop track]
  /\ last (effects (updateMic_catch message (Some track) st))
     = Some (TrackStop track).
Proof.
  split; [done|]. split; [done|].
  unfold updateMic_catch, setAudioInProgress, perform. cbn [effects].
  split; [by rewrite <- !app_assoc|apply last_snoc].
Qed.

(** X23. [updateMic({ restart: false })] on a running microphone applies
    the constraints again, to the track of the producer and then, if there
    is a hark stream, to its track.  When either [applyConstraints] is
    rejected, the [catch] block stops the track of the producer: the
    producer stays in [_micProducer] and in the store, nothing is closed,
    acquired or asked of the SFU, and the error is notified. *)
Theorem updateMic_constraints_rejected env args st p :
  canProduceAudio st = Some true ->
  _micProducer st = Some p ->
  restart args = Some false ->
  default false (start args) = false ->
  truthy (newDeviceId args) = false ->
  has_devices env ->
  rejects_constraints env st p ->
  let st' := updateMic env args st in
  _micProducer st' = Some p
  /\ store_producers st' = store_producers st
  /\ last (effects st') = Some (TrackStop (track p))
  /\ Notify "devices.microphoneError" ∈ effects st'
  /\ ApplyConstraints (track p) ∈ effects st'
  /\ filter disables (effects st') = filter disables (effects st)
  /\ filter acquires (effects st') = filter acquires (effects st).
Proof.
  intros Hcan Hp Hrestart Hstart Hnew Hdev Hreject. cbv zeta.
  unfold updateMic. rewrite Hcan, Hrestart, Hstart, Hnew.
  cbn [andb orb default Datatypes.id].
  set (st0 := setAudioInProgress true st).
  pose proof (getAudioDeviceId_some env st0 Hdev) as [d Hd].
  pose proof (getAudioDeviceId_frame env st0) as Hst1.
  destruct (_getAudioDeviceId env st0) as [d' st1]. cbn [fst snd] in Hd, Hst1.
  subst d' st1.
  assert (_updateAudioDevices env st0
          = mkState (canProduceAudio st) (_sendTransport st) (Some p)
              match enumerateDevices env (length (effects st)) with
              | Some devices => devices
              | None => []
              end
              (store_producers st) (audioMuted st) (selectedAudioDevice st)
              true
              (effects st ++ [EnumerateDevices]
               ++ match enumerateDevices env (length (effects st)) with
                  | Some _ => []
                  | None => [LogError "_updateAudioDevices()"]
                  end)
              (_harkStream st)) as ->.
  { rewrite <- Hp.
    unfold _updateAudioDevices, st0, set_audioDevices, setAudioInProgress,
      perform.
    cbn [effects canProduceAudio _sendTransport _micProducer _audioDevices
         store_producers audioMuted selectedAudioDevice audioInProgress
         _harkStream].
    destruct (enumerateDevices env _);
      cbn [effects canProduceAudio _sendTransport _micProducer _audioDevices
           store_producers audioMuted selectedAudioDevice audioInProgress
           _harkStream];
      rewrite <- ?app_assoc; cbn [app]; by rewrite ?app_nil_r. }
  set (listed := effects st ++ [EnumerateDevices] ++ _).
  assert (filter disables listed = filter disables (effects st)
          /\ filter acquires listed = filter acquires (effects st))
    as [Hdis Hacq].
  { unfold listed. rewrite !filter_app.
    destruct (enumerateDevices env _); cbn; by rewrite ?app_nil_r. }
  set (st1 := mkState _ _ _ _ _ _ _ _ listed _).
  assert (_micProducer st1 = Some p /\ store_producers st1 = store_producers st
          /\ effects st1 = listed /\ _harkStream st1 = _harkStream st)
    as (Hp1 & Hs1 & He1 & Hh1) by done.
  clearbody st1. rewrite Hp1.
  cbn [andb orb]. rewrite perform_harkStream, Hh1.
  destruct Hreject as [Hfirst|(harkTrack & Hhark & Hfirst & Hsecond)].
  - rewrite Hfirst.
    destruct (updateMic_catch_fields "applyConstraints" (track p)
                (perform (ApplyConstraints (track p)) st1))
      as (-> & -> & He & ->). rewrite He.
    destruct (perform_fields (ApplyConstraints (track p)) st1)
      as (-> & -> & ->).
    rewrite Hp1, Hs1, He1.
    split; [done|]. split; [done|]. split; [done|].
    split; [set_solver|]. split; [set_solver|].
    rewrite !filter_app, Hdis, Hacq. cbn. by rewrite !app_nil_r.
  - rewrite Hfirst, Hhark, Hsecond.
    destruct (updateMic_catch_fields "applyConstraints" (track p)
                (perform (ApplyConstraints harkTrack)
                   (perform (ApplyConstraints (track p)) st1)))
      as (-> & -> & He & ->). rewrite He.
    destruct (perform_fields (ApplyConstraints harkTrack)
                (perform (ApplyConstraints (track p)) st1))
      as (-> & -> & ->).
    destruct (perform_fields (ApplyConstraints (track p)) st1)
      as (-> & -> & ->).
    rewrite Hp1, Hs1, He1.
    split; [done|]. split; [done|]. split; [done|].
    split; [set_solver|]. split; [set_solver|].
    rewrite !filter_app, Hdis, Hacq. cbn. by rewrite !app_nil_r.
Qed.

(** The track of the producer accepts the constraints and that of the hark
    stream rejects them: it is the track of the producer that is stopped. *)
Lemma updateMic_constraints_rejected_witness :
  rejects_constraints no_hark_constraints producing
    (mkProducer "mic-1" false "track-0")
  /\ effects (updateMic no_hark_constraints (mkArgs None (Some false) None)
               producing)
     = [EnumerateDevices; ApplyConstraints "track-0";
        ApplyConstraints (clone "track-0"); LogError "applyConstraints";
        Notify "devices.microphoneError"; TrackStop "track-0"]
  /\ _micProducer (updateMic no_hark_constraints
                     (mkArgs None (Some false) None) producing)
     = Some (mkProducer "mic-1" false "track-0").
Proof.
  assert (rejects_constraints no_hark_constraints producing
            (mkProducer "mic-1" false "track-0")) as Hrejects.
  { right. exists (clone "track-0"). split; [reflexivity|]. split; done. }
  split; [exact Hrejects|]. split; [reflexivity|].
  destruct (updateMic_constraints_rejected no_hark_constraints
              (mkArgs None (Some false) None) producing
              (mkProducer "mic-1" false "track-0"))
    as (H1 & _);
    [reflexivity|reflexivity|reflexivity|reflexivity|reflexivity| | |].
  - intros n. by exists "default", [].
  - exact Hrejects.
  - exact H1.
Defined.

(** The track of the producer rejects the constraints itself. *)
Lemma updateMic_constraints_rejected_at_once :
  effects (updateMic no_constraints (mkArgs None (Some false) None) producing)
  = [EnumerateDevices; ApplyConstraints "track-0";
     LogError "applyConstraints"; Notify "devices.microphoneError";
     TrackStop "track-0"].
Proof. reflexivity. Qed.

End MicMoreFacts.

(** ** Voice activity on the local microphone *)

Module HarkFacts.
Import Hark.

Lemma handle_voice_activated e st p :
  voiceActivatedUnmute st = true ->
  _micProducer st = Some p ->
  let st' := handle e st in
  voiceActivatedUnmute st' = true
  /\ _micProducer st' = Some (Mic.mark_paused (negb (speaking st')) p)
  /\ speaking st' = match e with Speaking => true | StoppedSpeaking => false end.
Proof.
  intros Hv Hp. destruct p as [i pa tr]. cbv zeta.
  destruct e;
    unfold handle, on_speaking, on_stopped_speaking, setSpeaking,
      setAutoMuted, set_micProducer;
    cbn [voiceActivatedUnmute autoMuted speaking _micProducer];
    rewrite Hp, Hv; destruct pa; done.
Qed.

(** X24. With voice-activated unmute switched on, the microphone follows
    the voice: after any sequence of hark events, the producer is the same
    one, paused exactly when the last event was ['stopped_speaking'], also if
    the user had muted it by hand. *)
Theorem voice_activation_follows_speech events e st p :
  voiceActivatedUnmute st = true ->
  _micProducer st = Some p ->
  let st' := run (events ++ [e]) st in
  speaking st' = match e with Speaking => true | StoppedSpeaking => false end
  /\ _micProducer st' = Some (Mic.mark_paused (negb (speaking st')) p).
Proof.
  intros Hv Hp. cbv zeta. unfold run. rewrite foldl_app. cbn [foldl].
  assert (exists p0,
            voiceActivatedUnmute (foldl (fun st e => handle e st) st events)
            = true
            /\ _micProducer (foldl (fun st e => handle e st) st events)
               = Some p0
            /\ Mic.id p0 = Mic.id p /\ Mic.track p0 = Mic.track p)
    as (p0 & Hv0 & Hp0 & Hid & Htr).
  { clear e. revert st p Hv Hp.
    induction events as [|e0 events IH]; intros st p Hv Hp; [by exists p|].
    cbn [foldl].
    destruct (handle_voice_activated e0 st p Hv Hp) as (Hv1 & Hp1 & _).
    destruct (IH _ _ Hv1 Hp1) as (p0 & ? & ? & ? & ?). by exists p0. }
  destruct (handle_voice_activated e _ p0 Hv0 Hp0) as (_ & -> & ->).
  split; [done|]. unfold Mic.mark_paused. by rewrite Hid, Htr.
Qed.

Lemma voice_activation_follows_speech_witness :
  _micProducer (run [StoppedSpeaking; Speaking] (muted_by_hand true))
  = Some (Mic.mkProducer "mic-1" false "track-0").
Proof.
  destruct (voice_activation_follows_speech [StoppedSpeaking] Speaking
              (muted_by_hand true) (Mic.mkProducer "mic-1" true "track-0"))
    as [_ H]; [reflexivity|reflexivity|].
  exact H.
Defined.

(** X25. With voice-activated unmute switched off and no automatic mute
    pending, hark only reports: whatever events come, the mic producer and
    its pause flag stay as they are and [autoMuted] stays down. *)
Theorem voice_activation_off_leaves_mic events st :
  voiceActivatedUnmute st = false ->
  autoMuted st = false ->
  let st' := run events st in
  _micProducer st' = _micProducer st
  /\ autoMuted st' = false
  /\ voiceActivatedUnmute st' = false.
Proof.
  revert st. induction events as [|e events IH]; intros st Hv Ha; [done|].
  cbv zeta. unfold run. cbn [foldl].
  assert (_micProducer (handle e st) = _micProducer st
          /\ autoMuted (handle e st) = false
          /\ voiceActivatedUnmute (handle e st) = false) as (Hp1 & Ha1 & Hv1).
  { destruct e;
      unfold handle, on_speaking, on_stopped_speaking, setSpeaking,
        setAutoMuted, set_micProducer;
      cbn [voiceActivatedUnmute autoMuted speaking _micProducer];
      rewrite Hv, ?Ha; cbn [andb orb];
      by destruct (_micProducer st). }
  destruct (IH (handle e st) Hv1 Ha1) as (Hp & Ha' & Hv').
  split; [etrans; [exact Hp|exact Hp1]|done].
Qed.

Lemma voice_activation_off_leaves_mic_witness :
  _micProducer (run [Speaking; StoppedSpeaking; Speaking] (muted_by_hand false))
  = Some (Mic.mkProducer "mic-1" true "track-0").
Proof.
  destruct (voice_activation_off_leaves_mic
              [Speaking; StoppedSpeaking; Speaking] (muted_by_hand false))
    as [H _]; [reflexivity|reflexivity|].
  exact H.
Defined.

End HarkFacts.

(** ** Notification sounds *)

Module SoundFacts.
Import Sound.

Lemma spaced_snoc d times t :
  spaced d times ->
  (forall t0, list.last times = Some t0 -> (d <= t - t0)%Z) ->
  spaced d (times ++ [t]).
Proof.
  induction times as [|t1 times IH]; intros Hs Hlast; [done|].
  destruct times as [|t2 times].
  - cbn. split; [|done]. by apply Hlast.
  - destruct Hs as [H12 Hs]. split; [done|]. apply IH; [done|].
    intros t0 Ht0. by apply Hlast.
Qed.

Lemma soundNotification_cases type now st :
  state_of (_soundNotification type now st) = st
  \/ exists key soundAlert,
       _soundAlerts st !! key = Some soundAlert
       /\ (forall l, last soundAlert = Some l ->
             js_lt (now - l) (delay soundAlert) = false)
       /\ (key = default "default" type
           \/ (key = "default"
               /\ _soundAlerts st !! default "default" type = None))
       /\ state_of (_soundNotification type now st)
          = mkState (notificationSounds st)
              (<[key := mkAlert (Some now) (delay soundAlert)]>
                 (_soundAlerts st))
              (played st ++ [(key, now)]).
Proof.
  unfold _soundNotification.
  destruct (notificationSounds st); [|by left].
  set (key := match _soundAlerts st !! default "default" type with
              | None => "default"
              | Some _ => default "default" type
              end).
  destruct (_soundAlerts st !! key) as [soundAlert|] eqn:Ha; [|by left].
  destruct (match last soundAlert with
            | Some l => js_lt (now - l) (delay soundAlert)
            | None => false
            end) eqn:Hskip; [by left|].
  right. exists key, soundAlert. split; [done|]. split.
  { intros l Hl. by rewrite Hl in Hskip. }
  split; [|done]. unfold key.
  destruct (_soundAlerts st !! default "default" type); [by left|by right].
Qed.

Lemma soundNotification_throttled key d type now st :
  throttled key d st ->
  throttled key d (state_of (_soundNotification type now st)).
Proof.
  intros [(a & Ha & Hd & Hlast) Hspaced].
  destruct (soundNotification_cases type now st)
    as [->|(key' & a' & Ha' & Hgap & _ & ->)]; [by split; [exists a|]|].
  unfold throttled, times_of. cbn [_soundAlerts played].
  rewrite filter_app, map_app.
  destruct (decide (key' = key)) as [->|Hne].
  - rewrite Ha in Ha'. injection Ha' as <-.
    rewrite filter_cons_True by done. cbn [filter map snd app].
    rewrite filter_nil. cbn [map].
    split.
    + eexists. rewrite lookup_insert_eq. split; [done|]. split; [done|].
      intros t. rewrite last_snoc. by intros [= <-].
    + apply spaced_snoc; [done|]. intros t0 Ht0.
      specialize (Hgap t0 (Hlast t0 Ht0)). rewrite Hd in Hgap.
      cbn in Hgap. lia.
  - rewrite filter_cons_False by done. rewrite filter_nil. cbn [map].
    rewrite app_nil_r. split; [|done].
    exists a. by rewrite lookup_insert_ne.
Qed.

Lemma run_throttled key d events : forall st,
  throttled key d st -> throttled key d (run events st).
Proof.
  induction events as [|[type now] events IH]; intros st Hst; [done|].
  unfold run. cbn [foldl]. apply IH. by apply soundNotification_throttled.
Qed.

(** X26. An alert with a delay is throttled: however many notifications
    arrive, of whatever types and at whatever times, two plays in a row of
    the same alert are at least its delay apart. *)
Theorem alert_plays_spaced events st key soundAlert d :
  played st = [] ->
  _soundAlerts st !! key = Some soundAlert ->
  delay soundAlert = Some d ->
  spaced d (times_of key (run events st)).
Proof.
  intros Hplayed Ha Hd.
  apply (run_throttled key d events st). split; [|].
  - exists soundAlert. split; [done|]. split; [done|].
    unfold times_of. by rewrite Hplayed.
  - unfold times_of. by rewrite Hplayed.
Qed.

Lemma alert_plays_spaced_witness :
  times_of "chatMessage"
    (run [(Some "chatMessage", 1000%Z); (Some "newPeer", 1500%Z);
          (Some "chatMessage", 2500%Z); (Some "chatMessage", 3000%Z)]
       (constructed true chat_sound))
  = [1000%Z; 3000%Z]
  /\ spaced 2000
       (times_of "chatMessage"
          (run [(Some "chatMessage", 1000%Z); (Some "newPeer", 1500%Z);
                (Some "chatMessage", 2500%Z); (Some "chatMessage", 3000%Z)]
             (constructed true chat_sound))).
Proof.
  split; [vm_compute; reflexivity|].
  apply (alert_plays_spaced _ (constructed true chat_sound) "chatMessage"
           (mkAlert None (Some 2000%Z)) 2000); reflexivity.
Defined.

Lemma constructor_soundAlerts_default config :
  Forall (fun entry => entry.1 <> "default") config ->
  constructor_soundAlerts config !! "default" = Some (mkAlert None None).
Proof.
  unfold constructor_soundAlerts.
  assert (forall alerts : gmap string Alert,
            alerts !! "default" = Some (mkAlert None None) ->
            Forall (fun entry => entry.1 <> "default") config ->
            foldl (fun alerts '(k, v) =>
                     match v with
                     | Some v =>
                         match play v with
                         | Some _ =>
                             <[k := mkAlert None
                                      (Some (default 0%Z (config_delay v)))]>
                               alerts
                         | None => alerts
                         end
                     | None => alerts
                     end) alerts config !! "default"
            = Some (mkAlert None None)) as H.
  { induction config as [|[k v] config IH]; intros alerts Ha Hc; [done|].
    apply Forall_cons in Hc as [Hk Hc]. cbn [foldl]. apply IH; [|done].
    destruct v as [v|]; [|done]. destruct (play v); [|done].
    by rewrite lookup_insert_ne. }
  intros Hc. apply H; [apply lookup_singleton_eq|done].
Qed.

Lemma soundNotification_builtin st0 event st :
  builtin_only st0 st -> without_alert st0 event ->
  builtin_only st0 (state_of (_soundNotification event.1 event.2 st))
  /\ played (state_of (_soundNotification event.1 event.2 st))
     = played st ++ [("default", event.2)].
Proof.
  intros (Hon & [l Hdef] & Hrest) Hevent. destruct event as [type now].
  unfold without_alert in Hevent. cbn [fst snd] in *.
  unfold _soundNotification. rewrite Hon.
  assert (match _soundAlerts st !! default "default" type with
          | None => "default"
          | Some _ => default "default" type
          end = "default") as ->.
  { destruct type as [type|]; cbv [default from_option Datatypes.id];
      [|by rewrite Hdef].
    destruct (decide (type = "default")) as [->|Hne]; [by rewrite Hdef|].
    by rewrite (Hrest type Hne), Hevent. }
  rewrite Hdef. cbn [last delay js_lt state_of played _soundAlerts].
  assert ((match l with Some _ => false | None => false end) = false) as ->
    by (by destruct l).
  cbn [state_of played]. split; [|done].
  split; [done|]. cbn [_soundAlerts]. split.
  - eexists. apply lookup_insert_eq.
  - intros key Hne. rewrite lookup_insert_ne by done. by apply Hrest.
Qed.

(** X27. The alert that the constructor installs under ['default'] has no
    delay, and the comparison with the missing delay never holds: unless the
    configuration replaces it, every notification without an alert of its
    own plays the default sound, however close to the one before. *)
Theorem builtin_alert_never_throttled config events :
  Forall (fun entry => entry.1 <> "default") config ->
  Forall (without_alert (constructed true config)) events ->
  played (run events (constructed true config))
  = map (fun event => ("default", event.2)) events.
Proof.
  intros Hconfig Hevents.
  assert (forall st,
            builtin_only (constructed true config) st ->
            played (run events st)
            = played st ++ map (fun event => ("default", event.2)) events)
    as Hrun.
  { induction events as [|event events IH]; intros st Hst.
    - cbn. by rewrite app_nil_r.
    - apply Forall_cons in Hevents as [Hevent Hevents].
      destruct (soundNotification_builtin _ event st Hst Hevent) as [Hst' Hp].
      unfold run. destruct event as [type now]. cbn [foldl].
      cbn [fst snd] in Hp, Hst'.
      etrans; [apply (IH Hevents _ Hst')|].
      rewrite Hp, <- app_assoc. done. }
  apply (Hrun (constructed true config)).
  split; [done|]. split; [|done].
  exists None. cbn [constructed _soundAlerts].
  by apply constructor_soundAlerts_default.
Qed.

Lemma builtin_alert_never_throttled_witness :
  played (run [(None, 1000%Z); (Some "newPeer", 1000%Z); (None, 1001%Z)]
            (constructed true chat_sound))
  = [("default", 1000%Z); ("default", 1000%Z); ("default", 1001%Z)].
Proof.
  apply (builtin_alert_never_throttled chat_sound
           [(None, 1000%Z); (Some "newPeer", 1000%Z); (None, 1001%Z)]).
  - repeat constructor. discriminate.
  - repeat constructor.
Defined.

End SoundFacts.

(** ** Permissions *)

Module PermissionsFacts.
Import Permissions.

Lemma some_role_defined ids roles :
  some_role (Some ids) roles
  = Some (existsb (fun r => existsb (Z.eqb r) ids) roles).
Proof. by destruct roles. Qed.

Lemma permitted_iff ids roles :
  existsb (fun r => existsb (Z.eqb r) ids) roles = true
  <-> exists r, r ∈ roles /\ r ∈ ids.
Proof.
  rewrite existsb_exists. split.
  - intros (r & Hr & Hids). apply existsb_exists in Hids as (r' & Hr' & Heq).
    apply Z.eqb_eq in Heq as <-. exists r.
    by rewrite <- !list_elem_of_In in *.
  - intros (r & Hr & Hids). exists r. rewrite <- list_elem_of_In.
    split; [done|]. apply existsb_exists. exists r.
    rewrite <- list_elem_of_In. split; [done|]. apply Z.eqb_refl.
Qed.

Lemma no_peer_permitted_defined ids peers :
  exists b,
    no_peer_permitted (Some ids) peers = Some b
    /\ (b = true <->
        forall peer, peer ∈ peers -> ~ exists r, r ∈ peer /\ r ∈ ids).
Proof.
  induction peers as [|peer peers (b & Hb & IH)].
  - exists true. split; [done|]. split; [|done].
    intros _ peer Hin. by apply elem_of_nil in Hin.
  - cbn [no_peer_permitted]. rewrite some_role_defined, Hb.
    eexists. split; [done|]. rewrite andb_true_iff, negb_true_iff, IH.
    rewrite <- not_true_iff_false, permitted_iff. split.
    + intros [Hpeer Hrest] peer' Hin.
      apply elem_of_cons in Hin as [->|Hin]; auto.
    + intros Hall. split; [apply Hall, list_elem_of_here|].
      intros peer' Hin. apply Hall. by apply list_elem_of_further.
Qed.

(** With the permission defined in [roomPermissions], the method returns,
    and it grants the permission exactly to a user that has one of its roles
    or, if the permission is among [allowWhenRoleMissing], when no peer has
    one. *)
Lemma havePermission_decides permission st perms ids :
  roomPermissions st = Some perms ->
  perms !! permission = Some ids ->
  exists b,
    _havePermission permission st = Returned b
    /\ (b = true <->
        (exists r, r ∈ roles st /\ r ∈ ids)
        \/ ((exists allowed, allowWhenRoleMissing st = Some allowed
                             /\ permission ∈ allowed)
            /\ forall peer, peer ∈ peers st ->
                 ~ exists r, r ∈ peer /\ r ∈ ids)).
Proof.
  intros Hperms Hids. unfold _havePermission. rewrite Hperms. cbv zeta.
  rewrite Hids, some_role_defined.
  destruct (existsb _ (roles st)) eqn:Hme.
  { exists true. split; [done|]. split; [|done]. intros _. left.
    by apply permitted_iff. }
  assert (~ exists r, r ∈ roles st /\ r ∈ ids) as Hnot.
  { rewrite <- permitted_iff. congruence. }
  destruct (allowWhenRoleMissing st) as [allowed|].
  2:{ exists false. split; [done|]. split; [done|].
      intros [?|[(? & ? & _) _]]; done. }
  destruct (bool_decide_reflect (permission ∈ allowed)) as [Hin|Hout].
  2:{ exists false. split; [done|]. split; [done|].
      intros [?|[(? & [= <-] & ?) _]]; done. }
  destruct (no_peer_permitted_defined ids (peers st)) as (b & -> & Hb).
  exists b. split; [done|]. rewrite Hb. split.
  - intros Hall. right. split; [by exists allowed|done].
  - intros [?|[_ ?]]; done.
Qed.

(** X28. A permission held only because no one present has a role for it
    cannot be gained by someone else joining: whenever the permission is
    defined in [roomPermissions], if [_havePermission] grants it with more
    peers in the room, it grants it with fewer; and a user with one of the
    roles of the permission has it whoever is in the room. *)
Theorem havePermission_shrinks_as_peers_join permission st perms ids more :
  roomPermissions st = Some perms ->
  perms !! permission = Some ids ->
  let st' := mkState (roomPermissions st) (allowWhenRoleMissing st) (roles st)
               (peers st ++ more) in
  (_havePermission permission st' = Returned true ->
   _havePermission permission st = Returned true)
  /\ ((exists r, r ∈ roles st /\ r ∈ ids) ->
      _havePermission permission st' = Returned true)
  /\ ((forall r, r ∈ roles st -> r ∉ ids) ->
      (exists peer r, peer ∈ more /\ r ∈ peer /\ r ∈ ids) ->
      _havePermission permission st' = Returned false).
Proof.
  intros Hperms Hids. cbv zeta.
  set (st' := mkState _ _ _ _).
  destruct (havePermission_decides permission st perms ids Hperms Hids)
    as (b & Hb & Hiff).
  destruct (havePermission_decides permission st' perms ids Hperms Hids)
    as (b' & Hb' & Hiff').
  cbn [roles peers allowWhenRoleMissing st'] in Hiff'.
  rewrite Hb, Hb'. split; [|split].
  - intros [= ->]. f_equal. apply Hiff.
    destruct (proj1 Hiff' eq_refl) as [Hme|[Hallowed Hnone]]; [by left|].
    right. split; [done|]. intros peer Hin. apply Hnone.
    apply elem_of_app. by left.
  - intros Hme. f_equal. apply Hiff'. by left.
  - intros Hme (peer & r & Hin & Hr & Hrid). f_equal.
    destruct b'; [|done]. exfalso.
    destruct (proj1 Hiff' eq_refl) as [(r0 & ? & ?)|[_ Hnone]].
    + by apply (Hme r0).
    + apply (Hnone peer); [apply elem_of_app; by right|]. by exists r.
Qed.

Lemma havePermission_shrinks_as_peers_join_witness :
  _havePermission "MODERATE_ROOM" unmoderated = Returned true
  /\ _havePermission "MODERATE_ROOM"
       (mkState (roomPermissions unmoderated)
          (allowWhenRoleMissing unmoderated) (roles unmoderated)
          (peers unmoderated ++ [[1%Z]]))
     = Returned false.
Proof.
  split; [reflexivity|].
  destruct (havePermission_shrinks_as_peers_join "MODERATE_ROOM" unmoderated
              {["MODERATE_ROOM" := [1%Z]]} [1%Z] [[1%Z]])
    as (_ & _ & H); [reflexivity|reflexivity|].
  apply H.
  - intros r Hr. cbn in Hr. apply list_elem_of_singleton in Hr as ->.
    intros H1. by apply list_elem_of_singleton in H1.
  - exists [1%Z], 1%Z. repeat split; apply list_elem_of_here.
Defined.

(** X29. [_havePermission] for a permission that [roomPermissions] does
    not list: a user without any role is refused (or, with the permission
    among [allowWhenRoleMissing] and no peer holding a role, allowed), but
    for a user with a role the method throws instead of answering. *)
Theorem havePermission_undefined_permission permission st perms :
  roomPermissions st = Some perms ->
  perms !! permission = None ->
  (roles st <> [] -> _havePermission permission st = Threw)
  /\ (roles st = [] -> allowWhenRoleMissing st = None ->
      _havePermission permission st = Returned false)
  /\ (roles st = [] -> Forall (fun peer => peer = []) (peers st) ->
      forall allowed, allowWhenRoleMissing st = Some allowed ->
      _havePermission permission st
      = Returned (bool_decide (permission ∈ allowed))).
Proof.
  intros Hperms Hnone. unfold _havePermission. rewrite Hperms. cbv zeta.
  rewrite Hnone. split; [|split].
  - intros Hroles. by destruct (roles st).
  - intros -> ->. done.
  - intros -> Hpeers allowed ->. cbn [some_role].
    destruct (bool_decide (permission ∈ allowed)); [|done].
    assert (no_peer_permitted None (peers st) = Some true) as ->; [|done].
    induction Hpeers as [|peer peers' -> _ IH]; [done|].
    cbn [no_peer_permitted some_role]. by rewrite IH.
Qed.

Lemma havePermission_undefined_permission_witness :
  _havePermission "SHARE_SCREEN" unmoderated = Threw.
Proof.
  destruct (havePermission_undefined_permission "SHARE_SCREEN" unmoderated
              {["MODERATE_ROOM" := [1%Z]]}) as (H & _);
    [reflexivity|reflexivity|].
  by apply H.
Defined.

End PermissionsFacts.

(** ** Screen sharing *)

Module ScreenSharingFacts.
Import ScreenSharing.

Lemma close_on_sfu_effects sfu video audio st :
  let st' := close_on_sfu sfu video audio st in
  _screenSharingProducer st' = _screenSharingProducer st
  /\ _screenSharingAudioProducer st' = _screenSharingAudioProducer st
  /\ store_producers st' = store_producers st
  /\ screenSharingInProgress st' = screenSharingInProgress st
  /\ effects st `prefix_of` effects st'
  /\ close_requests (effects st')
     = close_requests (effects st)
       ++ video :: (if sfu (length (effects st)) "closeProducer" video
                    then option_list audio else []).
Proof.
  cbv zeta. unfold close_on_sfu, sendRequest, perform.
  cbn [effects _screenSharingProducer _screenSharingAudioProducer
       store_producers screenSharingInProgress].
  destruct (sfu (length (effects st)) "closeProducer" video).
  - destruct audio as [a|].
    + destruct (sfu _ "closeProducer" a);
        cbn [effects _screenSharingProducer _screenSharingAudioProducer
             store_producers screenSharingInProgress];
        do 4 (split; [done|]);
        (split; [rewrite <- ?app_assoc; by apply prefix_app_r|]);
        unfold close_requests; rewrite <- ?app_assoc, omap_app; reflexivity.
    + cbn [effects _screenSharingProducer _screenSharingAudioProducer
           store_producers screenSharingInProgress].
      do 4 (split; [done|]). split; [by apply prefix_app_r|].
      unfold close_requests. rewrite omap_app. reflexivity.
  - cbn [effects _screenSharingProducer _screenSharingAudioProducer
         store_producers screenSharingInProgress].
    do 4 (split; [done|]).
    split; [rewrite <- app_assoc; by apply prefix_app_r|].
    unfold close_requests. rewrite <- app_assoc, omap_app. reflexivity.
Qed.

(** X30. [disableScreenSharing] while a screen is shared: the video
    producer and, if there is one, the audio producer are closed and removed
    from the store, both fields are reset and the in-progress flag is
    lowered, whatever the SFU answers.  The SFU is asked to close the video
    producer, and to close the audio producer only if it has fulfilled the
    first request. *)
Theorem disableScreenSharing_releases sfu st video :
  _screenSharingProducer st = Some video ->
  let st' := disableScreenSharing sfu st in
  let audio := option_list (_screenSharingAudioProducer st) in
  _screenSharingProducer st' = None
  /\ _screenSharingAudioProducer st' = None
  /\ store_producers st' = store_producers st ∖ list_to_set (video :: audio)
  /\ screenSharingInProgress st' = false
  /\ (forall id, id ∈ video :: audio -> ProducerClose id ∈ effects st')
  /\ last (effects st') = Some ScreenSharingStop
  /\ close_requests (effects st')
     = close_requests (effects st)
       ++ video :: (if sfu (length (effects st) + 1 + length audio)%nat
                         "closeProducer" video
                    then audio else []).
Proof.
  intros Hv. cbv zeta. unfold disableScreenSharing. rewrite Hv.
  set (st1 := removeProducer video _).
  assert (store_producers st1
          = store_producers st
            ∖ list_to_set (video :: option_list (_screenSharingAudioProducer st))
          /\ effects st1
             = effects st
               ++ ProducerClose video
                  :: map ProducerClose
                       (option_list (_screenSharingAudioProducer st)))
    as [Hstore Heffects].
  { unfold st1, removeProducer, perform, setScreenSharingInProgress.
    cbn [effects _screenSharingProducer _screenSharingAudioProducer
         store_producers screenSharingInProgress].
    destruct (_screenSharingAudioProducer st) as [a|];
      cbn [effects _screenSharingProducer _screenSharingAudioProducer
           store_producers screenSharingInProgress option_list map
           list_to_set];
      rewrite <- ?app_assoc; (split; [set_solver|done]). }
  destruct (close_on_sfu_effects sfu video
              (_screenSharingAudioProducer
                 (perform (ProducerClose video)
                    (setScreenSharingInProgress true st))) st1)
    as (_ & _ & Hs2 & _ & He2 & Hr2).
  cbv zeta in *. set (st2 := close_on_sfu sfu video _ st1) in *.
  cbn [setScreenSharingInProgress perform forget_producers
       _screenSharingProducer _screenSharingAudioProducer store_producers
       screenSharingInProgress effects].
  split; [done|]. split; [done|]. split; [congruence|]. split; [done|].
  split; [|split].
  - intros id Hid. apply elem_of_app. left.
    eapply elem_of_prefix; [|exact He2]. rewrite Heffects.
    apply elem_of_app. right.
    change (ProducerClose video
            :: map ProducerClose (option_list (_screenSharingAudioProducer st)))
      with (map ProducerClose
              (video :: option_list (_screenSharingAudioProducer st))).
    by apply list_elem_of_fmap_2.
  - apply last_snoc.
  - unfold close_requests in *. rewrite omap_app. cbn [omap list_omap].
    rewrite app_nil_r, Hr2, Heffects, omap_app.
    assert (omap (fun e => match e with
                           | Request "closeProducer" id => Some id
                           | _ => None
                           end)
              (ProducerClose video
               :: map ProducerClose
                    (option_list (_screenSharingAudioProducer st))) = [])
      as -> by (by destruct (_screenSharingAudioProducer st)).
    rewrite app_nil_r, length_app. cbn [length].
    rewrite length_map.
    replace (length (effects st)
             + S (length (option_list (_screenSharingAudioProducer st))))%nat
      with (length (effects st) + 1
            + length (option_list (_screenSharingAudioProducer st)))%nat by lia.
    cbn [perform setScreenSharingInProgress _screenSharingAudioProducer].
    done.
Qed.

Lemma disableScreenSharing_releases_witness :
  store_producers (disableScreenSharing (fun _ _ _ => false) sharing_with_sound)
  = {["screen-1"; "screen-audio-1"; "mic-1"]}
    ∖ list_to_set ["screen-1"; "screen-audio-1"]
  /\ close_requests
       (effects (disableScreenSharing (fun _ _ _ => false) sharing_with_sound))
     = ["screen-1"].
Proof.
  destruct (disableScreenSharing_releases (fun _ _ _ => false)
              sharing_with_sound "screen-1")
    as (_ & _ & H3 & _ & _ & _ & H7); [reflexivity|].
  split; [exact H3|exact H7].
Defined.

End ScreenSharingFacts.
